(** * Gaussian blur by 2-D convolution: a shallow embedding of [notebook.ipynb]

    The notebook defines [read_image], [write_image], [gaussian_kernel_2d],
    [gaussian_kernel_1d], the numba-compiled [convolve] and the driver [main].
    The code is dtype-generic (numpy arrays of any floating type), so the
    embedding is generic in the scalar type: the operations the code uses are
    collected in the class [Scalar], the algebraic laws of exact arithmetic in
    [ExactArith].  The rationals and the reals are exact arithmetics; the
    IEEE 754 formats binary32 and binary64 are scalar types without the
    laws.  A statement that needs the laws is a statement about exact
    arithmetic, and where rounding makes it fail on floating-point arrays a
    run in an IEEE format shows that.

    Arrays live in a heap of numpy objects addressed by references, because
    [convolve] and [write_image] update their arguments in place.

    The imaging library Pillow is imported by the notebook and is not part
    of it: what [Image.fromarray(...).save] does with an array is a
    parameter of the embedding, the class [Pillow].

    Subscripts and loop counters are unbounded integers: numba's 64-bit
    counters cannot overflow on arrays that fit in memory. *)

From Stdlib Require Import ZArith List Lia QArith Qcanon Qround Field Reals Lra.
From Stdlib Require Import SpecFloat.
From stdpp Require Import base gmap list strings.

Local Open Scope Z_scope.

(** ** Scalars *)

(** The arithmetic the notebook performs on array elements.  [is_zero] is the
    test behind numba's [ZeroDivisionError]; [of_Z] converts an integer
    sample or literal; [ceil] is [np.ceil] read as an integer; [trunc] is the
    C conversion of a float to an integer (toward zero) behind
    [astype(np.uint8)]; [sle] is the order, used to state bounds. *)
Class Scalar (F : Type) := {
  zero : F;
  one : F;
  add : F → F → F;
  sub : F → F → F;
  opp : F → F;
  mul : F → F → F;
  div : F → F → F;
  is_zero : F → bool;
  of_Z : Z → F;
  ceil : F → Z;
  trunc : F → Z;
  sle : F → F → Prop
}.

(** [np.exp]. *)
Class Exponential (F : Type) := exp : F → F.

Definition slt {F} `{Scalar F} (a b : F) : Prop := sle a b ∧ a ≠ b.
Definition inv {F} `{Scalar F} (a : F) : F := div one a.

(** The laws of exact arithmetic: an ordered field, in which [of_Z] embeds
    the integers and [ceil] and [trunc] round as their names say. *)
Class ExactArith (F : Type) `{Scalar F} : Prop := {
  scalar_field : field_theory zero one add mul sub opp div inv eq;
  sle_refl : ∀ a, sle a a;
  sle_antisym : ∀ a b, sle a b → sle b a → a = b;
  sle_trans : ∀ a b c, sle a b → sle b c → sle a c;
  sle_total : ∀ a b, sle a b ∨ sle b a;
  add_sle_mono : ∀ a b c, sle a b → sle (add a c) (add b c);
  mul_nonneg : ∀ a b, sle zero a → sle zero b → sle zero (mul a b);
  is_zero_spec : ∀ a, is_zero a = true ↔ a = zero;
  of_Z_1 : of_Z 1 = one;
  of_Z_add : ∀ m n, of_Z (m + n) = add (of_Z m) (of_Z n);
  of_Z_mul : ∀ m n, of_Z (m * n) = mul (of_Z m) (of_Z n);
  of_Z_sle : ∀ m n, sle (of_Z m) (of_Z n) ↔ m ≤ n;
  ceil_spec : ∀ a, slt (of_Z (ceil a - 1)) a ∧ sle a (of_Z (ceil a));
  trunc_spec : ∀ a, sle zero a → sle (of_Z (trunc a)) a ∧ slt a (of_Z (trunc a + 1))
}.

(** In exact arithmetic [trunc] rounds toward zero below zero as above it. *)
Class TruncOdd (F : Type) `{Scalar F} : Prop :=
  trunc_opp : ∀ a : F, trunc (opp a) = - trunc a.

(** The laws of the exponential the development uses. *)
Class ExpLaws (F : Type) `{Scalar F} `{Exponential F} : Prop := {
  exp_pos : ∀ a, slt zero (exp a);
  exp_mono : ∀ a b, sle a b → sle (exp a) (exp b);
  exp_add : ∀ a b, exp (add a b) = mul (exp a) (exp b)
}.

(** ** Python exceptions and the state-and-exception monad *)

(** [ZeroDivisionError]: compiled with numba's default error model, a
    division by zero raises.  [TypeError]: the object is not an array of the
    expected rank.  [IOError]: the input file cannot be opened.
    [ValueError]: [transpose(2,0,1)] is applied to an array that is not 3-D.

    [OutOfBounds] is not a Python exception.  numba compiles subscripts
    without bounds checks, so a subscript outside an array reads or writes
    memory outside it and the call goes on with whatever it finds.  The
    model stops such a run with this outcome and says nothing about how the
    real run continues; the theorems below exclude it under their
    hypotheses, and none states that a run ends with it. *)
Inductive exn :=
  | ZeroDivisionError
  | OutOfBounds
  | TypeError
  | IOError
  | ValueError.

Inductive outcome (A : Type) :=
  | Ok (a : A)
  | Raise (e : exn).
Arguments Ok {A} a.
Arguments Raise {A} e.

Definition loc := positive.

(** An H x W x C array of integer samples, as [np.array(Image.open(path))]
    returns and [Image.fromarray] takes. *)
Abbreviation raster := (list (list (list Z))).

(** What an image file decodes to: [np.array(Image.open(path))] is a 2-D
    array for an image of one band (greyscale, palette) and an H x W x C
    array for an image of C > 1 bands (C = 3 for RGB). *)
Inductive picture :=
  | Flat (a : list (list Z))
  | Bands (a : raster).

(** The outcome of [Image.fromarray(a).save(path)]: the library raises (for
    an array it cannot turn into an image, a format that does not take the
    image's mode, a path it cannot write), or it writes a file.  [Written p]
    gives what the written file decodes to; that is the array [a] itself
    only for a lossless format. *)
Inductive saved :=
  | Refused (e : exn)
  | Written (p : picture).

(** The imaging library.  Its code is not in the notebook, so what it does
    with a path and an array of 8-bit samples is a parameter. *)
Class Pillow := fromarray_save : string → raster → saved.

Section Program.
Context {F : Type} `{Scalar F} `{Exponential F} {P : Pillow}.

(** A numpy array object: a kernel is 2-D, an image is 3-D (C x H x W).
    Arrays are rectangular nested lists; the shape is read off the lists. *)
Inductive ndarray :=
  | Array2 (a : list (list F))
  | Array3 (a : list (list (list F))).

(** [heap]: the numpy objects; [next_loc]: the allocator; [files]: the image
    files, each as the array it decodes to; [calls]: a ghost log of the
    argument triples (image, output, kernel) of the [convolve] invocations,
    oldest first. *)
Record state := State {
  heap : gmap loc ndarray;
  next_loc : loc;
  files : gmap string picture;
  calls : list (loc * loc * loc)
}.

Definition M (A : Type) : Type := state → outcome A * state.

Definition ret {A} (a : A) : M A := λ s, (Ok a, s).
Definition raise {A} (e : exn) : M A := λ s, (Raise e, s).
Definition bind {A B} (m : M A) (f : A → M B) : M B :=
  λ s, match m s with
       | (Ok a, s') => f a s'
       | (Raise e, s') => (Raise e, s')
       end.

Notation "x <- m ;; k" := (bind m (λ x, k))
  (at level 100, m at next level, right associativity).
Notation "m ;; k" := (bind m (λ _, k))
  (at level 100, right associativity).

(** [for a in l: body(a)] *)
Fixpoint for_ {A} (l : list A) (body : A → M unit) : M unit :=
  match l with
  | [] => ret tt
  | a :: l' => body a ;; for_ l' body
  end.

(** A loop that threads local variables [b] through its iterations. *)
Fixpoint foldM {A B} (f : B → A → M B) (b : B) (l : list A) : M B :=
  match l with
  | [] => ret b
  | a :: l' => b' <- f b a ;; foldM f b' l'
  end.

(** [range(a, b)] *)
Definition range (a b : Z) : list Z :=
  map (λ i : nat, a + Z.of_nat i) (seq 0 (Z.to_nat (b - a))).

(** *** Heap primitives *)

Definition set_heap (h : gmap loc ndarray) (s : state) : state :=
  State h (next_loc s) (files s) (calls s).

Definition load (l : loc) : M ndarray :=
  λ s, match heap s !! l with
       | Some a => (Ok a, s)
       | None => (Raise TypeError, s)
       end.

Definition store (l : loc) (a : ndarray) : M unit :=
  λ s, (Ok tt, set_heap (<[l := a]> (heap s)) s).

(** A new array object; its reference is fresh. *)
Definition alloc (a : ndarray) : M loc :=
  λ s, (Ok (next_loc s),
        State (<[next_loc s := a]> (heap s)) (Pos.succ (next_loc s))
              (files s) (calls s)).

Definition log_call (image output kernel : loc) : M unit :=
  λ s, (Ok tt, State (heap s) (next_loc s) (files s)
                     (calls s ++ [(image, output, kernel)])).

Definition load3 (l : loc) : M (list (list (list F))) :=
  a <- load l ;;
  match a with
  | Array3 a => ret a
  | Array2 _ => raise TypeError
  end.

Definition load2 (l : loc) : M (list (list F)) :=
  a <- load l ;;
  match a with
  | Array2 a => ret a
  | Array3 _ => raise TypeError
  end.

(** *** Subscripts *)

(** A numpy subscript [i] into an axis of length [n]: negative subscripts
    count from the end; anything else outside [0, n) is an error. *)
Definition norm_index (n : nat) (i : Z) : option nat :=
  if decide (0 ≤ i < Z.of_nat n) then Some (Z.to_nat i)
  else if decide (- Z.of_nat n ≤ i < 0) then Some (Z.to_nat (i + Z.of_nat n))
  else None.

Definition getitem {A} (l : list A) (i : Z) : option A :=
  k ← norm_index (length l) i; l !! k.

Definition getitem2 (a : list (list F)) (i j : Z) : option F :=
  r ← getitem a i; getitem r j.

Definition getitem3 (a : list (list (list F))) (c i j : Z) : option F :=
  p ← getitem a c; getitem2 p i j.

(** [a[c, y, x] = v] on the value of the array; [None] outside the array. *)
Definition setitem3 (a : list (list (list F))) (c y x : Z) (v : F)
  : option (list (list (list F))) :=
  kc ← norm_index (length a) c;
  p ← a !! kc;
  ky ← norm_index (length p) y;
  r ← p !! ky;
  kx ← norm_index (length r) x;
  Some (<[kc := <[ky := <[kx := v]> r]> p]> a).

Definition shape2 (a : list (list F)) : Z * Z :=
  (Z.of_nat (length a), Z.of_nat (length (default [] (head a)))).

Definition shape3 (a : list (list (list F))) : Z * Z * Z :=
  (Z.of_nat (length a),
   Z.of_nat (length (default [] (head a))),
   Z.of_nat (length (default [] (head (default [] (head a)))))).

(** [kernel[i, j]]; for [OutOfBounds] see [exn]. *)
Definition read2 (kernel : loc) (i j : Z) : M F :=
  a <- load2 kernel ;;
  match getitem2 a i j with
  | Some v => ret v
  | None => raise OutOfBounds
  end.

(** [image[c, v, u]] *)
Definition read3 (image : loc) (c v u : Z) : M F :=
  a <- load3 image ;;
  match getitem3 a c v u with
  | Some w => ret w
  | None => raise OutOfBounds
  end.

(** [output[c, y, x] = w] *)
Definition write3 (output : loc) (c y x : Z) (w : F) : M unit :=
  a <- load3 output ;;
  match setitem3 a c y x w with
  | Some a' => store output (Array3 a')
  | None => raise OutOfBounds
  end.

(** [value / total] in compiled code: division by zero raises.  The local
    variables [value] and [total] start as the integer 0 and hold scalars
    from the first addition on. *)
Definition truediv (value total : F) : M F :=
  if is_zero total then raise ZeroDivisionError else ret (div value total).

(** ** [convolve] *)

(** The two innermost loops, with the local variables [value] and [total]. *)
Definition accumulate (image kernel : loc)
    (kernel_halfh kernel_halfw c y x x_min x_max y_min y_max : Z) : M (F * F) :=
  foldM (λ acc u,
    foldM (λ '(value, total) v,
      tmp <- read2 kernel (v - y + kernel_halfh) (u - x + kernel_halfw) ;;
      px <- read3 image c v u ;;
      ret (add value (mul px tmp), add total tmp))
      acc (range y_min (y_max + 1)))
    (zero, zero) (range x_min (x_max + 1)).

Definition convolve (image output kernel : loc) : M unit :=
  log_call image output kernel ;;
  img <- load3 image ;;
  let '(channel_count, image_height, image_width) := shape3 img in
  ker <- load2 kernel ;;
  let '(kernel_height, kernel_width) := shape2 ker in
  let kernel_halfh := kernel_height `div` 2 in
  let kernel_halfw := kernel_width `div` 2 in
  for_ (range 0 image_width) (λ x,
    for_ (range 0 image_height) (λ y,
      let x_min := Z.max 0 (x - kernel_halfw) in
      let x_max := Z.min (image_width - 1) (x + kernel_halfw) in
      let y_min := Z.max 0 (y - kernel_halfh) in
      let y_max := Z.min (image_height - 1) (y + kernel_halfh) in
      for_ (range 0 channel_count) (λ c,
        acc <- accumulate image kernel kernel_halfh kernel_halfw
                          c y x x_min x_max y_min y_max ;;
        let '(value, total) := acc in
        q <- truediv value total ;;
        write3 output c y x q))).

(** ** Kernel generation *)

(** [np.arange(start, stop, dtype=...)] with step 1: [ceil(stop - start)]
    elements [start + i]. *)
Definition arange (start stop : F) : list F :=
  map (λ i, add start (of_Z i)) (range 0 (ceil (sub stop start))).

(** [np.meshgrid(a, b)]: [xx[i][j] = a[j]], [yy[i][j] = b[i]]. *)
Definition meshgrid (a b : list F) : list (list F) * list (list F) :=
  (map (λ _, a) b, map (λ y, map (λ _, y) a) b).

(** [np.sum] of a 1-D and of a 2-D array. *)
Definition sum1 (a : list F) : F := fold_left add a zero.
Definition sum2 (a : list (list F)) : F := sum1 (concat a).

(** [np.exp(-r2 / (2. * sigma**2))] *)
Definition gauss (sigma r2 : F) : F :=
  exp (div (opp r2) (mul (of_Z 2) (mul sigma sigma))).

(** The generators: [np.ceil(sigma) * 3] is the radius; the variable
    [kernel_size] of the source is not used and is left out; the division by
    [np.sum(kernel)] is numpy's, which does not raise. *)

Definition gaussian_kernel_2d (sigma : F) : list (list F) :=
  let kernel_radius := mul (of_Z (ceil sigma)) (of_Z 3) in
  let ax := arange (opp kernel_radius) (add kernel_radius one) in
  let '(xx, yy) := meshgrid ax ax in
  let kernel :=
    zip_with (zip_with (λ x y, gauss sigma (add (mul x x) (mul y y)))) xx yy in
  let total := sum2 kernel in
  map (map (λ w, div w total)) kernel.

Definition gaussian_kernel_1d (sigma : F) : list (list F) :=
  let kernel_radius := mul (of_Z (ceil sigma)) (of_Z 3) in
  let ax := arange (opp kernel_radius) (add kernel_radius one) in
  let kernel := map (λ x, gauss sigma (mul x x)) ax in
  let total := sum1 kernel in
  [map (λ w, div w total) kernel].

(** [a.transpose()] of a 2-D array.  numpy returns a view of the same
    memory; the kernels are never written, and [main] stores the transposed
    kernel as an object of its own. *)
Definition transpose (a : list (list F)) : list (list F) :=
  map (λ j, map (λ r, default zero (r !! j)) a)
      (seq 0 (length (default [] (head a)))).

(** ** Image files *)

Definition map3 {A B} (f : A → B) : list (list (list A)) → list (list (list B)) :=
  map (map (map f)).

(** [img.transpose(2,0,1)] of an H x W x C raster: [r[c][y][x] = img[y][x][c]]. *)
Definition transpose_201 {A} (d : A) (img : list (list (list A)))
  : list (list (list A)) :=
  map (λ c, map (map (λ px, default d (px !! c))) img)
      (seq 0 (length (default [] (head (default [] (head img)))))).

(** [img.transpose(1,2,0)] of a C x H x W array: [r[y][x][c] = img[c][y][x]]. *)
Definition transpose_120 {A} (d : A) (img : list (list (list A)))
  : list (list (list A)) :=
  let h := length (default [] (head img)) in
  let w := length (default [] (head (default [] (head img)))) in
  map (λ y, map (λ x, map (λ p, default d (p !! y ≫= (.!! x))) img) (seq 0 w))
      (seq 0 h).

(** The conversion of one sample by [astype(np.uint8)], a C cast.  C leaves
    the result open for a value whose integer part is not in 0..255; the
    definition is what the cast computes on x86-64: the value is converted
    to a signed 32-bit integer, truncating toward zero, and the low 8 bits
    are kept; a value whose integer part is outside the 32-bit range is
    converted to -2^31, whose low 8 bits are 0. *)
Definition to_uint8 (v : F) : Z :=
  if decide (- 2147483648 ≤ trunc v < 2147483648) then trunc v `mod` 256 else 0.

(** [read_image]: the decoded file, channels first, as scalars divided by
    255, in a new array object.  A missing file makes [Image.open] raise, a
    2-D array makes [transpose(2,0,1)] raise. *)
Definition read_image (path : string) : M loc :=
  img <- (λ s, match files s !! path with
               | Some (Bands r) => (Ok r, s)
               | Some (Flat _) => (Raise ValueError, s)
               | None => (Raise IOError, s)
               end) ;;
  let arr := map3 of_Z (transpose_201 0 img) in
  let arr := map3 (λ v, div v (of_Z 255)) arr in
  alloc (Array3 arr).

(** [Image.fromarray(img).save(path)]: the library's call.  When it writes,
    the file at [path] is from then on the one written. *)
Definition save (path : string) (r : raster) : M unit :=
  λ s, match fromarray_save path r with
       | Refused e => (Raise e, s)
       | Written p =>
           (Ok tt, State (heap s) (next_loc s) (<[path := p]> (files s)) (calls s))
       end.

(** [write_image]: [img *= 255] updates the caller's array in place; the
    transposed and converted copy is a local value and is handed to the
    imaging library. *)
Definition write_image (img : loc) (path : string) : M unit :=
  a <- load3 img ;;
  store img (Array3 (map3 (λ v, mul v (of_Z 255)) a)) ;;
  a <- load3 img ;;
  let img' := map3 to_uint8 (transpose_120 zero a) in
  save path img'.

(** ** The pipeline *)

(** [np.zeros(shape)] *)
Definition zeros (shape : Z * Z * Z) : list (list (list F)) :=
  let '(c, h, w) := shape in
  replicate (Z.to_nat c) (replicate (Z.to_nat h) (replicate (Z.to_nat w) zero)).

Definition main (input_file output_file : string) (sigma : F)
    (seperate_filters : bool) : M unit :=
  img <- read_image input_file ;;
  a <- load3 img ;;
  output <- alloc (Array3 (zeros (shape3 a))) ;;
  (if negb seperate_filters then
     kernel_2d <- alloc (Array2 (gaussian_kernel_2d sigma)) ;;
     convolve img output kernel_2d
   else
     kernel_1d <- alloc (Array2 (gaussian_kernel_1d sigma)) ;;
     a <- load3 img ;;
     intermediate <- alloc (Array3 (zeros (shape3 a))) ;;
     convolve img intermediate kernel_1d ;;
     k <- load2 kernel_1d ;;
     kernel_1d_t <- alloc (Array2 (transpose k)) ;;
     convolve intermediate output kernel_1d_t) ;;
  write_image output output_file.

End Program.

Notation "x <- m ;; k" := (bind m (λ x, k))
  (at level 100, m at next level, right associativity).
Notation "m ;; k" := (bind m (λ _, k))
  (at level 100, right associativity).

Arguments ndarray F : clear implicits.
Arguments state F : clear implicits.
Arguments M F A : clear implicits.

(** ** Exact rational scalars *)

#[export] Instance Qc_Scalar : Scalar Qc := {|
  zero := 0%Qc;
  one := 1%Qc;
  add := Qcplus;
  sub := Qcminus;
  opp := Qcopp;
  mul := Qcmult;
  div := Qcdiv;
  is_zero := λ q, Qeq_bool q 0;
  of_Z := λ z, Q2Qc (inject_Z z);
  ceil := λ q, Qceiling q;
  trunc := λ q, Z.quot (Qnum q) (Z.pos (Qden q));
  sle := Qcle
|}.

(** ** Real scalars *)

#[export] Instance R_Scalar : Scalar R := {|
  zero := 0%R;
  one := 1%R;
  add := Rplus;
  sub := Rminus;
  opp := Ropp;
  mul := Rmult;
  div := Rdiv;
  is_zero := λ x, if Req_dec_T x 0 then true else false;
  of_Z := IZR;
  ceil := λ x, 1 - up (- x);
  trunc := λ x, if Rle_dec 0 x then Int_part x else - Int_part (- x);
  sle := Rle
|}.

#[export] Instance R_Exponential : Exponential R := Rtrigo_def.exp.

(** ** IEEE 754 scalars *)

(** The numbers of the binary format with [prec] bits of precision and
    exponents below [emax], as [spec_float] of the standard library; its
    operations round to nearest, ties to even.  [is_zero] is the comparison
    with 0.0, true of both zeros and false of a NaN.  [float_to_Z] reads a
    finite number as an integer, rounding toward zero or upward.  For a NaN
    or an infinity [trunc] is -2^31, the result of the x86-64 conversion
    instruction behind the C cast; [np.ceil] returns such an argument
    unchanged and the generators then fail in [np.arange], which [ceil],
    set to 0 there, does not model. *)
Section IEEE.
Variables prec emax : Z.

Definition float_to_Z (up : bool) (x : spec_float) : Z :=
  match x with
  | S754_finite s m e =>
      let z := cond_Zopp s (Z.pos m) in
      match e with
      | Z.neg p => if up then - ((- z) `div` 2 ^ Z.pos p) else Z.quot z (2 ^ Z.pos p)
      | _ => z * 2 ^ e
      end
  | S754_zero _ => 0
  | _ => if up then 0 else - 2147483648
  end.

Definition IEEE_Scalar : Scalar spec_float := {|
  zero := S754_zero false;
  one := binary_normalize prec emax 1 0 false;
  add := SFadd prec emax;
  sub := SFsub prec emax;
  opp := SFopp;
  mul := SFmul prec emax;
  div := SFdiv prec emax;
  is_zero := λ x, SFeqb x (S754_zero false);
  of_Z := λ n, binary_normalize prec emax n 0 false;
  ceil := float_to_Z true;
  trunc := float_to_Z false;
  sle := λ a b, SFleb a b = true
|}.

End IEEE.

(** [np.float32] and [np.float64] (the Python [float]). *)
Definition binary32 : Scalar spec_float := IEEE_Scalar 24 128.
Definition binary64 : Scalar spec_float := IEEE_Scalar 53 1024.

(** ** What [convolve] computes, as a function of the array values *)

Section Specification.
Context {F : Type} `{Scalar F}.

Definition has_shape2 (a : list (list F)) (h w : nat) : Prop :=
  length a = h ∧ Forall (λ r, length r = w) a.

Definition has_shape3 (a : list (list (list F))) (c h w : nat) : Prop :=
  length a = c ∧ Forall (λ p, has_shape2 p h w) a.

(** [a[i, j]] and [a[c, i, j]] as total functions. *)
Definition at2 (a : list (list F)) (i j : Z) : F := default zero (getitem2 a i j).
Definition at3 (a : list (list (list F))) (c i j : Z) : F :=
  default zero (getitem3 a c i j).

(** The sum of [f v u] over [u] in [us] (outer loop) and [v] in [vs] (inner
    loop), accumulated from [zero] in the order of the loops. *)
Definition sum_window (f : Z → Z → F) (us vs : list Z) : F :=
  fold_left (λ acc u, fold_left (λ acc v, add acc (f v u)) vs acc) us zero.

Definition x_min (kw x : Z) : Z := Z.max 0 (x - kw `div` 2).
Definition x_max (W kw x : Z) : Z := Z.min (W - 1) (x + kw `div` 2).
Definition y_min (kh y : Z) : Z := Z.max 0 (y - kh `div` 2).
Definition y_max (H kh y : Z) : Z := Z.min (H - 1) (y + kh `div` 2).

(** The sum of the kernel weights over the window of position [(y, x)], and
    the sum of the products of pixel and weight, for an image of height [Hh]
    and width [Ww] and a kernel of height [kh] and width [kw]. *)
Definition weight_sum (ker : list (list F)) (Hh Ww kh kw y x : Z) : F :=
  sum_window (λ v u, at2 ker (v - y + kh `div` 2) (u - x + kw `div` 2))
    (range (x_min kw x) (x_max Ww kw x + 1)) (range (y_min kh y) (y_max Hh kh y + 1)).

Definition weighted_sum (img : list (list (list F))) (ker : list (list F))
    (Hh Ww kh kw c y x : Z) : F :=
  sum_window (λ v u, mul (at3 img c v u)
                         (at2 ker (v - y + kh `div` 2) (u - x + kw `div` 2)))
    (range (x_min kw x) (x_max Ww kw x + 1)) (range (y_min kh y) (y_max Hh kh y + 1)).

Section Window.
Variables (img : list (list (list F))) (ker : list (list F)).

Let Hh : Z := (shape3 img).1.2.
Let Ww : Z := (shape3 img).2.
Let kh : Z := (shape2 ker).1.
Let kw : Z := (shape2 ker).2.

Definition window_value (c y x : Z) : F := weighted_sum img ker Hh Ww kh kw c y x.

Definition window_total (y x : Z) : F := weight_sum ker Hh Ww kh kw y x.

Definition conv_pixel (c y x : Z) : F :=
  div (window_value c y x) (window_total y x).

Definition conv_step (o : list (list (list F))) (x y c : Z) : list (list (list F)) :=
  default o (setitem3 o c y x (conv_pixel c y x)).

(** The value of the output array after the three outer loops. *)
Definition conv_result (out : list (list (list F))) : list (list (list F)) :=
  fold_left (λ o x,
    fold_left (λ o y,
      fold_left (λ o c, conv_step o x y c) (range 0 (shape3 img).1.1) o)
      (range 0 Hh) o)
    (range 0 Ww) out.

End Window.

(** The state [s] with the array [o] stored at [output]. *)
Definition with_output (output : loc) (s : state F) (o : list (list (list F)))
  : state F :=
  set_heap (<[output := Array3 o]> (heap s)) s.

(** The state after the call has been logged. *)
Definition logged (image output kernel : loc) (s : state F) : state F :=
  State (heap s) (next_loc s) (files s) (calls s ++ [(image, output, kernel)]).

(** The square array of side [n] with [f i j] in row [i] and column [j]. *)
Definition grid {A} (n : Z) (f : Z → Z → A) : list (list A) :=
  map (λ i, map (λ j, f i j) (range 0 n)) (range 0 n).

(** The unnormalized Gaussian weight at the grid offsets [(dx, dy)]. *)
Definition bell `{Exponential F} (sigma : F) (dx dy : Z) : F :=
  gauss sigma (add (mul (of_Z dx) (of_Z dx)) (mul (of_Z dy) (of_Z dy))).

(** The states [s] and [s'] differ at most in the object at [output]. *)
Definition same_except (output : loc) (s s' : state F) : Prop :=
  (∀ l, l ≠ output → heap s' !! l = heap s !! l) ∧
  next_loc s' = next_loc s ∧ files s' = files s ∧ calls s' = calls s.

(** Whatever its outcome, the computation [m] changes at most the object at
    [output]. *)
Definition touches_only {A} (output : loc) (m : M F A) : Prop :=
  ∀ s, same_except output s (m s).2.

Definition is_ok {A} (r : outcome A) : bool :=
  match r with
  | Ok _ => true
  | Raise _ => false
  end.

(** The [convolve] calls of one run of the pipeline, given the mode and
    whether the run returned normally: in joint mode one call; in separable
    mode the row pass from the image into the intermediate buffer, then the
    column pass from the intermediate buffer into the output; fewer calls
    only if the run raised.  All the objects involved are distinct. *)
Definition pipeline_calls (seperate_filters ok : bool)
    (new : list (loc * loc * loc)) : Prop :=
  if seperate_filters then
    (new = [] ∧ ok = false) ∨
    (∃ img inter k, new = [(img, inter, k)] ∧ NoDup [img; inter; k] ∧ ok = false) ∨
    (∃ img out inter k kt,
       new = [(img, inter, k); (inter, out, kt)] ∧ NoDup [img; out; inter; k; kt])
  else
    (new = [] ∧ ok = false) ∨
    (∃ img out k, new = [(img, out, k)] ∧ NoDup [img; out; k]).

(** The unnormalized 1-D Gaussian weight at the offset [d], the row of
    these weights for the radius [ceil(sigma) * 3], and the normalized
    weight. *)
Definition bell1 `{Exponential F} (sigma : F) (d : Z) : F :=
  gauss sigma (mul (of_Z d) (of_Z d)).

Definition taps1 `{Exponential F} (sigma : F) : list F :=
  map (λ j, bell1 sigma (j - ceil sigma * 3)) (range 0 (2 * (ceil sigma * 3) + 1)).

Definition weight1 `{Exponential F} (sigma : F) (d : Z) : F :=
  div (bell1 sigma d) (sum1 (taps1 sigma)).

(** A decoded image file of height [h], width [w] and [c] channels. *)
Definition raster_shape (r : raster) (h w c : nat) : Prop :=
  length r = h ∧
  Forall (λ row, length row = w ∧ Forall (λ px : list Z, length px = c) row) r.

(** Every kernel subscript the loops form along an axis of image extent [n]
    and kernel extent [k] is inside the kernel.  Odd extents satisfy it. *)
Definition taps_ok (k n : Z) : Prop := k `div` 2 + Z.min (k `div` 2) (n - 1) < k.

End Specification.

(** ** Example inputs *)

(** A state holding an image at reference 1, an output buffer at reference 2
    and a kernel at reference 3. *)
Definition three_arrays {F} (img out : list (list (list F))) (ker : list (list F))
  : state F :=
  State (<[1%positive := Array3 img]>
           (<[2%positive := Array3 out]> (<[3%positive := Array2 ker]> ∅)))
        4%positive ∅ [].

Definition q (n : Z) (d : positive) : Qc := Q2Qc (n # d).

(** A single-channel 3 x 3 image, zero except for the centre pixel. *)
Definition impulse : list (list (list Qc)) :=
  [[[q 0 1; q 0 1; q 0 1]; [q 0 1; q 1 1; q 0 1]; [q 0 1; q 0 1; q 0 1]]].

Definition blank33 : list (list (list Qc)) :=
  [[[q 0 1; q 0 1; q 0 1]; [q 0 1; q 0 1; q 0 1]; [q 0 1; q 0 1; q 0 1]]].

(** The uniform 3 x 3 kernel. *)
Definition box3 : list (list Qc) :=
  [[q 1 9; q 1 9; q 1 9]; [q 1 9; q 1 9; q 1 9]; [q 1 9; q 1 9; q 1 9]].

(** A constant single-channel 3 x 3 image. *)
Definition grey33 : list (list (list Qc)) :=
  [[[q 1 2; q 1 2; q 1 2]; [q 1 2; q 1 2; q 1 2]; [q 1 2; q 1 2; q 1 2]]].

(** A constant image of one row and two columns, and a buffer of its shape. *)
Definition ones12 : list (list (list Qc)) := [[[q 1 1; q 1 1]]].
Definition blank12 : list (list (list Qc)) := [[[q 0 1; q 0 1]]].

(** A 1 x 3 kernel whose weights sum to 1 and whose two rightmost weights
    cancel. *)
Definition alternating3 : list (list Qc) := [[q 1 1; q (-1) 1; q 1 1]].

(** An image of width 1 and height 2, and a buffer of its shape. *)
Definition column2 : list (list (list Qc)) := [[[q 0 1]; [q 1 1]]].
Definition blank21 : list (list (list Qc)) := [[[q 0 1]; [q 0 1]]].

(** A normalized 1 x 3 row kernel. *)
Definition row3 : list (list Qc) := [[q 1 4; q 1 2; q 1 4]].



(** A state holding one image, at reference 1. *)
Definition one_array {F} (img : list (list (list F))) : state F :=
  State (<[1%positive := Array3 img]> ∅) 2%positive ∅ [].

(** A state with no arrays and one image file. *)
Definition one_file {F} (path : string) (r : raster) : state F :=
  State ∅ 1%positive (<[path := Bands r]> ∅) [].

(** The 3-D array stored at a reference. *)
Definition array3_at {F} (s : state F) (l : loc) : list (list (list F)) :=
  match heap s !! l with
  | Some (Array3 a) => a
  | _ => []
  end.

(** ** Rectangular nested lists of any element type *)

(** A nested list of extents [n1 x n2 x n3]: [has_shape3] and
    [raster_shape] are instances. *)
Definition rectangular3 {A} (a : list (list (list A))) (n1 n2 n3 : nat) : Prop :=
  length a = n1 ∧
  Forall (λ p, length p = n2 ∧ Forall (λ r : list A, length r = n3) p) a.

Definition lookup3 {A} (a : list (list (list A))) (i j k : nat) : option A :=
  p ← a !! i; r ← p !! j; r !! k.

(** Every sample of a decoded image lies in [lo, hi]. *)
Definition samples_in (lo hi : Z) (r : raster) : Prop :=
  Forall (Forall (Forall (λ v, lo ≤ v ≤ hi))) r.

(** The plain weighted sum of the image under the kernel placed with its
    centre on position [(y, x)], the kernel not flipped. *)
Definition correlation {F} `{Scalar F} (img : list (list (list F)))
    (ker : list (list F)) (kh kw c y x : Z) : F :=
  sum1 (map (λ p : Z * Z,
               mul (at3 img c (y + p.1 - kh `div` 2) (x + p.2 - kw `div` 2))
                   (at2 ker p.1 p.2))
            (list_prod (range 0 kh) (range 0 kw))).

(** ** More example inputs *)

(** A state holding the given array objects at the references 1, 2, ... *)
Definition objects {F} (l : list (ndarray F)) : state F :=
  State (list_to_map (zip (map Pos.of_nat (seq 1 (length l))) l))
        (Pos.of_nat (S (length l))) ∅ [].

(** A buffer of the shape of [impulse] with other contents. *)
Definition full33 : list (list (list Qc)) :=
  [[[q 7 1; q 7 1; q 7 1]; [q 7 1; q 7 1; q 7 1]; [q 7 1; q 7 1; q 7 1]]].

(** The uniform 3 x 3 kernel, not normalized. *)
Definition ones33 : list (list Qc) :=
  [[q 1 1; q 1 1; q 1 1]; [q 1 1; q 1 1; q 1 1]; [q 1 1; q 1 1; q 1 1]].

(** [2 * impulse + 3 * grey33]. *)
Definition mixed33 : list (list (list Qc)) :=
  [[[q 3 2; q 3 2; q 3 2]; [q 3 2; q 7 2; q 3 2]; [q 3 2; q 3 2; q 3 2]]].

(** An image with two rows and no columns. *)
Definition no_columns : list (list (list Qc)) := [[[]; []]].

(** The column kernel with the weights of [row3], and the outer product of
    the two. *)
Definition column3 : list (list Qc) := [[q 1 4]; [q 1 2]; [q 1 4]].

Definition outer33 : list (list Qc) :=
  [[q 1 16; q 1 8; q 1 16]; [q 1 8; q 1 4; q 1 8]; [q 1 16; q 1 8; q 1 16]].

(** A decoded RGB image of 2 x 2 pixels. *)
Definition rgb22 : raster :=
  [[[255; 0; 0]; [0; 255; 0]]; [[0; 0; 255]; [255; 255; 255]]].

(** An array of three channels, one row and two columns. *)
Definition planes3 : list (list (list Qc)) :=
  [[[q 1 1; q 1 2]]; [[q 0 1; q 1 4]]; [[q 1 3; q 1 1]]].

(** A 3 x 3 kernel whose only weight is the one at the centre. *)
Definition centre33 : list (list Qc) :=
  [[q 0 1; q 0 1; q 0 1]; [q 0 1; q 2 1; q 0 1]; [q 0 1; q 0 1; q 0 1]].

(** A buffer of one row and two columns that is not blank. *)
Definition sevens12 : list (list (list Qc)) := [[[q 7 1; q 7 1]]].

(** One pixel of three channels with the samples 1.25, -0.5 and 0.5, two of
    them outside [0, 1]; scaled by 255 they are 318.75, -127.5 and 127.5,
    in binary32 as in exact arithmetic. *)
Definition vivid : list (list (list Qc)) := [[[q 5 4]]; [[q (-1) 2]]; [[q 1 2]]].

(** One black pixel of three channels. *)
Definition black3 : list (list (list Qc)) := [[[q 0 1]]; [[q 0 1]]; [[q 0 1]]].

(** An imaging library for the examples.  Like Pillow it takes an array of
    two, three or four channels as an image and raises [TypeError] for an
    array of one channel; it writes every image without loss, as Pillow
    does to a PNG file. *)
Definition lossless : Pillow := λ path r,
  match r with
  | (px :: _) :: _ =>
      if decide (2 ≤ length px ≤ 4)%nat then Written (Bands r) else Refused TypeError
  | _ => Refused ValueError
  end.

(** Binary32 numbers: the sample 29 as [read_image] decodes it, that is
    29/255 rounded, which is 15263977 / 2^27; its neighbour above; and 5. *)
Definition sample29 : spec_float := S754_finite false 15263977 (-27).
Definition above29 : spec_float := S754_finite false 15263978 (-27).
Definition five : spec_float := S754_finite false 10485760 (-21).


(** * Proofs *)

(** ** The monad and its loops *)

Section MonadLemmas.
Context {F : Type} `{Scalar F}.

Lemma bind_ok {A B} (m : M F A) (f : A → M F B) s a s' :
  m s = (Ok a, s') → bind m f s = f a s'.
Proof. unfold bind. by intros ->. Qed.

Lemma bind_run {A B} (m : M F A) (f : A → M F B) s r s' :
  m s = (r, s') →
  bind m f s = match r with
               | Ok a => f a s'
               | Raise e => (Raise e, s')
               end.
Proof. unfold bind. by intros ->. Qed.

Lemma bind_raise {A B} (m : M F A) (f : A → M F B) s e s' :
  m s = (Raise e, s') → bind m f s = (Raise e, s').
Proof. unfold bind. by intros ->. Qed.

(** A loop whose iterations all succeed, run on states of the form [st o]:
    it acts on [o] as the fold of the iterations' actions. *)
Lemma for_fold {A O} (l : list A) (body : A → M F unit)
    (step : O → A → O) (st : O → state F) (Inv : O → Prop) :
  (∀ a o, a ∈ l → Inv o → body a (st o) = (Ok tt, st (step o a)) ∧ Inv (step o a)) →
  ∀ o, Inv o →
    for_ l body (st o) = (Ok tt, st (fold_left step l o)) ∧ Inv (fold_left step l o).
Proof.
  induction l as [|a l IH]; intros Hbody o Ho; simpl.
  - done.
  - destruct (Hbody a o) as [Hrun Hinv]; [left | done |].
    rewrite (bind_ok _ _ _ _ _ Hrun).
    apply IH; [|done].
    intros a' o' Ha'. apply Hbody. by right.
Qed.

(** A loop over local variables whose iterations read the state only. *)
Lemma foldM_pure {A B} (f : B → A → M F B) (g : B → A → B) (l : list A) s :
  (∀ b a, a ∈ l → f b a s = (Ok (g b a), s)) →
  ∀ b, foldM f b l s = (Ok (fold_left g l b), s).
Proof.
  induction l as [|a l IH]; intros Hf b; simpl.
  - done.
  - rewrite (bind_ok _ _ _ _ _ (Hf b a ltac:(left))).
    apply IH. intros b' a' Ha'. apply Hf. by right.
Qed.

Lemma fold_left_inv {A O} (step : O → A → O) (P : O → Prop) (l : list A) :
  (∀ o a, a ∈ l → P o → P (step o a)) → ∀ o, P o → P (fold_left step l o).
Proof.
  induction l as [|a l IH]; intros Hstep o Ho; simpl; [done|].
  apply IH; [|apply Hstep; [left|done]].
  intros o' a' Ha'. apply Hstep. by right.
Qed.

(** If every iteration keeps [I] and [J], and the iteration at [a0]
    establishes [J] from [I], the loop establishes [J] from [I]. *)
Lemma fold_left_hit {A O} (step : O → A → O) (I J : O → Prop) (l : list A) a0 :
  a0 ∈ l →
  (∀ o a, a ∈ l → I o → I (step o a)) →
  (∀ o a, a ∈ l → J o → J (step o a)) →
  (∀ o, I o → J (step o a0)) →
  ∀ o, I o → J (fold_left step l o).
Proof.
  induction l as [|a l IH]; intros Hin HI HJ Hhit o Ho; simpl.
  - by apply elem_of_nil in Hin.
  - apply elem_of_cons in Hin as [->|Hin].
    + apply fold_left_inv; [|by apply Hhit].
      intros o' a' Ha'. apply HJ. by right.
    + apply IH; [done| | |done|].
      * intros o' a' Ha'. apply HI. by right.
      * intros o' a' Ha'. apply HJ. by right.
      * apply HI; [left|done].
Qed.

Lemma elem_of_range a b i : i ∈ range a b ↔ a ≤ i < b.
Proof.
  unfold range. rewrite list_elem_of_fmap. split.
  - intros (k & -> & Hk). apply elem_of_seq in Hk. lia.
  - intros Hi. exists (Z.to_nat (i - a)). split; [lia|].
    apply elem_of_seq. lia.
Qed.

End MonadLemmas.

(** One step of a run recorded in the hypothesis [Hres]: the first
    computation of the sequence is replaced by its result, proved by [tac]. *)
Ltac run_bind Hres tac :=
  match type of Hres with
  | _ = bind ?m ?f ?s =>
      erewrite (bind_run m f s) in Hres; [ | tac]; cbv beta iota in Hres
  end.

(** ** Subscripts into rectangular arrays *)

Section ArrayLemmas.
Context {F : Type} `{Scalar F}.

Lemma norm_index_in n i : 0 ≤ i < Z.of_nat n → norm_index n i = Some (Z.to_nat i).
Proof. intros Hi. unfold norm_index. by rewrite decide_True. Qed.

Lemma getitem_in {A} (l : list A) i :
  0 ≤ i < Z.of_nat (length l) → getitem l i = l !! Z.to_nat i.
Proof. intros Hi. unfold getitem. by rewrite norm_index_in. Qed.

Lemma has_shape2_lookup (a : list (list F)) h w i r :
  has_shape2 a h w → a !! i = Some r → length r = w.
Proof.
  intros [_ Hall] Hr. rewrite Forall_lookup in Hall. by apply (Hall i).
Qed.

Lemma has_shape3_lookup (a : list (list (list F))) c h w i p :
  has_shape3 a c h w → a !! i = Some p → has_shape2 p h w.
Proof.
  intros [_ Hall] Hp. rewrite Forall_lookup in Hall. by apply (Hall i).
Qed.

Lemma getitem2_in (a : list (list F)) h w i j :
  has_shape2 a h w → 0 ≤ i < Z.of_nat h → 0 ≤ j < Z.of_nat w →
  ∃ r v, a !! Z.to_nat i = Some r ∧ r !! Z.to_nat j = Some v ∧
         getitem2 a i j = Some v.
Proof.
  intros Ha Hi Hj.
  destruct (lookup_lt_is_Some_2 a (Z.to_nat i)) as [r Hr]; [destruct Ha; lia|].
  pose proof (has_shape2_lookup _ _ _ _ _ Ha Hr) as Hlen.
  destruct (lookup_lt_is_Some_2 r (Z.to_nat j)) as [v Hv]; [lia|].
  exists r, v. split_and!; [done..|].
  unfold getitem2. rewrite getitem_in by (destruct Ha; lia).
  rewrite Hr. simpl. rewrite getitem_in by lia. done.
Qed.

Lemma getitem3_in (a : list (list (list F))) c h w k i j :
  has_shape3 a c h w →
  0 ≤ k < Z.of_nat c → 0 ≤ i < Z.of_nat h → 0 ≤ j < Z.of_nat w →
  ∃ p v, a !! Z.to_nat k = Some p ∧ has_shape2 p h w ∧
         getitem2 p i j = Some v ∧ getitem3 a k i j = Some v.
Proof.
  intros Ha Hk Hi Hj.
  destruct (lookup_lt_is_Some_2 a (Z.to_nat k)) as [p Hp]; [destruct Ha; lia|].
  pose proof (has_shape3_lookup _ _ _ _ _ _ Ha Hp) as Hp2.
  destruct (getitem2_in p h w i j) as (r & v & _ & _ & Hv); [done..|].
  exists p, v. split_and!; [done..|].
  unfold getitem3. rewrite getitem_in by (destruct Ha; lia).
  rewrite Hp. done.
Qed.

Lemma shape2_of (a : list (list F)) h w :
  has_shape2 a h w → (shape2 a).1 = Z.of_nat h ∧ (0 < h → (shape2 a).2 = Z.of_nat w)%nat.
Proof.
  intros [Hlen Hall]. unfold shape2. simpl. split; [by rewrite Hlen|].
  intros Hh. destruct a as [|r a]; simpl in *; [lia|].
  inversion Hall; subst. done.
Qed.

Lemma shape3_of (a : list (list (list F))) c h w :
  has_shape3 a c h w →
  (shape3 a).1.1 = Z.of_nat c ∧
  (0 < c → (shape3 a).1.2 = Z.of_nat h)%nat ∧
  (0 < c → 0 < h → (shape3 a).2 = Z.of_nat w)%nat.
Proof.
  intros [Hlen Hall]. unfold shape3. simpl. split_and!; [by rewrite Hlen|..].
  - intros Hc. destruct a as [|p a]; simpl in *; [lia|].
    inversion Hall as [|?? [Hp _] _]; subst. done.
  - intros Hc Hh. destruct a as [|p a]; simpl in *; [lia|].
    inversion Hall as [|?? Hp _]; subst.
    destruct (shape2_of _ _ _ Hp) as [_ Hw]. by apply Hw.
Qed.

(** Writing inside the array: the shape is kept, the written cell holds the
    value, the other cells are unchanged. *)
Lemma setitem3_in (a : list (list (list F))) c h w k i j v :
  has_shape3 a c h w →
  0 ≤ k < Z.of_nat c → 0 ≤ i < Z.of_nat h → 0 ≤ j < Z.of_nat w →
  ∃ a', setitem3 a k i j v = Some a' ∧ has_shape3 a' c h w ∧
        getitem3 a' k i j = Some v ∧
        ∀ k' i' j', (k', i', j') ≠ (k, i, j) →
          0 ≤ k' < Z.of_nat c → 0 ≤ i' < Z.of_nat h → 0 ≤ j' < Z.of_nat w →
          getitem3 a' k' i' j' = getitem3 a k' i' j'.
Proof.
  intros Ha Hk Hi Hj.
  destruct (lookup_lt_is_Some_2 a (Z.to_nat k)) as [p Hp]; [destruct Ha; lia|].
  pose proof (has_shape3_lookup _ _ _ _ _ _ Ha Hp) as Hp2.
  destruct (lookup_lt_is_Some_2 p (Z.to_nat i)) as [r Hr]; [destruct Hp2; lia|].
  pose proof (has_shape2_lookup _ _ _ _ _ Hp2 Hr) as Hlen.
  destruct Ha as [Hca Hall]. destruct Hp2 as [Hhp Hallp].
  eexists. split.
  { unfold setitem3. rewrite norm_index_in by lia. simpl. rewrite Hp. simpl.
    rewrite norm_index_in by lia. simpl. rewrite Hr. simpl.
    rewrite norm_index_in by lia. simpl. reflexivity. }
  assert (Hr' : length (<[Z.to_nat j := v]> r) = w) by by rewrite length_insert.
  assert (Hp' : has_shape2 (<[Z.to_nat i := <[Z.to_nat j := v]> r]> p) h w).
  { split; [by rewrite length_insert|]. by apply Forall_insert. }
  split_and!.
  - split; [by rewrite length_insert|]. by apply Forall_insert.
  - unfold getitem3, getitem2. rewrite !getitem_in by (rewrite length_insert; lia).
    rewrite list_lookup_insert_eq by lia. simpl.
    rewrite getitem_in by (rewrite length_insert; lia).
    rewrite list_lookup_insert_eq by lia. simpl.
    rewrite getitem_in by (rewrite length_insert; lia).
    by rewrite list_lookup_insert_eq by lia.
  - intros k' i' j' Hne Hk' Hi' Hj'.
    unfold getitem3. rewrite !getitem_in by (rewrite ?length_insert; lia).
    destruct (decide (Z.to_nat k = Z.to_nat k')) as [Hkk|Hkk];
      [|by rewrite list_lookup_insert_ne].
    rewrite <- Hkk. rewrite list_lookup_insert_eq by lia. rewrite Hp. simpl.
    unfold getitem2. rewrite !getitem_in by (rewrite ?length_insert; lia).
    destruct (decide (Z.to_nat i = Z.to_nat i')) as [Hii|Hii];
      [|by rewrite list_lookup_insert_ne].
    rewrite <- Hii. rewrite list_lookup_insert_eq by lia. rewrite Hr. simpl.
    rewrite !getitem_in by (rewrite ?length_insert; lia).
    rewrite list_lookup_insert_ne; [done|].
    intros Hjj. apply Hne. f_equal; [f_equal|]; lia.
Qed.

End ArrayLemmas.

(** ** A run of [convolve] on distinct, well-shaped arrays *)

Section ConvolveRun.
Context {F : Type} `{Scalar F}.

Lemma load3_run (s : state F) l a :
  heap s !! l = Some (Array3 a) → load3 l s = (Ok a, s).
Proof. intros Hl. unfold load3, load, bind. by rewrite Hl. Qed.

Lemma load2_run (s : state F) l a :
  heap s !! l = Some (Array2 a) → load2 l s = (Ok a, s).
Proof. intros Hl. unfold load2, load, bind. by rewrite Hl. Qed.

Lemma read2_run (s : state F) kernel ker i j :
  heap s !! kernel = Some (Array2 ker) → is_Some (getitem2 ker i j) →
  read2 kernel i j s = (Ok (at2 ker i j), s).
Proof.
  intros Hl [v Hv]. unfold read2. rewrite (bind_ok _ _ _ _ _ (load2_run _ _ _ Hl)).
  unfold at2. by rewrite Hv.
Qed.

Lemma read3_run (s : state F) image img c i j :
  heap s !! image = Some (Array3 img) → is_Some (getitem3 img c i j) →
  read3 image c i j s = (Ok (at3 img c i j), s).
Proof.
  intros Hl [v Hv]. unfold read3. rewrite (bind_ok _ _ _ _ _ (load3_run _ _ _ Hl)).
  unfold at3. by rewrite Hv.
Qed.

(** The pair of local variables is the pair of the two sums. *)
Lemma fold_pair (f g : Z → Z → F) (us vs : list Z) (a b : F) :
  fold_left (λ acc u,
     fold_left (λ '(value, total) v, (add value (f v u), add total (g v u))) vs acc)
     us (a, b)
  = (fold_left (λ acc u, fold_left (λ acc v, add acc (f v u)) vs acc) us a,
     fold_left (λ acc u, fold_left (λ acc v, add acc (g v u)) vs acc) us b).
Proof.
  revert a b. induction us as [|u us IH]; intros a b; simpl; [done|].
  assert (Hin : ∀ a b,
    fold_left (λ '(value, total) v, (add value (f v u), add total (g v u))) vs (a, b)
    = (fold_left (λ acc v, add acc (f v u)) vs a,
       fold_left (λ acc v, add acc (g v u)) vs b)).
  { clear. induction vs as [|v vs IHv]; intros a b; simpl; [done|]. apply IHv. }
  rewrite Hin. apply IH.
Qed.

Variables (image output kernel : loc).
Variables (img : list (list (list F))) (ker : list (list F)).
Variables (C Hh Ww kh kw : nat).
Hypothesis Himg : has_shape3 img C Hh Ww.
Hypothesis Hshape : shape3 img = (Z.of_nat C, Z.of_nat Hh, Z.of_nat Ww).
Hypothesis Hker : has_shape2 ker kh kw.
Hypothesis Hkshape : shape2 ker = (Z.of_nat kh, Z.of_nat kw).
Hypothesis Htaps_h : taps_ok (Z.of_nat kh) (Z.of_nat Hh).
Hypothesis Htaps_w : taps_ok (Z.of_nat kw) (Z.of_nat Ww).

Lemma accumulate_run (s : state F) c y x :
  heap s !! image = Some (Array3 img) →
  heap s !! kernel = Some (Array2 ker) →
  0 ≤ c < Z.of_nat C → 0 ≤ y < Z.of_nat Hh → 0 ≤ x < Z.of_nat Ww →
  accumulate image kernel (Z.of_nat kh `div` 2) (Z.of_nat kw `div` 2) c y x
    (x_min (Z.of_nat kw) x) (x_max (Z.of_nat Ww) (Z.of_nat kw) x)
    (y_min (Z.of_nat kh) y) (y_max (Z.of_nat Hh) (Z.of_nat kh) y) s
  = (Ok (window_value img ker c y x, window_total img ker y x), s).
Proof.
  intros Hi Hk Hc Hy Hx. unfold accumulate.
  set (hh := Z.of_nat kh `div` 2). set (hw := Z.of_nat kw `div` 2).
  set (g := λ (u : Z) '((value, total) : F * F) (v : Z),
         (add value (mul (at3 img c v u) (at2 ker (v - y + hh) (u - x + hw))),
          add total (at2 ker (v - y + hh) (u - x + hw)))).
  rewrite (foldM_pure _ (λ acc u, fold_left (g u)
             (range (y_min (Z.of_nat kh) y)
                    (y_max (Z.of_nat Hh) (Z.of_nat kh) y + 1)) acc)).
  - do 2 f_equal.
    unfold window_value, window_total, weighted_sum, weight_sum, sum_window.
    rewrite Hshape, Hkshape. simpl.
    apply (fold_pair
      (λ v u, mul (at3 img c v u) (at2 ker (v - y + hh) (u - x + hw)))
      (λ v u, at2 ker (v - y + hh) (u - x + hw))).
  - intros acc u Hu. apply (foldM_pure _ (g u)). intros [value total] v Hv.
    apply elem_of_range in Hu, Hv.
    unfold x_min, x_max in Hu. unfold y_min, y_max in Hv.
    unfold taps_ok in Htaps_h, Htaps_w. fold hh in Hv, Htaps_h. fold hw in Hu, Htaps_w.
    erewrite bind_ok; last first.
    { apply read2_run; [done|].
      destruct (getitem2_in ker kh kw (v - y + hh) (u - x + hw))
        as (? & ? & _ & _ & ->); [done|lia|lia|done]. }
    erewrite bind_ok; last first.
    { apply read3_run; [done|].
      destruct (getitem3_in img C Hh Ww c v u) as (? & ? & _ & _ & _ & ->);
        [done|lia|lia|lia|done]. }
    done.
Qed.

Variables (C' H' W' : nat).
Hypothesis Hle : (C ≤ C' ∧ Hh ≤ H' ∧ Ww ≤ W')%nat.
Hypothesis Hne : image ≠ output.
Hypothesis Hko : kernel ≠ output.
Hypothesis Hnz : ∀ y x, 0 ≤ y < Z.of_nat Hh → 0 ≤ x < Z.of_nat Ww →
  is_zero (window_total img ker y x) = false.

Lemma with_output_twice (s : state F) o o' :
  with_output output (with_output output s o) o' = with_output output s o'.
Proof. unfold with_output, set_heap. simpl. by rewrite insert_insert_eq. Qed.

Lemma with_output_id (s : state F) o :
  heap s !! output = Some (Array3 o) → with_output output s o = s.
Proof.
  intros Ho. destruct s. unfold with_output, set_heap. simpl in *.
  by rewrite insert_id.
Qed.

(** One iteration of the channel loop writes one cell of the output. *)
Lemma channel_run (s : state F) x y c o :
  heap s !! image = Some (Array3 img) →
  heap s !! kernel = Some (Array2 ker) →
  0 ≤ x < Z.of_nat Ww → 0 ≤ y < Z.of_nat Hh → 0 ≤ c < Z.of_nat C →
  has_shape3 o C' H' W' →
  (acc <- accumulate image kernel (Z.of_nat kh `div` 2) (Z.of_nat kw `div` 2) c y x
            (Z.max 0 (x - Z.of_nat kw `div` 2))
            (Z.min (Z.of_nat Ww - 1) (x + Z.of_nat kw `div` 2))
            (Z.max 0 (y - Z.of_nat kh `div` 2))
            (Z.min (Z.of_nat Hh - 1) (y + Z.of_nat kh `div` 2)) ;;
   let '(value, total) := acc in
   q <- truediv value total ;;
   write3 output c y x q) (with_output output s o)
  = (Ok tt, with_output output s (conv_step img ker o x y c))
  ∧ has_shape3 (conv_step img ker o x y c) C' H' W'.
Proof.
  intros Hi Hk Hx Hy Hc Ho.
  destruct (setitem3_in o C' H' W' c y x (conv_pixel img ker c y x))
    as (o' & Hset & Ho' & _); [done|lia..|].
  unfold conv_step. rewrite Hset. simpl. split; [|done].
  erewrite bind_ok; last first.
  { apply accumulate_run; [|by (simpl; rewrite lookup_insert_ne)|done..].
    simpl. by rewrite lookup_insert_ne. }
  simpl. unfold truediv. rewrite Hnz by done.
  erewrite bind_ok; last done.
  unfold write3. erewrite bind_ok; last first.
  { apply load3_run. simpl. apply lookup_insert_eq. }
  fold (conv_pixel img ker c y x). rewrite Hset.
  unfold store. by rewrite <- (with_output_twice s o o').
Qed.

Lemma convolve_run (s : state F) out :
  heap s !! image = Some (Array3 img) →
  heap s !! kernel = Some (Array2 ker) →
  heap s !! output = Some (Array3 out) →
  has_shape3 out C' H' W' →
  convolve image output kernel s
  = (Ok tt, with_output output (logged image output kernel s) (conv_result img ker out))
  ∧ has_shape3 (conv_result img ker out) C' H' W'.
Proof.
  intros Hi Hk Ho Hout. unfold convolve.
  erewrite bind_ok; last reflexivity.
  fold (logged image output kernel s). set (s1 := logged image output kernel s).
  erewrite bind_ok; last by apply load3_run.
  rewrite Hshape.
  erewrite bind_ok; last by apply load2_run.
  rewrite Hkshape.
  rewrite <- (with_output_id s1 out) at 1 by done.
  unfold conv_result. rewrite Hshape. simpl.
  apply (for_fold _ _ _ (with_output output s1) (λ o, has_shape3 o C' H' W'));
    [|done].
  intros x o Hx%elem_of_range Hinv.
  apply (for_fold _ _ _ (with_output output s1) (λ o, has_shape3 o C' H' W'));
    [|done].
  clear o Hinv. intros y o Hy%elem_of_range Hinv.
  apply (for_fold _ _ _ (with_output output s1) (λ o, has_shape3 o C' H' W'));
    [|done].
  clear o Hinv. intros c o Hc%elem_of_range Hinv.
  by apply channel_run.
Qed.

(** *** The cells of the result *)

Lemma conv_step_shape o x y c :
  0 ≤ x < Z.of_nat Ww → 0 ≤ y < Z.of_nat Hh → 0 ≤ c < Z.of_nat C →
  has_shape3 o C' H' W' → has_shape3 (conv_step img ker o x y c) C' H' W'.
Proof.
  intros Hx Hy Hc Ho.
  destruct (setitem3_in o C' H' W' c y x (conv_pixel img ker c y x))
    as (o' & Hset & Ho' & _); [done|lia..|].
  unfold conv_step. by rewrite Hset.
Qed.

Lemma conv_step_at o x y c :
  0 ≤ x < Z.of_nat Ww → 0 ≤ y < Z.of_nat Hh → 0 ≤ c < Z.of_nat C →
  has_shape3 o C' H' W' →
  getitem3 (conv_step img ker o x y c) c y x = Some (conv_pixel img ker c y x).
Proof.
  intros Hx Hy Hc Ho.
  destruct (setitem3_in o C' H' W' c y x (conv_pixel img ker c y x))
    as (o' & Hset & _ & Hget & _); [done|lia..|].
  unfold conv_step. by rewrite Hset.
Qed.

Lemma conv_step_other o x y c c0 y0 x0 :
  0 ≤ x < Z.of_nat Ww → 0 ≤ y < Z.of_nat Hh → 0 ≤ c < Z.of_nat C →
  0 ≤ c0 < Z.of_nat C' → 0 ≤ y0 < Z.of_nat H' → 0 ≤ x0 < Z.of_nat W' →
  (c0, y0, x0) ≠ (c, y, x) →
  has_shape3 o C' H' W' →
  getitem3 (conv_step img ker o x y c) c0 y0 x0 = getitem3 o c0 y0 x0.
Proof.
  intros Hx Hy Hc Hc0 Hy0 Hx0 Hneq Ho.
  destruct (setitem3_in o C' H' W' c y x (conv_pixel img ker c y x))
    as (o' & Hset & _ & _ & Hoth); [done|lia..|].
  unfold conv_step. rewrite Hset. simpl. by apply Hoth.
Qed.

(** A property [J] of arrays of the output's shape that every single write
    of the loops keeps is kept by the loops. *)
Lemma conv_result_inv (J : list (list (list F)) → Prop) out :
  (∀ o x y c, 0 ≤ x < Z.of_nat Ww → 0 ≤ y < Z.of_nat Hh → 0 ≤ c < Z.of_nat C →
     has_shape3 o C' H' W' → J o → J (conv_step img ker o x y c)) →
  has_shape3 out C' H' W' → J out →
  has_shape3 (conv_result img ker out) C' H' W' ∧ J (conv_result img ker out).
Proof.
  intros HJ Hout HJout. unfold conv_result. rewrite Hshape. simpl.
  apply (fold_left_inv _ (λ o, has_shape3 o C' H' W' ∧ J o)); [|done].
  intros o x Hx%elem_of_range Ho.
  apply (fold_left_inv _ (λ o, has_shape3 o C' H' W' ∧ J o)); [|done].
  clear o Ho. intros o y Hy%elem_of_range Ho.
  apply (fold_left_inv _ (λ o, has_shape3 o C' H' W' ∧ J o)); [|done].
  clear o Ho. intros o c Hc%elem_of_range [Ho HJo].
  split; [by apply conv_step_shape | by apply HJ].
Qed.

Lemma conv_result_shape out :
  has_shape3 out C' H' W' → has_shape3 (conv_result img ker out) C' H' W'.
Proof. intros Hout. by apply (conv_result_inv (λ _, True)). Qed.

(** Inside the image's shape every cell holds its pixel value. *)
Lemma conv_result_at out c y x :
  has_shape3 out C' H' W' →
  0 ≤ c < Z.of_nat C → 0 ≤ y < Z.of_nat Hh → 0 ≤ x < Z.of_nat Ww →
  getitem3 (conv_result img ker out) c y x = Some (conv_pixel img ker c y x).
Proof.
  intros Hout Hc Hy Hx.
  set (I := λ o : list (list (list F)), has_shape3 o C' H' W').
  set (J := λ o : list (list (list F)),
        has_shape3 o C' H' W' ∧ getitem3 o c y x = Some (conv_pixel img ker c y x)).
  assert (Hkeep : ∀ o x' y' c',
    0 ≤ x' < Z.of_nat Ww → 0 ≤ y' < Z.of_nat Hh → 0 ≤ c' < Z.of_nat C →
    J o → J (conv_step img ker o x' y' c')).
  { intros o x' y' c' Hx' Hy' Hc' [Ho Hget]. split; [by apply conv_step_shape|].
    destruct (decide ((c, y, x) = (c', y', x'))) as [[= <- <- <-]|Hneq].
    - by apply conv_step_at.
    - rewrite conv_step_other; [done..|lia|lia|lia|done|done]. }
  enough (J (conv_result img ker out)) as [_ ?] by done.
  unfold conv_result. rewrite Hshape. simpl.
  apply (fold_left_hit _ I J _ x); [apply elem_of_range; lia|..|done].
  - intros o x' Hx'%elem_of_range Ho.
    apply (fold_left_inv _ I); [|done]. clear o Ho.
    intros o y' Hy'%elem_of_range Ho.
    apply (fold_left_inv _ I); [|done]. clear o Ho.
    intros o c' Hc'%elem_of_range Ho. by apply conv_step_shape.
  - intros o x' Hx'%elem_of_range Ho.
    apply (fold_left_inv _ J); [|done]. clear o Ho.
    intros o y' Hy'%elem_of_range Ho.
    apply (fold_left_inv _ J); [|done]. clear o Ho.
    intros o c' Hc'%elem_of_range Ho. by apply Hkeep.
  - intros o Ho.
    apply (fold_left_hit _ I J _ y); [apply elem_of_range; lia|..|done].
    + clear o Ho. intros o y' Hy'%elem_of_range Ho.
      apply (fold_left_inv _ I); [|done]. clear o Ho.
      intros o c' Hc'%elem_of_range Ho. by apply conv_step_shape.
    + clear o Ho. intros o y' Hy'%elem_of_range Ho.
      apply (fold_left_inv _ J); [|done]. clear o Ho.
      intros o c' Hc'%elem_of_range Ho. by apply Hkeep.
    + clear o Ho. intros o Ho.
      apply (fold_left_hit _ I J _ c); [apply elem_of_range; lia|..|done].
      * clear o Ho. intros o c' Hc'%elem_of_range Ho. by apply conv_step_shape.
      * clear o Ho. intros o c' Hc'%elem_of_range Ho. by apply Hkeep.
      * clear o Ho. intros o Ho. split; [by apply conv_step_shape|].
        by apply conv_step_at.
Qed.

(** Outside the image's shape the output keeps its cells. *)
Lemma conv_result_outside out c y x :
  has_shape3 out C' H' W' →
  0 ≤ c < Z.of_nat C' → 0 ≤ y < Z.of_nat H' → 0 ≤ x < Z.of_nat W' →
  ¬ (c < Z.of_nat C ∧ y < Z.of_nat Hh ∧ x < Z.of_nat Ww) →
  getitem3 (conv_result img ker out) c y x = getitem3 out c y x.
Proof.
  intros Hout Hc Hy Hx Hnot.
  apply (conv_result_inv (λ o, getitem3 o c y x = getitem3 out c y x)); [|done..].
  intros o x' y' c' Hx' Hy' Hc' Ho <-.
  apply conv_step_other; [done..| |done].
  intros [= -> -> ->]. lia.
Qed.

End ConvolveRun.
(** ** The rationals and the reals are exact arithmetics *)

Lemma Qc_ExactArith_field :
  field_theory (zero : Qc) one add mul sub opp div inv eq.
Proof.
  apply mk_field.
  - apply Qcrt.
  - intros Heq. discriminate Heq.
  - intros p q. unfold inv. simpl. unfold Qcdiv. by rewrite Qcmult_1_l.
  - intros p Hp. unfold inv. simpl. unfold Qcdiv. rewrite Qcmult_1_l.
    by apply Qcmult_inv_l.
Qed.

Lemma Qc_of_Z_this n : (this (of_Z n : Qc) == inject_Z n)%Q.
Proof. simpl. apply Qred_correct. Qed.

#[export] Instance Qc_ExactArith : ExactArith Qc.
Proof.
  split.
  - apply Qc_ExactArith_field.
  - apply Qcle_refl.
  - apply Qcle_antisym.
  - apply Qcle_trans.
  - intros a b. destruct (Qclt_le_dec a b); [left; by apply Qclt_le_weak | by right].
  - intros a b c Hab. by apply Qcplus_le_mono_r.
  - apply Qcmult_nonneg_nonneg.
  - intros a. simpl. rewrite Qeq_bool_iff. split.
    + intros Ha. by apply Qc_is_canon.
    + intros ->. reflexivity.
  - reflexivity.
  - intros m n. apply Qc_is_canon. cbn [of_Z add Qc_Scalar]. unfold Qcplus.
    cbn [this Q2Qc]. rewrite !Qred_correct, inject_Z_plus. reflexivity.
  - intros m n. apply Qc_is_canon. cbn [of_Z mul Qc_Scalar]. unfold Qcmult.
    cbn [this Q2Qc]. rewrite !Qred_correct, inject_Z_mult. reflexivity.
  - intros m n. change (sle (of_Z m) (of_Z n)) with (this (of_Z m : Qc) <= this (of_Z n : Qc))%Q.
    rewrite !Qc_of_Z_this. by rewrite <- Zle_Qle.
  - intros a. split.
    + assert (Hlt : (this (of_Z (ceil a - 1) : Qc) < a)%Q).
      { rewrite Qc_of_Z_this. apply Qceiling_lt. }
      split.
      * apply Qlt_le_weak, Hlt.
      * intros Heq. rewrite Heq in Hlt. by apply Qlt_irrefl in Hlt.
    + change (a <= this (of_Z (ceil a) : Qc))%Q. rewrite Qc_of_Z_this. apply Qle_ceiling.
  - intros a Ha.
    assert (Hfl : trunc a = Qfloor a).
    { simpl. destruct a as [[n d] Hc]. simpl in *.
      apply Z.quot_div_nonneg; [|done].
      unfold Qcle, Qle in Ha. simpl in Ha. lia. }
    rewrite Hfl. split.
    + change (this (of_Z (Qfloor a) : Qc) <= a)%Q. rewrite Qc_of_Z_this. apply Qfloor_le.
    + assert (Hlt : (a < this (of_Z (Qfloor a + 1) : Qc))%Q).
      { rewrite Qc_of_Z_this. apply Qlt_floor. }
      split.
      * apply Qlt_le_weak, Hlt.
      * intros Heq. rewrite <- Heq in Hlt. by apply Qlt_irrefl in Hlt.
Qed.

#[export] Instance Qc_TruncOdd : TruncOdd Qc.
Proof.
  intros [[n d] Hc]. cbn [trunc opp Qc_Scalar]. unfold Qcopp, Q2Qc. cbn [this].
  rewrite Qred_opp, Hc. cbn [Qopp Qnum Qden]. apply Z.quot_opp_l. done.
Qed.

Lemma R_ExactArith_field :
  field_theory (zero : R) one add mul sub opp div inv eq.
Proof.
  apply mk_field.
  - apply RTheory.
  - simpl. lra.
  - intros p q. unfold inv. simpl. unfold Rdiv. by rewrite Rmult_1_l.
  - intros p Hp. unfold inv. simpl in *. unfold Rdiv. rewrite Rmult_1_l.
    by apply Rinv_l.
Qed.

#[export] Instance R_ExactArith : ExactArith R.
Proof.
  split.
  - apply R_ExactArith_field.
  - apply Rle_refl.
  - apply Rle_antisym.
  - apply Rle_trans.
  - intros a b. simpl. lra.
  - intros a b c. simpl. lra.
  - intros a b. simpl. apply Rmult_le_pos.
  - intros a. simpl. destruct (Req_dec_T a 0); split; congruence.
  - done.
  - apply plus_IZR.
  - apply mult_IZR.
  - intros m n. simpl. split; [apply le_IZR | apply IZR_le].
  - intros a. unfold slt. simpl.
    destruct (archimed (- a)) as [H1 H2].
    rewrite !minus_IZR. split; [split; [lra | intros Heq; lra] | lra].
  - intros a Ha. unfold slt. simpl in *.
    destruct (Rle_dec 0 a) as [_|Hn]; [|done].
    destruct (base_Int_part a) as [H1 H2].
    rewrite plus_IZR. split; [lra | split; [lra | intros Heq; lra]].
Qed.

#[export] Instance R_TruncOdd : TruncOdd R.
Proof.
  intros a. cbn [trunc opp R_Scalar].
  destruct (Rle_dec 0 (- a)) as [Hn|Hn]; destruct (Rle_dec 0 a) as [Hp|Hp].
  - assert (a = 0%R) as -> by lra. rewrite Ropp_0.
    assert (H0 : Int_part 0 = 0).
    { symmetry. apply Int_part_spec. simpl. lra. }
    rewrite H0. done.
  - lia.
  - rewrite Ropp_involutive. done.
  - lra.
Qed.

#[export] Instance R_ExpLaws : ExpLaws R.
Proof.
  split.
  - intros a. unfold slt, exp, R_Exponential. simpl.
    pose proof (Exp_prop.exp_pos a). split; [lra | intros Heq; lra].
  - intros a b Hab. unfold exp, R_Exponential. simpl in *.
    destruct Hab as [Hlt| ->]; [|lra].
    left. by apply exp_increasing.
  - intros a b. apply Exp_prop.exp_plus.
Qed.

(** ** [convolve] on arrays given by their shapes *)

Section ConvolveOk.
Context {F : Type} `{Scalar F}.

Lemma taps_ok_odd (k n : Z) : Z.odd k = true → taps_ok k n.
Proof.
  intros Hodd. unfold taps_ok.
  rewrite (Z.div_mod k 2) at 3 by lia. rewrite Zmod_odd, Hodd. lia.
Qed.

Lemma taps_ok_0 (k : Z) : 0 ≤ k → taps_ok k 0.
Proof.
  intros Hk. unfold taps_ok.
  assert (k `div` 2 ≤ k) by (apply Z.div_le_upper_bound; lia). lia.
Qed.

(** The shape [convolve] reads off a rectangular array. *)
Lemma has_shape3_read (img : list (list (list F))) C Hh Ww :
  has_shape3 img C Hh Ww →
  ∃ H0 W0, shape3 img = (Z.of_nat C, Z.of_nat H0, Z.of_nat W0) ∧
           has_shape3 img C H0 W0 ∧
           (H0 = Hh ∨ H0 = 0%nat) ∧ (W0 = Ww ∨ W0 = 0%nat) ∧
           (0 < C → H0 = Hh)%nat ∧ (0 < C → 0 < Hh → W0 = Ww)%nat ∧
           (0 < W0 → 0 < H0)%nat ∧ (0 < H0 → 0 < C)%nat.
Proof.
  intros Himg. pose proof (shape3_of _ _ _ _ Himg) as (Hc & Hh' & Hw').
  destruct (decide (C = 0%nat)) as [->|HC].
  { destruct Himg as [Hlen _]. apply length_zero_iff_nil in Hlen as ->.
    exists 0%nat, 0%nat. split_and!; try done; try (by right); lia. }
  destruct (decide (Hh = 0%nat)) as [->|HH].
  { exists 0%nat, 0%nat. split_and!; [|  |by left|by right|done|lia|lia|lia].
    - destruct Himg as [Hlen Hall]. destruct img as [|p img]; [simpl in Hlen; lia|].
      inversion Hall as [|?? [Hp _] _]; subst.
      apply length_zero_iff_nil in Hp as ->. done.
    - destruct Himg as [Hlen Hall]. split; [done|].
      eapply Forall_impl; [exact Hall|]. intros p [Hp _].
      apply length_zero_iff_nil in Hp as ->. split; [done|constructor]. }
  exists Hh, Ww. split_and!; [|done|by left|by left|done|done|lia|lia].
  destruct (shape3 img) as [[c0 h0] w0]. simpl in *.
  rewrite Hc, Hh', Hw' by lia. done.
Qed.

Lemma has_shape2_read (ker : list (list F)) kh kw :
  has_shape2 ker kh kw →
  ∃ w0, shape2 ker = (Z.of_nat kh, Z.of_nat w0) ∧ has_shape2 ker kh w0 ∧
        (w0 = kw ∨ (w0 = 0 ∧ kh = 0)%nat).
Proof.
  intros Hker. pose proof (shape2_of _ _ _ Hker) as (Hh' & Hw').
  destruct (decide (kh = 0%nat)) as [->|Hk].
  { destruct Hker as [Hlen _]. apply length_zero_iff_nil in Hlen as ->.
    exists 0%nat. split_and!; [done| |by right]. split; [done|constructor]. }
  exists kw. split_and!; [|done|by left].
  destruct (shape2 ker) as [h0 w0]. simpl in *.
  rewrite Hh', Hw' by lia. done.
Qed.

(** The general statement: the kernel may have any extents as long as the
    loops stay inside it, and the output may be larger than the image. *)
Lemma convolve_ok (s : state F) image output kernel img out ker
    (C Hh Ww C' H' W' kh kw : nat) :
  heap s !! image = Some (Array3 img) →
  heap s !! output = Some (Array3 out) →
  heap s !! kernel = Some (Array2 ker) →
  image ≠ output →
  has_shape3 img C Hh Ww → has_shape3 out C' H' W' →
  (C ≤ C' ∧ Hh ≤ H' ∧ Ww ≤ W')%nat →
  has_shape2 ker kh kw →
  taps_ok (Z.of_nat kh) (Z.of_nat Hh) → taps_ok (Z.of_nat kw) (Z.of_nat Ww) →
  (∀ y x, (0 < C)%nat → 0 ≤ y < Z.of_nat Hh → 0 ≤ x < Z.of_nat Ww →
     is_zero (weight_sum ker (Z.of_nat Hh) (Z.of_nat Ww) (Z.of_nat kh) (Z.of_nat kw) y x)
     = false) →
  ∃ out',
    convolve image output kernel s
    = (Ok tt, with_output output (logged image output kernel s) out') ∧
    has_shape3 out' C' H' W' ∧
    (∀ c y x, 0 ≤ c < Z.of_nat C → 0 ≤ y < Z.of_nat Hh → 0 ≤ x < Z.of_nat Ww →
       getitem3 out' c y x
       = Some (div (weighted_sum img ker (Z.of_nat Hh) (Z.of_nat Ww)
                      (Z.of_nat kh) (Z.of_nat kw) c y x)
                   (weight_sum ker (Z.of_nat Hh) (Z.of_nat Ww)
                      (Z.of_nat kh) (Z.of_nat kw) y x))) ∧
    (∀ c y x, 0 ≤ c < Z.of_nat C' → 0 ≤ y < Z.of_nat H' → 0 ≤ x < Z.of_nat W' →
       ¬ (c < Z.of_nat C ∧ y < Z.of_nat Hh ∧ x < Z.of_nat Ww) →
       getitem3 out' c y x = getitem3 out c y x).
Proof.
  intros Hi Ho Hk Hne Himg Hout Hle Hker Hth Htw Hnz.
  destruct (has_shape3_read _ _ _ _ Himg)
    as (H0 & W0 & Hshape & Himg0 & HH0 & HW0 & HH0' & HW0' & HWH & HHC).
  destruct (has_shape2_read _ _ _ Hker) as (w0 & Hkshape & Hker0 & Hw0).
  assert (Hko : kernel ≠ output) by (intros ->; congruence).
  assert (Hth0 : taps_ok (Z.of_nat kh) (Z.of_nat H0)).
  { destruct HH0 as [->| ->]; [done|]. apply taps_ok_0. lia. }
  assert (Htw0 : taps_ok (Z.of_nat w0) (Z.of_nat W0)).
  { destruct HW0 as [->| ->]; [|apply taps_ok_0; lia].
    destruct Hw0 as [->|[-> ->]]; [done|].
    unfold taps_ok in *. change (Z.of_nat 0 `div` 2) with 0 in *. lia. }
  assert (Hle0 : (C ≤ C' ∧ H0 ≤ H' ∧ W0 ≤ W')%nat) by lia.
  (* where there is a position, the shapes read are the shapes given *)
  assert (Hsame : (0 < C → 0 < Hh → H0 = Hh ∧ W0 = Ww ∧ w0 = kw)%nat).
  { intros HC HH. split_and!; [by apply HH0'|by apply HW0'|].
    destruct Hw0 as [->|[_ ->]]; [done|].
    unfold taps_ok in Hth. change (Z.of_nat 0 `div` 2) with 0 in Hth. lia. }
  assert (Hpix : ∀ c y x, (0 < C)%nat → (0 < Hh)%nat →
    window_total img ker y x
    = weight_sum ker (Z.of_nat Hh) (Z.of_nat Ww) (Z.of_nat kh) (Z.of_nat kw) y x ∧
    window_value img ker c y x
    = weighted_sum img ker (Z.of_nat Hh) (Z.of_nat Ww) (Z.of_nat kh) (Z.of_nat kw) c y x).
  { intros c y x HC HH. destruct (Hsame HC HH) as (? & ? & ?); subst.
    unfold window_total, window_value. by rewrite Hshape, Hkshape. }
  assert (Hnz0 : ∀ y x, 0 ≤ y < Z.of_nat H0 → 0 ≤ x < Z.of_nat W0 →
            is_zero (window_total img ker y x) = false).
  { intros y x Hy Hx.
    assert (0 < C ∧ 0 < Hh)%nat as [HC HH] by lia.
    destruct (Hpix 0 y x HC HH) as [-> _]. apply Hnz; lia. }
  exists (conv_result img ker out).
  destruct (convolve_run image output kernel img ker C H0 W0 kh w0
              Himg0 Hshape Hker0 Hkshape Hth0 Htw0 C' H' W' Hle0 Hne Hko Hnz0 s out)
    as [Hrun Hres]; [done..|].
  split_and!; [done|done|..].
  - intros c y x Hc Hy Hx.
    assert (0 < C ∧ 0 < Hh)%nat as [HC HH] by lia.
    destruct (Hpix c y x HC HH) as [<- <-].
    destruct (Hsame HC HH) as (? & ? & ?); subst.
    by eapply conv_result_at.
  - intros c y x Hc Hy Hx Hnot.
    eapply conv_result_outside; [done..|]. lia.
Qed.

End ConvolveOk.

(** ** The value of every output cell *)

Section ConvolveFormula.
Context {F : Type} `{Scalar F}.

(** C1, amended: on an image of shape (C,H,W), a distinct output buffer of
    the same shape and a kernel of odd extents kH x kW whose sums over the
    clamped windows are not zero (as the code tests it, so in floating point
    too), [convolve] returns normally and leaves in [output[c,y,x]], for every
    channel and position, the sum over u in [x_min,x_max] and v in
    [y_min,y_max] of [input[c,v,u] * kernel[v-y+kHalfH, u-x+kHalfW]] divided
    by the sum of the same kernel weights, with the bounds clamped as in the
    claim and kHalfW = kW/2, kHalfH = kH/2. *)
Theorem convolve_window_average (s : state F) image output kernel img out ker
    (C Hh Ww kH kW : nat) :
  heap s !! image = Some (Array3 img) →
  heap s !! output = Some (Array3 out) →
  heap s !! kernel = Some (Array2 ker) →
  image ≠ output →
  has_shape3 img C Hh Ww → has_shape3 out C Hh Ww → has_shape2 ker kH kW →
  Z.odd (Z.of_nat kH) = true → Z.odd (Z.of_nat kW) = true →
  (∀ y x, 0 ≤ y < Z.of_nat Hh → 0 ≤ x < Z.of_nat Ww →
     is_zero (weight_sum ker (Z.of_nat Hh) (Z.of_nat Ww) (Z.of_nat kH) (Z.of_nat kW) y x)
     = false) →
  ∃ out',
    convolve image output kernel s
    = (Ok tt, with_output output (logged image output kernel s) out') ∧
    has_shape3 out' C Hh Ww ∧
    ∀ c y x, 0 ≤ c < Z.of_nat C → 0 ≤ y < Z.of_nat Hh → 0 ≤ x < Z.of_nat Ww →
      let kHalfW := Z.of_nat kW `div` 2 in
      let kHalfH := Z.of_nat kH `div` 2 in
      let xmin := Z.max 0 (x - kHalfW) in
      let xmax := Z.min (Z.of_nat Ww - 1) (x + kHalfW) in
      let ymin := Z.max 0 (y - kHalfH) in
      let ymax := Z.min (Z.of_nat Hh - 1) (y + kHalfH) in
      getitem3 out' c y x
      = Some (div
          (sum_window (λ v u, mul (at3 img c v u)
                                  (at2 ker (v - y + kHalfH) (u - x + kHalfW)))
             (range xmin (xmax + 1)) (range ymin (ymax + 1)))
          (sum_window (λ v u, at2 ker (v - y + kHalfH) (u - x + kHalfW))
             (range xmin (xmax + 1)) (range ymin (ymax + 1)))).
Proof.
  intros Hi Ho Hk Hne Himg Hout Hker HkH HkW Hnz.
  destruct (convolve_ok s image output kernel img out ker C Hh Ww C Hh Ww kH kW)
    as (out' & Hrun & Hshape & Hat & _); try done.
  - by apply taps_ok_odd.
  - by apply taps_ok_odd.
  - intros y x _. apply Hnz.
  - exists out'. split_and!; [done..|].
    intros c y x Hc Hy Hx. simpl. by apply Hat.
Qed.

End ConvolveFormula.

Lemma convolve_window_average_witness :
  ∃ out',
    convolve 1%positive 2%positive 3%positive (three_arrays impulse blank33 box3)
    = (Ok tt, with_output 2%positive
                (logged 1%positive 2%positive 3%positive
                   (three_arrays impulse blank33 box3)) out') ∧
    has_shape3 out' 1 3 3 ∧
    ∀ c y x, 0 ≤ c < 1 → 0 ≤ y < 3 → 0 ≤ x < 3 →
      getitem3 out' c y x
      = Some (div
          (sum_window (λ v u, mul (at3 impulse c v u) (at2 box3 (v - y + 1) (u - x + 1)))
             (range (Z.max 0 (x - 1)) (Z.min 2 (x + 1) + 1))
             (range (Z.max 0 (y - 1)) (Z.min 2 (y + 1) + 1)))
          (sum_window (λ v u, at2 box3 (v - y + 1) (u - x + 1))
             (range (Z.max 0 (x - 1)) (Z.min 2 (x + 1) + 1))
             (range (Z.max 0 (y - 1)) (Z.min 2 (y + 1) + 1)))).
Proof.
  apply (convolve_window_average (three_arrays impulse blank33 box3)
           1%positive 2%positive 3%positive impulse blank33 box3 1 3 3 3 3).
  - reflexivity.
  - reflexivity.
  - reflexivity.
  - discriminate.
  - repeat constructor.
  - repeat constructor.
  - repeat constructor.
  - reflexivity.
  - reflexivity.
  - intros y x Hy Hx.
    assert (Hy' : y = 0 ∨ y = 1 ∨ y = 2) by lia.
    assert (Hx' : x = 0 ∨ x = 1 ∨ x = 2) by lia.
    destruct Hy' as [->|[->| ->]]; destruct Hx' as [->|[->| ->]]; vm_compute; reflexivity.
Defined.

(** C1 as stated fails: the kernel [alternating3] has odd extents and the
    output buffer is not the image, but at the first position of the image
    [ones12] the two weights inside the image cancel: the divisor is zero,
    [convolve] raises [ZeroDivisionError] and the output buffer is left as
    it was, so no pixel holds the weighted average. *)
Lemma convolve_window_average_counterexample :
  let s := three_arrays ones12 sevens12 alternating3 in
  has_shape2 alternating3 1 3 ∧ Z.odd 1 = true ∧ Z.odd 3 = true ∧
  (1 ≠ 2)%positive ∧
  this (weight_sum alternating3 1 2 1 3 0 0) = (0 # 1)%Q ∧
  convolve 1%positive 2%positive 3%positive s
  = (Raise ZeroDivisionError, logged 1%positive 2%positive 3%positive s) ∧
  array3_at (convolve 1%positive 2%positive 3%positive s).2 2%positive = sevens12.
Proof.
  split_and!.
  - repeat constructor.
  - reflexivity.
  - reflexivity.
  - discriminate.
  - vm_compute. reflexivity.
  - vm_compute. reflexivity.
  - vm_compute. reflexivity.
Qed.

(** ** Consequences of the laws of exact arithmetic *)

Section ExactLemmas.
Context {F : Type} `{ExactArith F}.

Add Field scalar_field_tac : scalar_field.

Lemma sle_sub (a b : F) : sle a b ↔ sle zero (sub b a).
Proof.
  split; intros Hab.
  - replace zero with (add a (opp a)) by ring.
    replace (sub b a) with (add b (opp a)) by ring. by apply add_sle_mono.
  - replace a with (add zero a) by ring.
    replace b with (add (sub b a) a) by ring. by apply add_sle_mono.
Qed.

Lemma add_nonneg (a b : F) : sle zero a → sle zero b → sle zero (add a b).
Proof.
  intros Ha Hb. apply sle_trans with a; [done|].
  replace a with (add zero a) at 1 by ring.
  replace (add a b) with (add b a) by ring. by apply add_sle_mono.
Qed.

Lemma add_sle_compat (a b c d : F) :
  sle a b → sle c d → sle (add a c) (add b d).
Proof.
  intros Hab Hcd. apply sle_sub.
  replace (sub (add b d) (add a c)) with (add (sub b a) (sub d c)) by ring.
  apply add_nonneg; [by apply sle_sub in Hab | by apply sle_sub in Hcd].
Qed.

Lemma mul_sle_mono_r (a b w : F) : sle zero w → sle a b → sle (mul a w) (mul b w).
Proof.
  intros Hw Hab. apply sle_sub.
  replace (sub (mul b w) (mul a w)) with (mul (sub b a) w) by ring.
  apply mul_nonneg; [by apply sle_sub in Hab|done].
Qed.

Lemma one_neq_zero : (one : F) ≠ zero.
Proof. apply (F_1_neq_0 scalar_field). Qed.

Lemma sle_0_1 : sle (zero : F) one.
Proof.
  destruct (sle_total (zero : F) one) as [|H10]; [done|].
  replace one with (mul (opp one) (opp one)) by ring.
  assert (sle zero (opp one)).
  { apply sle_sub in H10. by replace (sub zero one) with (opp one) in H10 by ring. }
  by apply mul_nonneg.
Qed.

Lemma inv_nonneg (t : F) : slt zero t → sle zero (inv t).
Proof.
  intros [Ht Hne].
  destruct (sle_total zero (inv t)) as [|Hneg]; [done|].
  exfalso. apply one_neq_zero. apply sle_antisym; [|apply sle_0_1].
  apply sle_sub. replace (sub zero one) with (mul t (opp (inv t))).
  - apply mul_nonneg; [done|]. apply sle_sub in Hneg.
    by replace (sub zero (inv t)) with (opp (inv t)) in Hneg by ring.
  - unfold inv. field. congruence.
Qed.

(** A quotient by a positive divisor lies between the bounds of the
    numerator, scaled. *)
Lemma div_between (m M v t : F) :
  slt zero t → sle (mul m t) v → sle v (mul M t) →
  sle m (div v t) ∧ sle (div v t) M.
Proof.
  intros Ht Hlo Hhi. pose proof (inv_nonneg t Ht) as Hinv.
  assert (Hne : t ≠ zero) by (destruct Ht; congruence).
  split.
  - replace m with (mul (mul m t) (inv t)) by (unfold inv; field; done).
    replace (div v t) with (mul v (inv t)) by (unfold inv; field; done).
    by apply mul_sle_mono_r.
  - replace M with (mul (mul M t) (inv t)) by (unfold inv; field; done).
    replace (div v t) with (mul v (inv t)) by (unfold inv; field; done).
    by apply mul_sle_mono_r.
Qed.

Lemma slt_sle_trans (a b c : F) : slt a b → sle b c → slt a c.
Proof.
  intros [Hab Hne] Hbc. split; [by eapply sle_trans|].
  intros ->. apply Hne. by apply sle_antisym.
Qed.

Lemma sle_slt_trans (a b c : F) : sle a b → slt b c → slt a c.
Proof.
  intros Hab [Hbc Hne]. split; [by eapply sle_trans|].
  intros ->. apply Hne. by apply sle_antisym.
Qed.

Lemma is_zero_false (a : F) : is_zero a = false ↔ a ≠ zero.
Proof.
  rewrite <- is_zero_spec. destruct (is_zero a); split; congruence.
Qed.

(** *** Sums *)

Lemma fold_add_acc (l : list F) (a : F) :
  fold_left add l a = add a (sum1 l).
Proof.
  unfold sum1. revert a. induction l as [|b l IH]; intros a; simpl.
  - ring.
  - rewrite IH, (IH (add zero b)). ring.
Qed.

Lemma sum1_cons (a : F) (l : list F) : sum1 (a :: l) = add a (sum1 l).
Proof. unfold sum1 at 1. simpl. rewrite fold_add_acc. ring. Qed.

Lemma sum1_app (l l' : list F) : sum1 (l ++ l') = add (sum1 l) (sum1 l').
Proof.
  induction l as [|a l IH]; simpl.
  - unfold sum1 at 2. simpl. ring.
  - rewrite !sum1_cons, IH. ring.
Qed.

(** The window sum is the sum of the terms over the pairs [(u, v)]. *)
Lemma sum_window_flat (f : Z → Z → F) (us vs : list Z) :
  sum_window f us vs = sum1 (map (λ p, f p.2 p.1) (list_prod us vs)).
Proof.
  unfold sum_window.
  assert (Hin : ∀ u a,
    fold_left (λ acc v, add acc (f v u)) vs a = add a (sum1 (map (λ v, f v u) vs))).
  { intros u. induction vs as [|v vs IH]; intros a; simpl.
    - unfold sum1. simpl. ring.
    - rewrite IH, sum1_cons. ring. }
  enough (Hgen : ∀ a,
    fold_left (λ acc u, fold_left (λ acc v, add acc (f v u)) vs acc) us a
    = add a (sum1 (map (λ p, f p.2 p.1) (list_prod us vs)))).
  { rewrite Hgen. ring. }
  induction us as [|u us IH]; intros a; simpl.
  - unfold sum1. simpl. ring.
  - rewrite IH, Hin, map_app, sum1_app, map_map. simpl. ring.
Qed.

Lemma sum1_map_ext {A} (f g : A → F) (ps : list A) :
  (∀ p, In p ps → f p = g p) → sum1 (map f ps) = sum1 (map g ps).
Proof. intros Hfg. f_equal. by apply map_ext_in. Qed.

Lemma sum1_map_scale {A} (k : F) (g : A → F) (ps : list A) :
  sum1 (map (λ p, mul k (g p)) ps) = mul k (sum1 (map g ps)).
Proof.
  induction ps as [|p ps IH]; simpl.
  - unfold sum1. simpl. ring.
  - rewrite !sum1_cons, IH. ring.
Qed.

Lemma sum1_map_nonneg {A} (g : A → F) (ps : list A) :
  (∀ p, In p ps → sle zero (g p)) → sle zero (sum1 (map g ps)).
Proof.
  induction ps as [|p ps IH]; intros Hg; simpl.
  - unfold sum1. simpl. apply sle_refl.
  - rewrite sum1_cons. apply add_nonneg; [apply Hg; by left|].
    apply IH. intros p' Hp'. apply Hg. by right.
Qed.

(** A sum of non-negative terms is at least each of its terms. *)
Lemma sum1_map_ge {A} (g : A → F) (ps : list A) (p0 : A) :
  (∀ p, In p ps → sle zero (g p)) → In p0 ps → sle (g p0) (sum1 (map g ps)).
Proof.
  induction ps as [|p ps IH]; intros Hg Hin; simpl; [done|].
  rewrite sum1_cons. destruct Hin as [->|Hin].
  - replace (g p0) with (add (g p0) zero) at 1 by ring.
    apply add_sle_compat; [apply sle_refl|].
    apply sum1_map_nonneg. intros p' Hp'. apply Hg. by right.
  - replace (g p0) with (add zero (g p0)) by ring.
    apply add_sle_compat; [apply Hg; by left|].
    apply IH; [|done]. intros p' Hp'. apply Hg. by right.
Qed.

(** A weighted sum with non-negative weights lies between the bounds of
    its values, scaled by the sum of the weights. *)
Lemma sum1_map_between {A} (m M : F) (f w : A → F) (ps : list A) :
  (∀ p, In p ps → sle zero (w p) ∧ sle m (f p) ∧ sle (f p) M) →
  sle (mul m (sum1 (map w ps))) (sum1 (map (λ p, mul (f p) (w p)) ps)) ∧
  sle (sum1 (map (λ p, mul (f p) (w p)) ps)) (mul M (sum1 (map w ps))).
Proof.
  induction ps as [|p ps IH]; intros Hall; simpl.
  - unfold sum1. simpl. replace (mul m zero) with (zero : F) by ring.
    replace (mul M zero) with (zero : F) by ring. split; apply sle_refl.
  - destruct (Hall p) as (Hw & Hlo & Hhi); [by left|].
    destruct IH as [IHlo IHhi]; [intros p' Hp'; apply Hall; by right|].
    rewrite !sum1_cons. split.
    + replace (mul m (add (w p) (sum1 (map w ps))))
        with (add (mul m (w p)) (mul m (sum1 (map w ps)))) by ring.
      apply add_sle_compat; [by apply mul_sle_mono_r|done].
    + replace (mul M (add (w p) (sum1 (map w ps))))
        with (add (mul M (w p)) (mul M (sum1 (map w ps)))) by ring.
      apply add_sle_compat; [by apply mul_sle_mono_r|done].
Qed.

End ExactLemmas.

(** ** Windows *)

Section Windows.

Lemma half_bounds (k : Z) : Z.odd k = true → 0 ≤ k → 0 ≤ k `div` 2 ∧ 2 * (k `div` 2) = k - 1.
Proof.
  intros Hodd Hk. pose proof (Z.div_mod k 2 ltac:(lia)) as Hdm.
  rewrite Zmod_odd, Hodd in Hdm. split; [apply Z.div_pos; lia|lia].
Qed.

(** The pairs of a window are positions of the image, at most half a kernel
    away from the centre of the window. *)
Lemma window_pairs (Hh Ww kh kw y x u v : Z) :
  In (u, v) (list_prod (range (x_min kw x) (x_max Ww kw x + 1))
                       (range (y_min kh y) (y_max Hh kh y + 1))) →
  0 ≤ u < Ww ∧ 0 ≤ v < Hh ∧
  - (kw `div` 2) ≤ u - x ≤ kw `div` 2 ∧ - (kh `div` 2) ≤ v - y ≤ kh `div` 2.
Proof.
  rewrite in_prod_iff, <- !list_elem_of_In, !elem_of_range.
  unfold x_min, x_max, y_min, y_max. lia.
Qed.

Lemma window_centre (Hh Ww kh kw y x : Z) :
  0 ≤ kh `div` 2 → 0 ≤ kw `div` 2 → 0 ≤ y < Hh → 0 ≤ x < Ww →
  In (x, y) (list_prod (range (x_min kw x) (x_max Ww kw x + 1))
                       (range (y_min kh y) (y_max Hh kh y + 1))).
Proof.
  intros Hkh Hkw Hy Hx.
  rewrite in_prod_iff, <- !list_elem_of_In, !elem_of_range.
  unfold x_min, x_max, y_min, y_max. lia.
Qed.

End Windows.

(** ** Weighted averages *)

Section Averages.
Context {F : Type} `{ExactArith F}.

Add Field scalar_field_avg : scalar_field.

(** Non-negative weights with a positive centre tap: every window sum is
    positive, since the centre of the window is a position of the image. *)
Lemma weight_sum_pos (ker : list (list F)) (Hh Ww kH kW : nat) (y x : Z) :
  Z.odd (Z.of_nat kH) = true → Z.odd (Z.of_nat kW) = true →
  (∀ i j, 0 ≤ i < Z.of_nat kH → 0 ≤ j < Z.of_nat kW → sle zero (at2 ker i j)) →
  slt zero (at2 ker (Z.of_nat kH `div` 2) (Z.of_nat kW `div` 2)) →
  0 ≤ y < Z.of_nat Hh → 0 ≤ x < Z.of_nat Ww →
  slt zero (weight_sum ker (Z.of_nat Hh) (Z.of_nat Ww) (Z.of_nat kH) (Z.of_nat kW) y x).
Proof.
  intros HkH HkW Hnn Hcentre Hy Hx.
  destruct (half_bounds _ HkH) as [HhH HhH2]; [lia|].
  destruct (half_bounds _ HkW) as [HhW HhW2]; [lia|].
  unfold weight_sum. rewrite sum_window_flat.
  eapply slt_sle_trans; [exact Hcentre|].
  set (g := λ p : Z * Z, at2 ker (p.2 - y + Z.of_nat kH `div` 2)
                                 (p.1 - x + Z.of_nat kW `div` 2)).
  replace (at2 ker (Z.of_nat kH `div` 2) (Z.of_nat kW `div` 2)) with (g (x, y))
    by (unfold g; simpl; f_equal; lia).
  apply (sum1_map_ge g).
  - intros [u v] Hin. apply window_pairs in Hin. unfold g. simpl. apply Hnn; lia.
  - by apply window_centre.
Qed.

(** C3, amended: in exact arithmetic, with a kernel of odd extents,
    non-negative weights and a positive centre tap, [convolve] returns
    normally and every value it writes lies between any lower bound [m] and
    upper bound [M] of the input values, in particular between their
    minimum and maximum. *)
Theorem convolve_within_input_range (s : state F) image output kernel img out ker
    (C Hh Ww kH kW : nat) (m M : F) :
  heap s !! image = Some (Array3 img) →
  heap s !! output = Some (Array3 out) →
  heap s !! kernel = Some (Array2 ker) →
  image ≠ output →
  has_shape3 img C Hh Ww → has_shape3 out C Hh Ww → has_shape2 ker kH kW →
  Z.odd (Z.of_nat kH) = true → Z.odd (Z.of_nat kW) = true →
  (∀ i j, 0 ≤ i < Z.of_nat kH → 0 ≤ j < Z.of_nat kW → sle zero (at2 ker i j)) →
  slt zero (at2 ker (Z.of_nat kH `div` 2) (Z.of_nat kW `div` 2)) →
  (∀ c y x, 0 ≤ c < Z.of_nat C → 0 ≤ y < Z.of_nat Hh → 0 ≤ x < Z.of_nat Ww →
     sle m (at3 img c y x) ∧ sle (at3 img c y x) M) →
  ∃ out',
    convolve image output kernel s
    = (Ok tt, with_output output (logged image output kernel s) out') ∧
    ∀ c y x, 0 ≤ c < Z.of_nat C → 0 ≤ y < Z.of_nat Hh → 0 ≤ x < Z.of_nat Ww →
      ∃ v, getitem3 out' c y x = Some v ∧ sle m v ∧ sle v M.
Proof.
  intros Hi Ho Hk Hne Himg Hout Hker HkH HkW Hnn Hcentre Hb.
  destruct (half_bounds _ HkH) as [HhH HhH2]; [lia|].
  destruct (half_bounds _ HkW) as [HhW HhW2]; [lia|].
  destruct (convolve_ok s image output kernel img out ker C Hh Ww C Hh Ww kH kW)
    as (out' & Hrun & Hshape & Hat & _); try done.
  - by apply taps_ok_odd.
  - by apply taps_ok_odd.
  - intros y x _ Hy Hx. apply is_zero_false.
    destruct (weight_sum_pos ker Hh Ww kH kW y x) as [_ Hpos]; try done.
  - exists out'. split; [done|]. intros c y x Hc Hy Hx.
    eexists. split; [by apply Hat|].
    apply div_between.
    + by apply weight_sum_pos.
    + unfold weight_sum, weighted_sum. rewrite !sum_window_flat.
      apply (sum1_map_between m M (λ p, at3 img c p.2 p.1)
               (λ p, at2 ker (p.2 - y + Z.of_nat kH `div` 2)
                             (p.1 - x + Z.of_nat kW `div` 2))).
      intros [u v] Hin. apply window_pairs in Hin. simpl.
      split; [apply Hnn; lia | apply Hb; lia].
    + unfold weight_sum, weighted_sum. rewrite !sum_window_flat.
      apply (sum1_map_between m M (λ p, at3 img c p.2 p.1)
               (λ p, at2 ker (p.2 - y + Z.of_nat kH `div` 2)
                             (p.1 - x + Z.of_nat kW `div` 2))).
      intros [u v] Hin. apply window_pairs in Hin. simpl.
      split; [apply Hnn; lia | apply Hb; lia].
Qed.

(** C4, amended: in exact arithmetic, on a constant image and a kernel of
    odd extents whose window sums are not zero, [convolve] returns normally
    and every cell of the output holds the constant, at the boundary as in
    the interior. *)
Theorem convolve_constant_image (s : state F) image output kernel img out ker
    (C Hh Ww kH kW : nat) (k : F) :
  heap s !! image = Some (Array3 img) →
  heap s !! output = Some (Array3 out) →
  heap s !! kernel = Some (Array2 ker) →
  image ≠ output →
  has_shape3 img C Hh Ww → has_shape3 out C Hh Ww → has_shape2 ker kH kW →
  Z.odd (Z.of_nat kH) = true → Z.odd (Z.of_nat kW) = true →
  (∀ y x, 0 ≤ y < Z.of_nat Hh → 0 ≤ x < Z.of_nat Ww →
     weight_sum ker (Z.of_nat Hh) (Z.of_nat Ww) (Z.of_nat kH) (Z.of_nat kW) y x ≠ zero) →
  (∀ c y x, 0 ≤ c < Z.of_nat C → 0 ≤ y < Z.of_nat Hh → 0 ≤ x < Z.of_nat Ww →
     getitem3 img c y x = Some k) →
  ∃ out',
    convolve image output kernel s
    = (Ok tt, with_output output (logged image output kernel s) out') ∧
    ∀ c y x, 0 ≤ c < Z.of_nat C → 0 ≤ y < Z.of_nat Hh → 0 ≤ x < Z.of_nat Ww →
      getitem3 out' c y x = Some k.
Proof.
  intros Hi Ho Hk Hne Himg Hout Hker HkH HkW Hnz Hconst.
  destruct (convolve_ok s image output kernel img out ker C Hh Ww C Hh Ww kH kW)
    as (out' & Hrun & Hshape & Hat & _); try done.
  - by apply taps_ok_odd.
  - by apply taps_ok_odd.
  - intros y x _ Hy Hx. apply is_zero_false. by apply Hnz.
  - exists out'. split; [done|]. intros c y x Hc Hy Hx.
    rewrite Hat by done. f_equal.
    specialize (Hnz y x Hy Hx).
    unfold weight_sum, weighted_sum in *. rewrite !sum_window_flat in *.
    rewrite (sum1_map_ext _
      (λ p, mul k (at2 ker (p.2 - y + Z.of_nat kH `div` 2)
                           (p.1 - x + Z.of_nat kW `div` 2)))).
    + rewrite sum1_map_scale. field. done.
    + intros [u v] Hin. apply window_pairs in Hin. simpl.
      unfold at3. rewrite Hconst by lia. done.
Qed.

End Averages.

(** ** Images of width 1 *)

Section SingleColumn.
Context {F : Type} `{ExactArith F}.

Add Field scalar_field_col : scalar_field.

Lemma range_single (a : Z) : range a (a + 1) = [a].
Proof.
  unfold range. replace (a + 1 - a) with 1 by lia. simpl. f_equal. lia.
Qed.

(** C5, amended: in exact arithmetic, on an image of width 1, with a kernel
    of odd extents whose centre tap is not zero, and with either a kernel of
    height 1 or an image of height 1, [convolve] returns normally and the
    output column equals the input column. *)
Theorem convolve_single_column (s : state F) image output kernel img out ker
    (C Hh kH kW : nat) :
  heap s !! image = Some (Array3 img) →
  heap s !! output = Some (Array3 out) →
  heap s !! kernel = Some (Array2 ker) →
  image ≠ output →
  has_shape3 img C Hh 1 → has_shape3 out C Hh 1 → has_shape2 ker kH kW →
  Z.odd (Z.of_nat kH) = true → Z.odd (Z.of_nat kW) = true →
  (kH = 1 ∨ Hh = 1)%nat →
  at2 ker (Z.of_nat kH `div` 2) (Z.of_nat kW `div` 2) ≠ zero →
  ∃ out',
    convolve image output kernel s
    = (Ok tt, with_output output (logged image output kernel s) out') ∧
    ∀ c y, 0 ≤ c < Z.of_nat C → 0 ≤ y < Z.of_nat Hh →
      getitem3 out' c y 0 = getitem3 img c y 0.
Proof.
  intros Hi Ho Hk Hne Himg Hout Hker HkH HkW Hone Hcentre.
  destruct (half_bounds _ HkH) as [HhH HhH2]; [lia|].
  destruct (half_bounds _ HkW) as [HhW HhW2]; [lia|].
  (* the window of every position is the position itself *)
  assert (Hwin : ∀ y, 0 ≤ y < Z.of_nat Hh →
    range (x_min (Z.of_nat kW) 0) (x_max (Z.of_nat 1) (Z.of_nat kW) 0 + 1) = [0] ∧
    range (y_min (Z.of_nat kH) y) (y_max (Z.of_nat Hh) (Z.of_nat kH) y + 1) = [y]).
  { intros y Hy. unfold x_min, x_max, y_min, y_max. split.
    - replace (Z.max 0 (0 - Z.of_nat kW `div` 2)) with 0 by lia.
      replace (Z.min (Z.of_nat 1 - 1) (0 + Z.of_nat kW `div` 2)) with 0 by lia.
      apply (range_single 0).
    - replace (Z.max 0 (y - Z.of_nat kH `div` 2)) with y by lia.
      replace (Z.min (Z.of_nat Hh - 1) (y + Z.of_nat kH `div` 2)) with y by lia.
      apply range_single. }
  assert (Htot : ∀ y, 0 ≤ y < Z.of_nat Hh →
    weight_sum ker (Z.of_nat Hh) (Z.of_nat 1) (Z.of_nat kH) (Z.of_nat kW) y 0
    = at2 ker (Z.of_nat kH `div` 2) (Z.of_nat kW `div` 2)).
  { intros y Hy. unfold weight_sum. destruct (Hwin y Hy) as [-> ->].
    unfold sum_window. simpl.
    replace (y - y + Z.of_nat kH `div` 2) with (Z.of_nat kH `div` 2) by lia.
    replace (0 - 0 + Z.of_nat kW `div` 2) with (Z.of_nat kW `div` 2) by lia.
    ring. }
  destruct (convolve_ok s image output kernel img out ker C Hh 1 C Hh 1 kH kW)
    as (out' & Hrun & Hshape & Hat & _); try done.
  - by apply taps_ok_odd.
  - by apply taps_ok_odd.
  - intros y x _ Hy Hx. assert (x = 0) as -> by lia.
    apply is_zero_false. by rewrite Htot.
  - exists out'. split; [done|]. intros c y Hc Hy.
    rewrite Hat by (try done; lia). rewrite Htot by done.
    destruct (getitem3_in img C Hh 1 c y 0) as (p & v & _ & _ & _ & Hv);
      [done|lia..|].
    rewrite Hv. f_equal.
    unfold weighted_sum. destruct (Hwin y Hy) as [-> ->].
    unfold sum_window, at3. simpl. rewrite Hv. simpl.
    replace (y - y + Z.of_nat kH `div` 2) with (Z.of_nat kH `div` 2) by lia.
    replace (0 - 0 + Z.of_nat kW `div` 2) with (Z.of_nat kW `div` 2) by lia.
    field. done.
Qed.

End SingleColumn.

(** ** The theorems at concrete inputs *)

(** Comparisons of concrete rationals. *)
Ltac qc_le := vm_compute; let Hc := fresh in intros Hc; discriminate Hc.
Ltac qc_neq :=
  let Heq := fresh in
  intros Heq; apply (f_equal this) in Heq; vm_compute in Heq; discriminate Heq.
Ltac below3 y :=
  let Hy := fresh in
  assert (Hy : y = 0 ∨ y = 1 ∨ y = 2) by lia; destruct Hy as [->|[->| ->]].
Ltac below2 y :=
  let Hy := fresh in
  assert (Hy : y = 0 ∨ y = 1) by lia; destruct Hy as [->| ->].

Lemma convolve_within_input_range_witness :
  ∃ out',
    convolve 1%positive 2%positive 3%positive (three_arrays impulse blank33 box3)
    = (Ok tt, with_output 2%positive
                (logged 1%positive 2%positive 3%positive
                   (three_arrays impulse blank33 box3)) out') ∧
    ∀ c y x, 0 ≤ c < 1 → 0 ≤ y < 3 → 0 ≤ x < 3 →
      ∃ v, getitem3 out' c y x = Some v ∧ sle (q 0 1) v ∧ sle v (q 1 1).
Proof.
  apply (convolve_within_input_range (three_arrays impulse blank33 box3)
           1%positive 2%positive 3%positive impulse blank33 box3 1 3 3 3 3
           (q 0 1) (q 1 1)).
  - reflexivity.
  - reflexivity.
  - reflexivity.
  - discriminate.
  - repeat constructor.
  - repeat constructor.
  - repeat constructor.
  - reflexivity.
  - reflexivity.
  - intros i j Hi Hj. below3 i; below3 j; qc_le.
  - split; [qc_le | qc_neq].
  - intros c y x Hc Hy Hx. assert (c = 0) as -> by lia.
    below3 y; below3 x; split; qc_le.
Defined.

Lemma convolve_constant_image_witness :
  ∃ out',
    convolve 1%positive 2%positive 3%positive (three_arrays grey33 blank33 box3)
    = (Ok tt, with_output 2%positive
                (logged 1%positive 2%positive 3%positive
                   (three_arrays grey33 blank33 box3)) out') ∧
    ∀ c y x, 0 ≤ c < 1 → 0 ≤ y < 3 → 0 ≤ x < 3 →
      getitem3 out' c y x = Some (q 1 2).
Proof.
  apply (convolve_constant_image (three_arrays grey33 blank33 box3)
           1%positive 2%positive 3%positive grey33 blank33 box3 1 3 3 3 3 (q 1 2)).
  - reflexivity.
  - reflexivity.
  - reflexivity.
  - discriminate.
  - repeat constructor.
  - repeat constructor.
  - repeat constructor.
  - reflexivity.
  - reflexivity.
  - intros y x Hy Hx. below3 y; below3 x; qc_neq.
  - intros c y x Hc Hy Hx. assert (c = 0) as -> by lia.
    below3 y; below3 x; reflexivity.
Defined.

(** C4 as stated fails: [alternating3] is a normalized kernel of odd
    extents, the image [ones12] is constant, and [convolve] raises
    [ZeroDivisionError] at the first position, where the two weights inside
    the image cancel; the output buffer does not hold the constant. *)
Lemma convolve_constant_image_counterexample :
  sum2 alternating3 = one ∧
  (∀ c y x, 0 ≤ c < 1 → 0 ≤ y < 1 → 0 ≤ x < 2 → getitem3 ones12 c y x = Some (q 1 1)) ∧
  (convolve 1%positive 2%positive 3%positive
     (three_arrays ones12 blank12 alternating3)).1 = Raise ZeroDivisionError ∧
  getitem3 (array3_at (convolve 1%positive 2%positive 3%positive
                         (three_arrays ones12 blank12 alternating3)).2 2%positive)
           0 0 0 ≠ Some (q 1 1).
Proof.
  split_and!.
  - apply Qc_is_canon. vm_compute. reflexivity.
  - intros c y x Hc Hy Hx. assert (c = 0) as -> by lia. assert (y = 0) as -> by lia.
    below2 x; reflexivity.
  - vm_compute. reflexivity.
  - intros Heq. apply (f_equal (fmap this)) in Heq. vm_compute in Heq.
    discriminate Heq.
Qed.

Lemma convolve_single_column_witness :
  ∃ out',
    convolve 1%positive 2%positive 3%positive (three_arrays column2 blank21 row3)
    = (Ok tt, with_output 2%positive
                (logged 1%positive 2%positive 3%positive
                   (three_arrays column2 blank21 row3)) out') ∧
    ∀ c y, 0 ≤ c < 1 → 0 ≤ y < 2 →
      getitem3 out' c y 0 = getitem3 column2 c y 0.
Proof.
  apply (convolve_single_column (three_arrays column2 blank21 row3)
           1%positive 2%positive 3%positive column2 blank21 row3 1 2 1 3).
  - reflexivity.
  - reflexivity.
  - reflexivity.
  - discriminate.
  - repeat constructor.
  - repeat constructor.
  - repeat constructor.
  - reflexivity.
  - reflexivity.
  - by left.
  - qc_neq.
Defined.

(** C5 as stated fails: on the column [0; 1] and the uniform 3 x 3 kernel
    two taps contribute to every output value, and both output values are
    1/2. *)
Lemma convolve_single_column_counterexample :
  has_shape3 column2 1 2 1 ∧
  (convolve 1%positive 2%positive 3%positive
     (three_arrays column2 blank21 box3)).1 = Ok tt ∧
  map3 this (array3_at (convolve 1%positive 2%positive 3%positive
                          (three_arrays column2 blank21 box3)).2 2%positive)
  = [[[1 # 2]; [1 # 2]]]%Q ∧
  map3 this column2 = [[[0 # 1]; [1 # 1]]]%Q ∧
  getitem3 (array3_at (convolve 1%positive 2%positive 3%positive
                         (three_arrays column2 blank21 box3)).2 2%positive) 0 0 0
  ≠ getitem3 column2 0 0 0.
Proof.
  split_and!.
  - repeat constructor.
  - vm_compute. reflexivity.
  - vm_compute. reflexivity.
  - vm_compute. reflexivity.
  - intros Heq. apply (f_equal (fmap this)) in Heq. vm_compute in Heq.
    discriminate Heq.
Qed.

(** ** Rounding *)

Section Binary32.
#[local] Existing Instance binary32.

(** C3 as stated fails on floating-point arrays.  Image, output buffer and
    kernel are float32 arrays, as [read_image], [main] and the generators
    make them.  The image is the single sample 29 as [read_image] decodes
    it, the binary32 number 15263977 / 2^27, and the kernel is the single
    weight 5, of odd extents and positive.  The product rounds to
    76319888 / 2^27 and its quotient by 5 to 15263978 / 2^27: the value
    written is above the only input value.

    On float32 arrays numba computes the product in binary32 and keeps
    [value] and [total] in binary64.  With a kernel of one weight nothing is
    accumulated: [value] is the binary32 product and [total] the weight, and
    their binary64 quotient rounded to binary32 by the store is their
    quotient rounded to binary32 at once, binary64 having more than twice
    the precision.  So on this input the run in binary32 is the run of the
    code. *)
Lemma convolve_within_input_range_counterexample :
  let s := three_arrays [[[sample29]]] [[[zero]]] [[five]] in
  div (of_Z 29) (of_Z 255) = sample29 ∧ of_Z 5 = five ∧
  has_shape2 [[five]] 1 1 ∧ slt zero five ∧
  mul sample29 five = S754_finite false 9539986 (-24) ∧
  convolve 1%positive 2%positive 3%positive s
  = (Ok tt, with_output 2%positive (logged 1%positive 2%positive 3%positive s)
              [[[above29]]]) ∧
  slt sample29 above29.
Proof.
  split_and!.
  - vm_compute. reflexivity.
  - vm_compute. reflexivity.
  - repeat constructor.
  - split; [vm_compute; reflexivity | discriminate].
  - vm_compute. reflexivity.
  - vm_compute. reflexivity.
  - split; [vm_compute; reflexivity | discriminate].
Qed.

End Binary32.

(** ** Integers inside an exact arithmetic *)

Section Integers.
Context {F : Type} `{ExactArith F}.

Add Field scalar_field_int : scalar_field.

Lemma of_Z_0 : of_Z 0 = (zero : F).
Proof.
  pose proof (of_Z_add 0 0) as Hadd. change (0 + 0) with 0 in Hadd.
  transitivity (sub (add (of_Z 0) (of_Z 0)) (of_Z 0 : F)); [ring|].
  rewrite <- Hadd. ring.
Qed.

Lemma of_Z_opp (n : Z) : of_Z (- n) = opp (of_Z n : F).
Proof.
  pose proof (of_Z_add n (- n)) as Hadd. rewrite Z.add_opp_diag_r, of_Z_0 in Hadd.
  transitivity (sub (add (of_Z n) (of_Z (- n))) (of_Z n : F)); [ring|].
  rewrite <- Hadd. ring.
Qed.

Lemma of_Z_sub (m n : Z) : of_Z (m - n) = sub (of_Z m) (of_Z n : F).
Proof. unfold Z.sub. rewrite of_Z_add, of_Z_opp. ring. Qed.

Lemma of_Z_inj (m n : Z) : (of_Z m : F) = of_Z n → m = n.
Proof.
  intros Heq.
  assert (m ≤ n) by (apply of_Z_sle; rewrite Heq; apply sle_refl).
  assert (n ≤ m) by (apply of_Z_sle; rewrite Heq; apply sle_refl).
  lia.
Qed.

Lemma of_Z_slt (m n : Z) : slt (of_Z m : F) (of_Z n) ↔ m < n.
Proof.
  unfold slt. rewrite of_Z_sle. split.
  - intros [Hle Hne]. destruct (decide (m = n)) as [->|]; [done|lia].
  - intros Hlt. split; [lia|]. intros Heq%of_Z_inj. lia.
Qed.

Lemma ceil_of_Z (n : Z) : ceil (of_Z n : F) = n.
Proof.
  destruct (ceil_spec (of_Z n : F)) as [Hlo Hhi].
  apply of_Z_slt in Hlo. apply of_Z_sle in Hhi. lia.
Qed.


Lemma ceil_pos (a : F) : slt zero a → 1 ≤ ceil a.
Proof.
  intros Ha. destruct (ceil_spec a) as [_ Hhi].
  pose proof (slt_sle_trans _ _ _ Ha Hhi) as Hlt.
  rewrite <- of_Z_0 in Hlt. apply of_Z_slt in Hlt. lia.
Qed.

Lemma square_nonneg (a : F) : sle zero (mul a a).
Proof.
  destruct (sle_total zero a) as [Ha|Ha]; [by apply mul_nonneg|].
  replace (mul a a) with (mul (opp a) (opp a)) by ring.
  assert (sle zero (opp a)).
  { apply sle_sub in Ha. by replace (sub zero a) with (opp a) in Ha by ring. }
  by apply mul_nonneg.
Qed.

Lemma mul_eq_zero (a b : F) : mul a b = zero → a = zero ∨ b = zero.
Proof.
  intros Hab. destruct (is_zero a) eqn:Ha.
  - left. by apply is_zero_spec.
  - right. apply is_zero_false in Ha.
    replace b with (mul (inv a) (mul a b)) by (unfold inv; field; done).
    rewrite Hab. ring.
Qed.

Lemma mul_pos (a b : F) : slt zero a → slt zero b → slt zero (mul a b).
Proof.
  intros [Ha Hna] [Hb Hnb]. split; [by apply mul_nonneg|].
  intros Heq. symmetry in Heq. apply mul_eq_zero in Heq as [?|?]; congruence.
Qed.

End Integers.

(** ** Kernel generation *)

Section Ranges.

Lemma length_range (a b : Z) : length (range a b) = Z.to_nat (b - a).
Proof. unfold range. by rewrite length_map, length_seq. Qed.

Lemma lookup_range (a b : Z) (k : nat) :
  (k < Z.to_nat (b - a))%nat → range a b !! k = Some (a + Z.of_nat k).
Proof.
  intros Hk. unfold range. rewrite list_lookup_fmap, lookup_seq_lt by done. done.
Qed.


End Ranges.

Section Meshgrid.
Context {A B : Type}.

(** Combining the two grids of [np.meshgrid] cell by cell is a double map. *)
Lemma zip_with_meshgrid (f : A → A → B) (a b : list A) :
  zip_with (zip_with f) (map (λ _, a) b) (map (λ y, map (λ _, y) a) b)
  = map (λ y, map (λ x, f x y) a) b.
Proof.
  induction b as [|y b IH]; simpl; [done|]. f_equal; [|done].
  clear. induction a as [|x a IH]; simpl; [done|]. by f_equal.
Qed.

End Meshgrid.

Section Generator.
Context {F : Type} {S : Scalar F} {E : Exponential F}
        {A : ExactArith F} {L : ExpLaws F}.

Add Field scalar_field_gen : scalar_field.

(** The grid coordinates for an integral radius [R]: the integers from
    [-R] to [R]. *)
Lemma arange_radius (R : Z) :
  arange (opp (of_Z R)) (add (of_Z R) one)
  = map (λ i, of_Z (i - R) : F) (range 0 (2 * R + 1)).
Proof.
  unfold arange.
  replace (sub (add (of_Z R) one) (opp (of_Z R))) with (of_Z (2 * R + 1) : F).
  - rewrite ceil_of_Z. apply map_ext. intros i. rewrite of_Z_sub. ring.
  - rewrite of_Z_add, of_Z_mul, of_Z_1.
    replace (of_Z 2 : F) with (add one one : F).
    + ring.
    + change 2 with (1 + 1). by rewrite of_Z_add, of_Z_1.
Qed.

(** The kernel is the grid of the Gaussian weights around the centre
    [(R, R)], for the radius [R = ceil(sigma) * 3], divided by their sum. *)
Lemma gaussian_kernel_2d_raw (sigma : F) :
  let R := ceil sigma * 3 in
  let raw := grid (2 * R + 1) (λ i j, bell sigma (j - R) (i - R)) in
  gaussian_kernel_2d sigma = map (map (λ w, div w (sum2 raw))) raw.
Proof.
  intros R raw. unfold gaussian_kernel_2d, meshgrid.
  rewrite <- of_Z_mul. fold R. rewrite arange_radius.
  rewrite zip_with_meshgrid.
  set (ax := map (λ i, of_Z (i - R) : F) (range 0 (2 * R + 1))).
  assert (Hraw : map (λ y, map (λ x, gauss sigma (add (mul x x) (mul y y))) ax) ax
                 = raw).
  { unfold raw, grid, ax. rewrite map_map. apply map_ext. intros i.
    by rewrite map_map. }
  by rewrite Hraw.
Qed.

Lemma grid_shape {B} (n : Z) (f : Z → Z → B) :
  length (grid n f) = Z.to_nat n ∧ Forall (λ r, length r = Z.to_nat n) (grid n f).
Proof.
  unfold grid. split.
  - rewrite length_map, length_range. f_equal. lia.
  - apply Forall_fmap, Forall_forall. intros i _. simpl.
    rewrite length_map, length_range. f_equal. lia.
Qed.

Lemma grid_lookup {B} (n : Z) (f : Z → Z → B) (i j : Z) :
  0 ≤ i < n → 0 ≤ j < n →
  ∃ r, grid n f !! Z.to_nat i = Some r ∧ r !! Z.to_nat j = Some (f i j).
Proof.
  intros Hi Hj. unfold grid. eexists. split.
  - rewrite list_lookup_fmap, lookup_range by lia. simpl. reflexivity.
  - rewrite list_lookup_fmap, lookup_range by lia. simpl.
    do 2 f_equal; lia.
Qed.

Lemma map_grid {B B'} (h : B → B') (n : Z) (f : Z → Z → B) :
  map (map h) (grid n f) = grid n (λ i j, h (f i j)).
Proof.
  unfold grid. rewrite map_map. apply map_ext. intros i. by rewrite map_map.
Qed.

Lemma at2_grid (n : Z) (f : Z → Z → F) (i j : Z) :
  0 ≤ i < n → 0 ≤ j < n → at2 (grid n f) i j = f i j.
Proof.
  intros Hi Hj. destruct (grid_lookup n f i j Hi Hj) as (r & Hr & Hv).
  destruct (grid_shape n f) as [Hlen Hall].
  unfold at2, getitem2. rewrite getitem_in by lia. rewrite Hr. simpl.
  rewrite Forall_lookup in Hall. rewrite getitem_in by (rewrite (Hall _ _ Hr); lia).
  by rewrite Hv.
Qed.

Lemma in_grid {B} (n : Z) (f : Z → Z → B) (x : B) :
  In x (concat (grid n f)) ↔ ∃ i j, 0 ≤ i < n ∧ 0 ≤ j < n ∧ x = f i j.
Proof.
  rewrite in_concat. unfold grid. split.
  - intros (r & Hr & Hx). apply in_map_iff in Hr as (i & <- & Hi).
    apply in_map_iff in Hx as (j & <- & Hj).
    apply list_elem_of_In, elem_of_range in Hi, Hj. exists i, j. split_and!; [lia..|done].
  - intros (i & j & Hi & Hj & ->). exists (map (λ j, f i j) (range 0 n)). split.
    + apply in_map_iff. exists i. split; [done|].
      apply list_elem_of_In, elem_of_range. lia.
    + apply in_map_iff. exists j. split; [done|].
      apply list_elem_of_In, elem_of_range. lia.
Qed.

(** A sum of non-negative terms, one of them positive, is positive. *)
Lemma sum1_pos (l : list F) (x0 : F) :
  (∀ x, In x l → sle zero x) → In x0 l → slt zero x0 → slt zero (sum1 l).
Proof.
  intros Hnn Hin Hpos. eapply slt_sle_trans; [exact Hpos|].
  rewrite <- (map_id l) at 1. by apply (sum1_map_ge (λ x : F, x)).
Qed.

Lemma sum1_map_div (t : F) (l : list F) :
  t ≠ zero → sum1 (map (λ w, div w t) l) = div (sum1 l) t.
Proof.
  intros Ht. rewrite <- (map_id l) at 2.
  rewrite (sum1_map_ext (λ w, div w t) (λ w, mul (inv t) ((λ x : F, x) w))).
  - rewrite (sum1_map_scale (inv t) (λ x : F, x)). unfold inv. field. done.
  - intros w _. unfold inv. field. done.
Qed.


Lemma bell_pos (sigma : F) (dx dy : Z) : slt zero (bell sigma dx dy).
Proof. apply exp_pos. Qed.

Lemma raw_sum_pos (sigma : F) (R : Z) :
  0 ≤ R → slt zero (sum2 (grid (2 * R + 1) (λ i j, bell sigma (j - R) (i - R)))).
Proof.
  intros HR. apply (sum1_pos _ (bell sigma (0 - R) (0 - R))).
  - intros x (i & j & _ & _ & ->)%in_grid. apply bell_pos.
  - apply in_grid. exists 0, 0. split_and!; [lia..|done].
  - apply bell_pos.
Qed.




End Generator.


Section Binary64.
#[local] Existing Instance binary64.


End Binary64.

(** ** What [convolve] writes *)

Section Frame.
Context {F : Type} `{Scalar F}.

Lemma same_except_refl output (s : state F) : same_except output s s.
Proof. by split_and!. Qed.

Lemma same_except_trans output (s1 s2 s3 : state F) :
  same_except output s1 s2 → same_except output s2 s3 → same_except output s1 s3.
Proof.
  intros (Hh1 & Hn1 & Hf1 & Hc1) (Hh2 & Hn2 & Hf2 & Hc2). split_and!.
  - intros l Hl. by rewrite Hh2, Hh1.
  - congruence.
  - congruence.
  - congruence.
Qed.

Lemma touches_only_ret {A} output (a : A) : touches_only output (ret a : M F A).
Proof. intros s. apply same_except_refl. Qed.

Lemma touches_only_raise {A} output e : touches_only output (raise e : M F A).
Proof. intros s. apply same_except_refl. Qed.

Lemma touches_only_bind {A B} output (m : M F A) (f : A → M F B) :
  touches_only output m → (∀ a, touches_only output (f a)) →
  touches_only output (bind m f).
Proof.
  intros Hm Hf s. unfold bind. specialize (Hm s).
  destruct (m s) as [[a|e] s']; simpl in *; [|done].
  eapply same_except_trans; [exact Hm|apply Hf].
Qed.

Lemma touches_only_for {A} output (l : list A) (body : A → M F unit) :
  (∀ a, touches_only output (body a)) → touches_only output (for_ l body).
Proof.
  intros Hbody. induction l as [|a l IH]; simpl.
  - apply touches_only_ret.
  - apply touches_only_bind; [apply Hbody|]. intros _. apply IH.
Qed.

Lemma touches_only_foldM {A B} output (f : B → A → M F B) (l : list A) (b : B) :
  (∀ b a, touches_only output (f b a)) → touches_only output (foldM f b l).
Proof.
  intros Hf. revert b. induction l as [|a l IH]; intros b; simpl.
  - apply touches_only_ret.
  - apply touches_only_bind; [apply Hf|]. intros b'. apply IH.
Qed.

Lemma touches_only_load output l : touches_only output (load l : M F _).
Proof.
  intros s. unfold load. destruct (heap s !! l); apply same_except_refl.
Qed.

Lemma touches_only_load3 output l : touches_only output (load3 l : M F _).
Proof.
  apply touches_only_bind; [apply touches_only_load|].
  intros [a|a]; [apply touches_only_raise|apply touches_only_ret].
Qed.

Lemma touches_only_load2 output l : touches_only output (load2 l : M F _).
Proof.
  apply touches_only_bind; [apply touches_only_load|].
  intros [a|a]; [apply touches_only_ret|apply touches_only_raise].
Qed.

Lemma touches_only_read2 output kernel i j :
  touches_only output (read2 kernel i j : M F _).
Proof.
  apply touches_only_bind; [apply touches_only_load2|].
  intros a. destruct (getitem2 a i j); [apply touches_only_ret|apply touches_only_raise].
Qed.

Lemma touches_only_read3 output image c i j :
  touches_only output (read3 image c i j : M F _).
Proof.
  apply touches_only_bind; [apply touches_only_load3|].
  intros a. destruct (getitem3 a c i j); [apply touches_only_ret|apply touches_only_raise].
Qed.

Lemma touches_only_store output a : touches_only output (store output a : M F _).
Proof.
  intros s. unfold store, same_except. simpl. split_and!; [|done..].
  intros l Hl. by rewrite lookup_insert_ne.
Qed.

Lemma touches_only_write3 output c y x w :
  touches_only output (write3 output c y x w : M F _).
Proof.
  apply touches_only_bind; [apply touches_only_load3|].
  intros a. destruct (setitem3 a c y x w);
    [apply touches_only_store|apply touches_only_raise].
Qed.

Lemma touches_only_truediv output (value total : F) :
  touches_only output (truediv value total).
Proof.
  unfold truediv. destruct (is_zero total);
    [apply touches_only_raise|apply touches_only_ret].
Qed.

Lemma touches_only_accumulate output image kernel hh hw c y x x0 x1 y0 y1 :
  touches_only output (accumulate image kernel hh hw c y x x0 x1 y0 y1 : M F _).
Proof.
  unfold accumulate. apply touches_only_foldM. intros acc u.
  apply touches_only_foldM. intros [value total] v.
  apply touches_only_bind; [apply touches_only_read2|]. intros tmp.
  apply touches_only_bind; [apply touches_only_read3|]. intros px.
  apply touches_only_ret.
Qed.

(** Whatever the arguments and the outcome, [convolve] logs its call and
    changes no object other than [output]. *)
Lemma convolve_frame (s : state F) image output kernel :
  let s' := (convolve image output kernel s).2 in
  (∀ l, l ≠ output → heap s' !! l = heap s !! l) ∧
  next_loc s' = next_loc s ∧ files s' = files s ∧
  calls s' = calls s ++ [(image, output, kernel)].
Proof.
  unfold convolve. erewrite bind_ok; last reflexivity.
  set (s1 := State _ _ _ _).
  enough (Hrest : ∀ m : M F unit, touches_only output m →
            let s' := (m s1).2 in
            (∀ l, l ≠ output → heap s' !! l = heap s !! l) ∧
            next_loc s' = next_loc s ∧ files s' = files s ∧
            calls s' = calls s ++ [(image, output, kernel)]).
  { apply Hrest.
    apply touches_only_bind; [apply touches_only_load3|]. intros img.
    destruct (shape3 img) as [[cc hh] ww].
    apply touches_only_bind; [apply touches_only_load2|]. intros ker.
    destruct (shape2 ker) as [kh kw].
    apply touches_only_for. intros x. apply touches_only_for. intros y.
    apply touches_only_for. intros c.
    apply touches_only_bind; [apply touches_only_accumulate|]. intros [value total].
    apply touches_only_bind; [apply touches_only_truediv|]. intros q.
    apply touches_only_write3. }
  intros m Hm. destruct (Hm s1) as (Hh & Hn & Hf & Hc). simpl.
  split_and!; [|done..]. intros l Hl. by rewrite Hh.
Qed.

End Frame.

(** ** The buffers of the pipeline *)

Section Pipeline.
Context {F : Type} `{Scalar F} `{Exponential F} {P : Pillow}.

Lemma write_image_calls (s : state F) img path :
  calls (write_image img path s).2 = calls s.
Proof.
  unfold write_image, bind, load3, load, store, save, ret, raise, bind. simpl.
  destruct (heap s !! img) as [[a|a]|]; simpl; try done.
  rewrite lookup_insert_eq. simpl. by destruct (fromarray_save _ _).
Qed.

Lemma write_image_run (s : state F) img path a :
  heap s !! img = Some (Array3 a) →
  write_image img path s
  = save path (map3 to_uint8 (transpose_120 zero (map3 (λ v, mul v (of_Z 255)) a)))
      (with_output img s (map3 (λ v, mul v (of_Z 255)) a)).
Proof.
  intros Ha. unfold write_image.
  erewrite bind_ok; last by apply load3_run.
  erewrite bind_ok; last reflexivity.
  erewrite bind_ok; last by (apply load3_run; apply lookup_insert_eq).
  reflexivity.
Qed.

Lemma save_heap (s : state F) path (r : raster) :
  heap (save path r s).2 = heap s ∧ next_loc (save path r s).2 = next_loc s ∧
  calls (save path r s).2 = calls s.
Proof. unfold save. by destruct (fromarray_save path r). Qed.

Lemma read_image_missing (s : state F) path :
  files s !! path = None → read_image path s = (Raise IOError, s).
Proof. intros Hf. unfold read_image, bind. cbv beta. by rewrite Hf. Qed.

Lemma read_image_flat (s : state F) path a :
  files s !! path = Some (Flat a) → read_image path s = (Raise ValueError, s).
Proof. intros Hf. unfold read_image, bind. cbv beta. by rewrite Hf. Qed.

Lemma read_image_found (s : state F) path r :
  files s !! path = Some (Bands r) →
  read_image path s
  = (Ok (next_loc s),
     State (<[next_loc s :=
               Array3 (map3 (λ v : F, div v (of_Z 255)) (map3 of_Z (transpose_201 0 r)))]>
              (heap s))
           (Pos.succ (next_loc s)) (files s) (calls s)).
Proof. intros Hf. unfold read_image, bind. cbv beta. by rewrite Hf. Qed.

Lemma NoDup_succ3 (n : positive) : NoDup [n; Pos.succ n; Pos.succ (Pos.succ n)].
Proof.
  rewrite !NoDup_cons, !not_elem_of_cons. split_and!; try lia;
    try apply not_elem_of_nil; apply NoDup_nil_2.
Qed.

Lemma NoDup_succ5 (n : positive) :
  NoDup [n; Pos.succ n; Pos.succ (Pos.succ (Pos.succ n)); Pos.succ (Pos.succ n);
         Pos.succ (Pos.succ (Pos.succ (Pos.succ n)))].
Proof.
  rewrite !NoDup_cons, !not_elem_of_cons. split_and!; try lia;
    try apply not_elem_of_nil; apply NoDup_nil_2.
Qed.

(** The calls of the separable branch of [main], run after the image has
    been stored at [n] and the output buffer at the next reference. *)
Lemma separable_calls (s2 : state F) (n : loc) sigma :
  next_loc s2 = Pos.succ (Pos.succ n) →
  let block : M F unit :=
    (kernel_1d <- alloc (Array2 (gaussian_kernel_1d sigma)) ;;
     a <- load3 n ;;
     intermediate <- alloc (Array3 (zeros (shape3 a))) ;;
     convolve n intermediate kernel_1d ;;
     k <- load2 kernel_1d ;;
     kernel_1d_t <- alloc (Array2 (transpose k)) ;;
     convolve intermediate (Pos.succ n) kernel_1d_t) in
  ∃ new, calls (block s2).2 = calls s2 ++ new ∧
         pipeline_calls true (is_ok (block s2).1) new.
Proof.
  intros Hn2 block. remember (block s2) as res eqn:Hres. unfold block in Hres.
  run_bind Hres ltac:(reflexivity). rewrite Hn2 in Hres.
  set (s3 := State _ _ _ _) in Hres.
  pose proof (touches_only_load3 n n s3) as (_ & Hn3 & _ & Hc3).
  destruct (load3 n s3) as [[a|e] s3'] eqn:Hload;
    simpl in Hn3, Hc3; (run_bind Hres ltac:(exact Hload)).
  2:{ exists []. subst res. simpl. rewrite app_nil_r. split; [done|]. by left. }
  run_bind Hres ltac:(reflexivity). rewrite Hn3 in Hres.
  set (s4 := State _ _ _ _) in Hres.
  pose proof (convolve_frame s4 n (Pos.succ (Pos.succ (Pos.succ n)))
                (Pos.succ (Pos.succ n))) as (_ & Hn5 & _ & Hc5).
  destruct (convolve n _ _ s4) as [[[]|e] s5] eqn:Hconv1;
    simpl in Hn5, Hc5; (run_bind Hres ltac:(exact Hconv1)).
  2:{ eexists. subst res. simpl. split; [rewrite Hc5, Hc3; reflexivity|].
      right. left. do 3 eexists. split_and!; [done| |done].
      pose proof (NoDup_succ5 n) as Hnd.
      rewrite !NoDup_cons, !not_elem_of_cons in Hnd.
      rewrite !NoDup_cons, !not_elem_of_cons.
      split_and!; try (apply not_elem_of_nil); try apply NoDup_nil_2; lia. }
  pose proof (touches_only_load2 n (Pos.succ (Pos.succ n)) s5) as (_ & Hn6 & _ & Hc6).
  destruct (load2 (Pos.succ (Pos.succ n)) s5) as [[kk|e] s5'] eqn:Hload2;
    simpl in Hn6, Hc6; (run_bind Hres ltac:(exact Hload2)).
  2:{ eexists. subst res. simpl. split; [rewrite Hc6, Hc5, Hc3; reflexivity|].
      right. left. do 3 eexists. split_and!; [done| |done].
      rewrite !NoDup_cons, !not_elem_of_cons.
      split_and!; try (apply not_elem_of_nil); try apply NoDup_nil_2; lia. }
  run_bind Hres ltac:(reflexivity). rewrite Hn6, Hn5 in Hres.
  simpl next_loc in Hres.
  set (s6 := State _ _ _ _) in Hres.
  pose proof (convolve_frame s6 (Pos.succ (Pos.succ (Pos.succ n))) (Pos.succ n)
                (Pos.succ (Pos.succ (Pos.succ (Pos.succ n))))) as (_ & _ & _ & Hc7).
  rewrite <- Hres in Hc7.
  eexists. split.
  { rewrite Hc7. simpl. rewrite Hc6, Hc5, Hc3. simpl. rewrite <- app_assoc.
    reflexivity. }
  right. right. do 5 eexists. split; [reflexivity|]. apply NoDup_succ5.
Qed.

Lemma joint_calls (s2 : state F) (n : loc) sigma :
  next_loc s2 = Pos.succ (Pos.succ n) →
  let block : M F unit :=
    (kernel_2d <- alloc (Array2 (gaussian_kernel_2d sigma)) ;;
     convolve n (Pos.succ n) kernel_2d) in
  ∃ new, calls (block s2).2 = calls s2 ++ new ∧
         pipeline_calls false (is_ok (block s2).1) new.
Proof.
  intros Hn2 block. remember (block s2) as res eqn:Hres. unfold block in Hres.
  run_bind Hres ltac:(reflexivity). rewrite Hn2 in Hres.
  set (s3 := State _ _ _ _) in Hres.
  pose proof (convolve_frame s3 n (Pos.succ n) (Pos.succ (Pos.succ n)))
    as (_ & _ & _ & Hc).
  rewrite <- Hres in Hc.
  eexists. split; [rewrite Hc; reflexivity|].
  right. do 3 eexists. split; [reflexivity|]. apply NoDup_succ3.
Qed.

(** The calls of a run of [main] and the objects they are given. *)
Lemma main_calls (s : state F) input_file output_file sigma seperate_filters :
  ∃ new,
    calls (main input_file output_file sigma seperate_filters s).2 = calls s ++ new ∧
    pipeline_calls seperate_filters
      (is_ok (main input_file output_file sigma seperate_filters s).1) new.
Proof.
  remember (main input_file output_file sigma seperate_filters s) as res eqn:Hres.
  unfold main in Hres.
  destruct (files s !! input_file) as [[a|r]|] eqn:Hfile.
  3:{ run_bind Hres ltac:(by apply read_image_missing).
      exists []. subst res. simpl. rewrite app_nil_r.
      split; [done|]. destruct seperate_filters; by left. }
  1:{ run_bind Hres ltac:(by apply (read_image_flat _ _ a)).
      exists []. subst res. simpl. rewrite app_nil_r.
      split; [done|]. destruct seperate_filters; by left. }
  run_bind Hres ltac:(by apply read_image_found).
  set (n := next_loc s) in *.
  set (s1 := State _ _ _ _) in Hres.
  run_bind Hres ltac:(apply load3_run; apply lookup_insert_eq).
  run_bind Hres ltac:(reflexivity). simpl next_loc in Hres.
  set (s2 := State _ _ _ _) in Hres.
  assert (Hblock : ∃ new,
    calls ((if negb seperate_filters
            then kernel_2d <- alloc (Array2 (gaussian_kernel_2d sigma)) ;;
                 convolve n (Pos.succ n) kernel_2d
            else kernel_1d <- alloc (Array2 (gaussian_kernel_1d sigma)) ;;
                 a <- load3 n ;;
                 intermediate <- alloc (Array3 (zeros (shape3 a))) ;;
                 convolve n intermediate kernel_1d ;;
                 k <- load2 kernel_1d ;;
                 kernel_1d_t <- alloc (Array2 (transpose k)) ;;
                 convolve intermediate (Pos.succ n) kernel_1d_t) s2).2
    = calls s ++ new ∧
    pipeline_calls seperate_filters
      (is_ok ((if negb seperate_filters
               then kernel_2d <- alloc (Array2 (gaussian_kernel_2d sigma)) ;;
                    convolve n (Pos.succ n) kernel_2d
               else kernel_1d <- alloc (Array2 (gaussian_kernel_1d sigma)) ;;
                    a <- load3 n ;;
                    intermediate <- alloc (Array3 (zeros (shape3 a))) ;;
                    convolve n intermediate kernel_1d ;;
                    k <- load2 kernel_1d ;;
                    kernel_1d_t <- alloc (Array2 (transpose k)) ;;
                    convolve intermediate (Pos.succ n) kernel_1d_t) s2).1) new).
  { destruct seperate_filters; simpl negb; cbv iota.
    - by apply (separable_calls s2 n sigma).
    - by apply (joint_calls s2 n sigma). }
  destruct Hblock as (new & Hcalls & Hpipe).
  match type of Hres with
  | res = bind ?blk _ _ => destruct (blk s2) as [[[]|e] s'] eqn:Hb
  end; simpl in Hcalls, Hpipe; (run_bind Hres ltac:(exact Hb)).
  - exists new. subst res. rewrite write_image_calls. split; [done|].
    destruct seperate_filters; simpl in *.
    + destruct Hpipe as [[_ ?]|[(? & ? & ? & _ & _ & ?)|Hfull]]; try done.
      by right; right.
    + destruct Hpipe as [[_ ?]|Hfull]; try done. by right.
  - exists new. subst res. by split.
Qed.

Lemma pipeline_calls_distinct seperate_filters ok new i o k :
  pipeline_calls seperate_filters ok new → (i, o, k) ∈ new → i ≠ o ∧ k ≠ o.
Proof.
  unfold pipeline_calls. intros Hp Hin.
  assert (Hone : ∀ a b c : loc, NoDup [a; b; c] → (i, o, k) ∈ [(a, b, c)] →
                   i ≠ o ∧ k ≠ o).
  { intros a b c Hnd [= -> -> ->]%list_elem_of_singleton.
    rewrite !NoDup_cons, !not_elem_of_cons in Hnd.
    destruct Hnd as ((Hab & Hac & _) & (Hbc & _) & _). split; congruence. }
  destruct seperate_filters.
  - destruct Hp as [[-> _]|[(a & b & c & -> & Hnd & _)|(a & b & c & d & e & -> & Hnd)]].
    + by apply elem_of_nil in Hin.
    + by apply (Hone a b c).
    + rewrite !NoDup_cons, !not_elem_of_cons in Hnd.
      destruct Hnd as ((Hab & Hac & Had & Hae & _) & (Hbc & Hbd & Hbe & _) &
                       (Hcd & Hce & _) & (Hde & _) & _).
      apply elem_of_cons in Hin as [[= -> -> ->]|Hin]; [split; congruence|].
      apply list_elem_of_singleton in Hin as [= -> -> ->]. split; congruence.
  - destruct Hp as [[-> _]|(a & b & c & -> & Hnd)].
    + by apply elem_of_nil in Hin.
    + by apply (Hone a b c).
Qed.

(** C8: whatever its arguments and its outcome, [convolve] changes no
    object other than its output buffer, so its image and kernel arguments
    are unchanged whenever they are other objects; and in every run of the
    pipeline each [convolve] call is given three different objects: in
    separable mode the row pass writes a newly allocated intermediate
    buffer, the column pass reads it and writes the output buffer, and the
    image, the intermediate buffer and the output buffer are different. *)
Theorem convolve_buffers_not_aliased :
  (∀ (s : state F) image output kernel,
     let s' := (convolve image output kernel s).2 in
     ∀ l, l ≠ output → heap s' !! l = heap s !! l) ∧
  (∀ (s : state F) input_file output_file sigma seperate_filters,
     let run := main input_file output_file sigma seperate_filters s in
     ∃ new, calls run.2 = calls s ++ new ∧
            pipeline_calls seperate_filters (is_ok run.1) new ∧
            ∀ image output kernel, (image, output, kernel) ∈ new →
              image ≠ output ∧ kernel ≠ output).
Proof.
  split.
  - intros s image output kernel. apply convolve_frame.
  - intros s input_file output_file sigma seperate_filters.
    destruct (main_calls s input_file output_file sigma seperate_filters)
      as (new & Hcalls & Hpipe).
    exists new. split_and!; [done..|].
    intros image output kernel. by eapply pipeline_calls_distinct.
Qed.

End Pipeline.

(** ** Writing an image file *)

Section Encode.
Context {F : Type} `{ExactArith F} {P : Pillow}.

Add Field scalar_field_enc : scalar_field.

Lemma getitem_map {A B} (f : A → B) (l : list A) (i : Z) :
  getitem (map f l) i = f <$> getitem l i.
Proof.
  unfold getitem. rewrite length_map.
  destruct (norm_index (length l) i) as [k|]; simpl; [|done].
  apply list_lookup_fmap.
Qed.

Lemma getitem3_map3 {A} (f : F → A) (a : list (list (list F))) (c y x : Z) :
  (p ← getitem (map3 f a) c; r ← getitem p y; getitem r x)
  = f <$> getitem3 a c y x.
Proof.
  unfold map3, getitem3, getitem2. rewrite getitem_map.
  destruct (getitem a c) as [p|]; simpl; [|done].
  rewrite getitem_map. destruct (getitem p y) as [r|]; simpl; [|done].
  apply getitem_map.
Qed.

Lemma scaled_neq (v : F) : v ≠ zero → mul v (of_Z 255) ≠ v.
Proof.
  intros Hv Heq.
  assert (H254 : mul v (of_Z 254) = zero).
  { change 255 with (254 + 1) in Heq. rewrite of_Z_add, of_Z_1 in Heq.
    replace (mul v (of_Z 254)) with (sub (mul v (add (of_Z 254) one)) v) by ring.
    rewrite Heq. ring. }
  apply mul_eq_zero in H254 as [?|Hz]; [done|].
  rewrite <- of_Z_0 in Hz. by apply of_Z_inj in Hz.
Qed.

Lemma scaled_above_one (v : F) :
  slt (div one (of_Z 255)) v → slt one (mul v (of_Z 255)).
Proof.
  intros [Hle Hne].
  assert (H255 : (of_Z 255 : F) ≠ zero).
  { rewrite <- of_Z_0. intros Heq%of_Z_inj. lia. }
  assert (Hp : sle zero (of_Z 255 : F)).
  { rewrite <- of_Z_0. apply of_Z_sle. lia. }
  split.
  - replace (one : F) with (mul (div one (of_Z 255)) (of_Z 255)) by (field; done).
    by apply mul_sle_mono_r.
  - intros Heq. apply Hne. rewrite Heq. field. done.
Qed.

(** C10, amended: [write_image] multiplies its argument by 255 in place
    before it converts and saves, so whatever the imaging library then does
    (return or raise), the caller's buffer holds afterwards each sample
    multiplied by 255 and no other object is changed.  In exact arithmetic a
    sample above 1/255 is then above 1, and a sample has changed exactly when
    it is not zero. *)
Theorem write_image_scales_in_place (s : state F) img path a :
  heap s !! img = Some (Array3 a) →
  let s' := (write_image img path s).2 in
  heap s' !! img = Some (Array3 (map3 (λ v, mul v (of_Z 255)) a)) ∧
  (∀ l, l ≠ img → heap s' !! l = heap s !! l) ∧
  (∀ c y x v, getitem3 a c y x = Some v →
     getitem3 (array3_at s' img) c y x = Some (mul v (of_Z 255)) ∧
     (slt (div one (of_Z 255)) v → slt one (mul v (of_Z 255))) ∧
     (v ≠ zero → getitem3 (array3_at s' img) c y x ≠ getitem3 a c y x) ∧
     (v = zero → getitem3 (array3_at s' img) c y x = getitem3 a c y x)).
Proof.
  intros Ha. rewrite (write_image_run s img path a Ha).
  destruct (save_heap (with_output img s (map3 (λ v, mul v (of_Z 255)) a)) path
              (map3 to_uint8 (transpose_120 zero (map3 (λ v, mul v (of_Z 255)) a))))
    as (Hheap & _ & _).
  cbv zeta. unfold array3_at. rewrite Hheap. simpl. split_and!.
  - apply lookup_insert_eq.
  - intros l Hl. by rewrite lookup_insert_ne.
  - intros c y x v Hv. rewrite lookup_insert_eq.
    assert (Hget : getitem3 (map3 (λ v, mul v (of_Z 255)) a) c y x
                   = Some (mul v (of_Z 255))).
    { pose proof (getitem3_map3 (λ v, mul v (of_Z 255)) a c y x) as Hm.
      rewrite Hv in Hm. exact Hm. }
    split_and!; [done|apply scaled_above_one| |].
    + intros Hne. rewrite Hget, Hv. intros [= Heq]. by apply (scaled_neq v).
    + intros ->. rewrite Hget, Hv. f_equal. ring.
Qed.

End Encode.

(** ** Inputs outside the preconditions *)

Section NoValidation.
Context {F : Type} {S : Scalar F} {E : Exponential F} {A : ExactArith F}.



End NoValidation.



(** ** Separable kernels *)

Section DoubleSums.
Context {F : Type} `{ExactArith F}.

Add Field scalar_field_dbl : scalar_field.

Lemma sum1_nil : sum1 ([] : list F) = zero.
Proof. reflexivity. Qed.

Lemma sum1_map_add {A} (f g : A → F) (l : list A) :
  sum1 (map (λ x, add (f x) (g x)) l) = add (sum1 (map f l)) (sum1 (map g l)).
Proof.
  induction l as [|x l IH]; simpl.
  - rewrite !sum1_nil. ring.
  - rewrite !sum1_cons, IH. ring.
Qed.

Lemma sum1_map_zero {A} (l : list A) : sum1 (map (λ _, zero : F) l) = zero.
Proof.
  induction l as [|x l IH]; simpl; [done|]. rewrite sum1_cons, IH. ring.
Qed.

Lemma sum1_concat (l : list (list F)) : sum1 (concat l) = sum1 (map sum1 l).
Proof.
  induction l as [|r l IH]; simpl; [done|].
  by rewrite sum1_app, sum1_cons, IH.
Qed.

(** A sum over the pairs is a sum of sums. *)
Lemma sum1_list_prod {A B} (h : A * B → F) (us : list A) (vs : list B) :
  sum1 (map h (list_prod us vs))
  = sum1 (map (λ u, sum1 (map (λ v, h (u, v)) vs)) us).
Proof.
  induction us as [|u us IH]; simpl; [done|].
  by rewrite map_app, sum1_app, map_map, sum1_cons, IH.
Qed.

(** The two sums can be exchanged. *)
Lemma sum1_swap {A B} (h : A → B → F) (us : list A) (vs : list B) :
  sum1 (map (λ u, sum1 (map (λ v, h u v) vs)) us)
  = sum1 (map (λ v, sum1 (map (λ u, h u v) us)) vs).
Proof.
  induction us as [|u us IH]; simpl.
  - by rewrite sum1_nil, sum1_map_zero.
  - rewrite sum1_cons, IH, <- sum1_map_add.
    apply sum1_map_ext. intros v _. by rewrite sum1_cons.
Qed.

Lemma sum1_map_scale_r {A} (k : F) (g : A → F) (ps : list A) :
  sum1 (map (λ p, mul (g p) k) ps) = mul (sum1 (map g ps)) k.
Proof.
  rewrite (sum1_map_ext _ (λ p, mul k (g p))) by (intros; ring).
  rewrite sum1_map_scale. ring.
Qed.

(** A weighted average with product weights [a u * b v] is the average
    with weights [b] of the averages with weights [a]. *)
Lemma product_average (f : Z → Z → F) (a b : Z → F) (us vs : list Z) :
  sum1 (map a us) ≠ zero → sum1 (map b vs) ≠ zero →
  div (sum1 (map (λ p, mul (f p.2 p.1) (mul (a p.1) (b p.2))) (list_prod us vs)))
      (sum1 (map (λ p, mul (a p.1) (b p.2)) (list_prod us vs)))
  = div (sum1 (map (λ v, mul (div (sum1 (map (λ u, mul (f v u) (a u)) us))
                                  (sum1 (map a us)))
                             (b v)) vs))
        (sum1 (map b vs)).
Proof.
  intros HA HB.
  set (A := sum1 (map a us)) in *. set (B := sum1 (map b vs)) in *.
  assert (Hden : sum1 (map (λ p : Z * Z, mul (a p.1) (b p.2)) (list_prod us vs))
                 = mul A B).
  { rewrite sum1_list_prod. simpl.
    rewrite (sum1_map_ext _ (λ u, mul (a u) B)).
    - by rewrite sum1_map_scale_r.
    - intros u _. by rewrite sum1_map_scale. }
  assert (Hnum : sum1 (map (λ p : Z * Z, mul (f p.2 p.1) (mul (a p.1) (b p.2)))
                        (list_prod us vs))
                 = sum1 (map (λ v, mul (sum1 (map (λ u, mul (f v u) (a u)) us)) (b v)) vs)).
  { rewrite sum1_list_prod. simpl.
    rewrite (sum1_swap (λ u v, mul (f v u) (mul (a u) (b v)))).
    apply sum1_map_ext. intros v _.
    rewrite <- sum1_map_scale_r. apply sum1_map_ext. intros u _. ring. }
  rewrite Hden, Hnum.
  rewrite (sum1_map_ext (λ v, mul (div (sum1 (map (λ u, mul (f v u) (a u)) us)) A) (b v))
             (λ v, mul (inv A) (mul (sum1 (map (λ u, mul (f v u) (a u)) us)) (b v)))).
  - rewrite sum1_map_scale. unfold inv. field. done.
  - intros v _. unfold inv. field. done.
Qed.

End DoubleSums.

Section SeparableKernel.
Context {F : Type} {S : Scalar F} {E : Exponential F}
        {A : ExactArith F} {L : ExpLaws F}.

Add Field scalar_field_sepk : scalar_field.

Lemma gaussian_kernel_1d_raw (sigma : F) :
  gaussian_kernel_1d sigma = [map (λ w, div w (sum1 (taps1 sigma))) (taps1 sigma)].
Proof.
  unfold gaussian_kernel_1d, taps1, bell1.
  rewrite <- of_Z_mul, arange_radius, !List.map_map. done.
Qed.

Lemma length_taps1 (sigma : F) :
  length (taps1 sigma) = Z.to_nat (2 * (ceil sigma * 3) + 1).
Proof. unfold taps1. rewrite length_map, length_range. f_equal. lia. Qed.

Lemma gaussian_kernel_1d_shape (sigma : F) :
  has_shape2 (gaussian_kernel_1d sigma) 1 (Z.to_nat (2 * (ceil sigma * 3) + 1)).
Proof.
  rewrite gaussian_kernel_1d_raw. split; [done|].
  constructor; [|constructor]. by rewrite length_map, length_taps1.
Qed.

Lemma gaussian_kernel_1d_at (sigma : F) (j : Z) :
  0 ≤ j < 2 * (ceil sigma * 3) + 1 →
  at2 (gaussian_kernel_1d sigma) 0 j = weight1 sigma (j - ceil sigma * 3).
Proof.
  intros Hj. rewrite gaussian_kernel_1d_raw. unfold at2, getitem2. simpl.
  rewrite getitem_in by (rewrite length_map, length_taps1; lia).
  unfold taps1 at 2. rewrite List.map_map, list_lookup_fmap, lookup_range by lia.
  simpl. unfold weight1. do 3 f_equal. lia.
Qed.

Lemma transpose_row (row : list F) :
  transpose [row] = map (λ w, [w]) row.
Proof.
  unfold transpose. simpl.
  apply list_eq. intros k. rewrite !list_lookup_fmap.
  destruct (decide (k < length row)%nat) as [Hk|Hk].
  - rewrite lookup_seq_lt by done. simpl.
    destruct (lookup_lt_is_Some_2 row k Hk) as [w Hw]. by rewrite Hw.
  - rewrite lookup_seq_ge by lia. by rewrite lookup_ge_None_2 by lia.
Qed.

Lemma transpose_1d_shape (sigma : F) :
  has_shape2 (transpose (gaussian_kernel_1d sigma))
             (Z.to_nat (2 * (ceil sigma * 3) + 1)) 1.
Proof.
  rewrite gaussian_kernel_1d_raw, transpose_row. split.
  - by rewrite !length_map, length_taps1.
  - apply Forall_fmap, Forall_forall. by intros.
Qed.

Lemma transpose_1d_at (sigma : F) (i : Z) :
  0 ≤ i < 2 * (ceil sigma * 3) + 1 →
  at2 (transpose (gaussian_kernel_1d sigma)) i 0 = weight1 sigma (i - ceil sigma * 3).
Proof.
  intros Hi. rewrite <- gaussian_kernel_1d_at by done.
  rewrite gaussian_kernel_1d_raw, transpose_row. unfold at2, getitem2. simpl.
  rewrite !getitem_in by (rewrite !length_map, length_taps1; lia).
  rewrite !list_lookup_fmap.
  destruct (taps1 sigma !! Z.to_nat i); reflexivity.
Qed.

(** The 2-D Gaussian weight is the product of two 1-D weights. *)
Lemma bell_product (sigma : F) (dx dy : Z) :
  sigma ≠ zero → bell sigma dx dy = mul (bell1 sigma dx) (bell1 sigma dy).
Proof.
  intros Hs. unfold bell, bell1, gauss. rewrite <- exp_add. f_equal.
  field. split; [done|].
  intros H2. rewrite <- of_Z_0 in H2. by apply of_Z_inj in H2.
Qed.

(** The sum of the 2-D weights is the square of the sum of the 1-D ones. *)
Lemma raw_sum_product (sigma : F) :
  sigma ≠ zero →
  let R := ceil sigma * 3 in
  sum2 (grid (2 * R + 1) (λ i j, bell sigma (j - R) (i - R)))
  = mul (sum1 (taps1 sigma)) (sum1 (taps1 sigma)).
Proof.
  intros Hs R. unfold sum2, grid. rewrite sum1_concat. rewrite List.map_map.
  rewrite (sum1_map_ext _ (λ i, mul (sum1 (taps1 sigma)) (bell1 sigma (i - R)))).
  - rewrite sum1_map_scale. unfold taps1. fold R. done.
  - intros i _. unfold taps1. fold R.
    rewrite <- sum1_map_scale_r. apply sum1_map_ext. intros j _.
    by apply bell_product.
Qed.

Lemma taps1_sum_pos (sigma : F) : slt zero sigma → slt zero (sum1 (taps1 sigma)).
Proof.
  intros Hs. pose proof (ceil_pos sigma Hs) as Hc.
  apply (sum1_pos _ (bell1 sigma (0 - ceil sigma * 3))).
  - intros x (j & <- & _)%in_map_iff. apply exp_pos.
  - unfold taps1. apply in_map_iff. exists 0. split; [done|].
    apply list_elem_of_In, elem_of_range. lia.
  - apply exp_pos.
Qed.

Lemma weight1_pos (sigma : F) (d : Z) : slt zero sigma → slt zero (weight1 sigma d).
Proof.
  intros Hs. unfold weight1.
  pose proof (taps1_sum_pos sigma Hs) as Hpos.
  assert (Hne : sum1 (taps1 sigma) ≠ zero) by (destruct Hpos; congruence).
  replace (div (bell1 sigma d) (sum1 (taps1 sigma)))
    with (mul (bell1 sigma d) (inv (sum1 (taps1 sigma)))) by (unfold inv; field; done).
  apply mul_pos; [apply exp_pos|].
  split; [by apply inv_nonneg|].
  intros Heq. apply one_neq_zero.
  replace (one : F) with (mul (inv (sum1 (taps1 sigma))) (sum1 (taps1 sigma)))
    by (unfold inv; field; done).
  rewrite <- Heq. ring.
Qed.

Lemma gaussian_kernel_2d_at (sigma : F) (i j : Z) :
  slt zero sigma →
  let R := ceil sigma * 3 in
  0 ≤ i < 2 * R + 1 → 0 ≤ j < 2 * R + 1 →
  at2 (gaussian_kernel_2d sigma) i j
  = mul (weight1 sigma (j - R)) (weight1 sigma (i - R)).
Proof.
  intros Hs R Hi Hj.
  assert (Hsne : sigma ≠ zero) by (destruct Hs; congruence).
  pose proof (taps1_sum_pos sigma Hs) as Hpos.
  assert (Hne : sum1 (taps1 sigma) ≠ zero) by (destruct Hpos; congruence).
  rewrite gaussian_kernel_2d_raw. fold R. rewrite map_grid, at2_grid by done.
  pose proof (raw_sum_product sigma Hsne) as Hsum. cbv zeta in Hsum.
  fold R in Hsum. rewrite Hsum, bell_product by done.
  unfold weight1. field. done.
Qed.

Lemma gaussian_kernel_2d_shape (sigma : F) :
  let n := Z.to_nat (2 * (ceil sigma * 3) + 1) in
  has_shape2 (gaussian_kernel_2d sigma) n n.
Proof.
  intros n. rewrite gaussian_kernel_2d_raw, map_grid. apply grid_shape.
Qed.

End SeparableKernel.

Section SeparablePixel.
Context {F : Type} {S : Scalar F} {E : Exponential F}
        {A : ExactArith F} {L : ExpLaws F}.

Add Field scalar_field_sepp : scalar_field.

Lemma list_prod_single_r {A0 B0} (us : list A0) (v : B0) :
  list_prod us [v] = map (λ u, (u, v)) us.
Proof. induction us as [|u us IH]; simpl; [done|]. by rewrite IH. Qed.

Lemma list_prod_single_l {A0 B0} (x : A0) (vs : list B0) :
  list_prod [x] vs = map (λ v, (x, v)) vs.
Proof. simpl. by rewrite app_nil_r. Qed.

Lemma sum_window_row (f : Z → Z → F) (us : list Z) (v : Z) :
  sum_window f us [v] = sum1 (map (λ u, f v u) us).
Proof. by rewrite sum_window_flat, list_prod_single_r, List.map_map. Qed.

Lemma sum_window_col (f : Z → Z → F) (x : Z) (vs : list Z) :
  sum_window f [x] vs = sum1 (map (λ v, f v x) vs).
Proof. by rewrite sum_window_flat, list_prod_single_l, List.map_map. Qed.

(** The window of a kernel of extent 1 is the position itself. *)
Lemma window_extent_1 (n y : Z) :
  0 ≤ y < n → range (y_min 1 y) (y_max n 1 y + 1) = [y].
Proof.
  intros Hy. unfold y_min, y_max. change (1 `div` 2) with 0.
  replace (Z.max 0 (y - 0)) with y by lia.
  replace (Z.min (n - 1) (y + 0)) with y by lia.
  apply range_single.
Qed.

Lemma window_extent_1_x (n x : Z) :
  0 ≤ x < n → range (x_min 1 x) (x_max n 1 x + 1) = [x].
Proof. apply window_extent_1. Qed.

Lemma in_window (n k x u : Z) :
  In u (range (x_min k x) (x_max n k x + 1)) →
  0 ≤ u < n ∧ - (k `div` 2) ≤ u - x ≤ k `div` 2.
Proof.
  rewrite <- list_elem_of_In, elem_of_range. unfold x_min, x_max. lia.
Qed.

Lemma window_weights_pos (sigma : F) (n k x : Z) :
  slt zero sigma → 0 ≤ k `div` 2 → 0 ≤ x < n →
  slt zero (sum1 (map (λ u, weight1 sigma (u - x))
                      (range (x_min k x) (x_max n k x + 1)))).
Proof.
  intros Hs Hk Hx.
  apply (sum1_pos _ (weight1 sigma (x - x))).
  - intros w (u & <- & _)%in_map_iff. by apply weight1_pos.
  - apply in_map_iff. exists x. split; [done|].
    apply list_elem_of_In, elem_of_range. unfold x_min, x_max. lia.
  - by apply weight1_pos.
Qed.

Variable sigma : F.
Hypothesis Hsigma : slt zero sigma.

Let R : Z := ceil sigma * 3.
Let n : Z := 2 * R + 1.

Lemma kernel_side : 0 ≤ R ∧ n `div` 2 = R ∧ Z.of_nat (Z.to_nat n) = n.
Proof.
  pose proof (ceil_pos sigma Hsigma) as Hc. unfold n, R. split_and!; [lia| |lia].
  rewrite Z.add_comm, Z.mul_comm, Z.div_add by lia. done.
Qed.

(** The value the row pass computes. *)
Lemma row_pass_pixel (img : list (list (list F))) (Hh Ww c y x : Z) :
  0 ≤ y < Hh → 0 ≤ x < Ww →
  div (weighted_sum img (gaussian_kernel_1d sigma) Hh Ww 1 n c y x)
      (weight_sum (gaussian_kernel_1d sigma) Hh Ww 1 n y x)
  = div (sum1 (map (λ u, mul (at3 img c y u) (weight1 sigma (u - x)))
                   (range (x_min n x) (x_max Ww n x + 1))))
        (sum1 (map (λ u, weight1 sigma (u - x))
                   (range (x_min n x) (x_max Ww n x + 1)))).
Proof.
  intros Hy Hx. destruct kernel_side as (HR & Hhalf & _).
  unfold weighted_sum, weight_sum. rewrite (window_extent_1 Hh y Hy).
  rewrite !sum_window_row. f_equal.
  - apply sum1_map_ext. intros u Hu%in_window. rewrite Hhalf in *.
    change (1 `div` 2) with 0.
    replace (y - y + 0) with 0 by lia.
    rewrite gaussian_kernel_1d_at by (fold R; fold n; unfold n; lia).
    do 2 f_equal. fold R. lia.
  - apply sum1_map_ext. intros u Hu%in_window. rewrite Hhalf in *.
    change (1 `div` 2) with 0.
    replace (y - y + 0) with 0 by lia.
    rewrite gaussian_kernel_1d_at by (fold R; fold n; unfold n; lia).
    f_equal. fold R. lia.
Qed.

(** The column pass on the result of the row pass computes the value of
    the joint pass. *)
Lemma separable_pixel (img inter : list (list (list F))) (Hh Ww c y x : Z) :
  0 ≤ y < Hh → 0 ≤ x < Ww →
  (∀ v, 0 ≤ v < Hh →
     at3 inter c v x
     = div (weighted_sum img (gaussian_kernel_1d sigma) Hh Ww 1 n c v x)
           (weight_sum (gaussian_kernel_1d sigma) Hh Ww 1 n v x)) →
  div (weighted_sum inter (transpose (gaussian_kernel_1d sigma)) Hh Ww n 1 c y x)
      (weight_sum (transpose (gaussian_kernel_1d sigma)) Hh Ww n 1 y x)
  = div (weighted_sum img (gaussian_kernel_2d sigma) Hh Ww n n c y x)
        (weight_sum (gaussian_kernel_2d sigma) Hh Ww n n y x).
Proof.
  intros Hy Hx Hinter. destruct kernel_side as (HR & Hhalf & _).
  set (us := range (x_min n x) (x_max Ww n x + 1)).
  set (vs := range (y_min n y) (y_max Hh n y + 1)).
  assert (HA : sum1 (map (λ u, weight1 sigma (u - x)) us) ≠ zero).
  { destruct (window_weights_pos sigma Ww n x Hsigma) as [_ Hne];
      [rewrite Hhalf; lia|done|]. intros Heq. apply Hne. by rewrite <- Heq. }
  assert (HB : sum1 (map (λ v, weight1 sigma (v - y)) vs) ≠ zero).
  { destruct (window_weights_pos sigma Hh n y Hsigma) as [_ Hne];
      [rewrite Hhalf; lia|done|]. intros Heq. apply Hne. by rewrite <- Heq. }
  transitivity
    (div (sum1 (map (λ v, mul (div (sum1 (map (λ u, mul (at3 img c v u)
                                                      (weight1 sigma (u - x))) us))
                                   (sum1 (map (λ u, weight1 sigma (u - x)) us)))
                              (weight1 sigma (v - y))) vs))
         (sum1 (map (λ v, weight1 sigma (v - y)) vs))).
  - (* the column pass *)
    unfold weighted_sum, weight_sum.
    rewrite (window_extent_1_x Ww x Hx), !sum_window_col. fold vs. f_equal.
    + apply sum1_map_ext. intros v Hv%in_window. rewrite Hhalf in *.
      change (1 `div` 2) with 0. replace (x - x + 0) with 0 by lia.
      rewrite transpose_1d_at by (fold R; fold n; unfold n; lia).
      rewrite Hinter, row_pass_pixel by (try done; lia).
      do 2 f_equal. fold R. lia.
    + apply sum1_map_ext. intros v Hv%in_window. rewrite Hhalf in *.
      change (1 `div` 2) with 0. replace (x - x + 0) with 0 by lia.
      rewrite transpose_1d_at by (fold R; fold n; unfold n; lia).
      f_equal. fold R. lia.
  - (* the joint pass *)
    rewrite <- (product_average (λ v u, at3 img c v u)
                  (λ u, weight1 sigma (u - x)) (λ v, weight1 sigma (v - y)))
      by done.
    unfold weighted_sum, weight_sum. rewrite !sum_window_flat.
    fold us. fold vs. f_equal.
    + apply sum1_map_ext. intros [u v] Hin. simpl.
      apply in_prod_iff in Hin as [Hu%in_window Hv%in_window]. rewrite Hhalf in *.
      rewrite gaussian_kernel_2d_at by (try done; fold R; fold n; unfold n; lia).
      fold R. do 2 f_equal; f_equal; lia.
    + apply sum1_map_ext. intros [u v] Hin. simpl.
      apply in_prod_iff in Hin as [Hu%in_window Hv%in_window]. rewrite Hhalf in *.
      rewrite gaussian_kernel_2d_at by (try done; fold R; fold n; unfold n; lia).
      fold R. f_equal; f_equal; lia.
Qed.

End SeparablePixel.

(** ** The two modes of the pipeline *)

Section Shapes.
Context {F : Type} `{Scalar F}.

Lemma has_shape3_map3 {B} (f : B → F) (a : list (list (list B))) (c h w : nat) :
  length a = c →
  Forall (λ p, length p = h ∧ Forall (λ r : list B, length r = w) p) a →
  has_shape3 (map3 f a) c h w.
Proof.
  intros Hlen Hall. unfold map3. split; [by rewrite length_map|].
  apply Forall_fmap. eapply Forall_impl; [exact Hall|].
  intros p [Hp Hrows]. simpl. split; [by rewrite length_map|].
  apply Forall_fmap. eapply Forall_impl; [exact Hrows|].
  intros r Hr. simpl. by rewrite length_map.
Qed.

Lemma map3_shape (f : F → F) (a : list (list (list F))) (c h w : nat) :
  has_shape3 a c h w → has_shape3 (map3 f a) c h w.
Proof. intros [Hlen Hall]. by apply has_shape3_map3. Qed.

Lemma transpose_201_shape (r : raster) (h w c : nat) :
  raster_shape r h w c → (0 < h)%nat → (0 < w)%nat →
  length (transpose_201 0 r) = c ∧
  Forall (λ p, length p = h ∧ Forall (λ row : list Z, length row = w) p)
         (transpose_201 0 r).
Proof.
  intros [Hlen Hall] Hh Hw. unfold transpose_201.
  assert (Hc : length (default [] (head (default [] (head r)))) = c).
  { destruct r as [|row r]; simpl in *; [lia|].
    inversion Hall as [|?? [Hrow Hpx] _]; subst.
    destruct row as [|px row]; simpl in *; [lia|].
    by inversion Hpx. }
  rewrite Hc. split; [by rewrite length_map, length_seq|].
  apply Forall_fmap, Forall_forall. intros k _. simpl.
  split; [by rewrite length_map|].
  apply Forall_fmap. eapply Forall_impl; [exact Hall|].
  intros row [Hrow _]. simpl. by rewrite length_map.
Qed.

Lemma zeros_shape (c h w : nat) :
  has_shape3 (zeros (Z.of_nat c, Z.of_nat h, Z.of_nat w)) c h w.
Proof.
  unfold zeros. rewrite !Nat2Z.id. split; [by rewrite length_replicate|].
  apply Forall_replicate. split; [by rewrite length_replicate|].
  apply Forall_replicate. by rewrite length_replicate.
Qed.

(** Arrays of one shape with the same cells are equal. *)
Lemma array3_ext (a b : list (list (list F))) (c h w : nat) :
  has_shape3 a c h w → has_shape3 b c h w →
  (∀ k i j, 0 ≤ k < Z.of_nat c → 0 ≤ i < Z.of_nat h → 0 ≤ j < Z.of_nat w →
     getitem3 a k i j = getitem3 b k i j) →
  a = b.
Proof.
  intros Ha Hb Heq.
  apply (list_eq_same_length _ _ c); [by destruct Hb|by destruct Ha|].
  intros k p p' Hk Hp Hp'.
  pose proof (has_shape3_lookup _ _ _ _ _ _ Ha Hp) as Hsp.
  pose proof (has_shape3_lookup _ _ _ _ _ _ Hb Hp') as Hsp'.
  apply (list_eq_same_length _ _ h); [by destruct Hsp'|by destruct Hsp|].
  intros i r r' Hi Hr Hr'.
  pose proof (has_shape2_lookup _ _ _ _ _ Hsp Hr) as Hlr.
  pose proof (has_shape2_lookup _ _ _ _ _ Hsp' Hr') as Hlr'.
  apply (list_eq_same_length _ _ w); [done..|].
  intros j v v' Hj Hv Hv'.
  specialize (Heq (Z.of_nat k) (Z.of_nat i) (Z.of_nat j) ltac:(lia) ltac:(lia) ltac:(lia)).
  unfold getitem3, getitem2 in Heq.
  rewrite !getitem_in in Heq by (destruct Ha, Hb; lia).
  rewrite !Nat2Z.id, Hp, Hp' in Heq. simpl in Heq.
  rewrite !getitem_in in Heq by (destruct Hsp, Hsp'; lia).
  rewrite !Nat2Z.id, Hr, Hr' in Heq. simpl in Heq.
  rewrite !getitem_in in Heq by lia.
  rewrite !Nat2Z.id, Hv, Hv' in Heq. by injection Heq.
Qed.

End Shapes.

(** ** The pipeline around its [convolve] calls *)

Section Steps.
Context {F : Type} `{Scalar F} `{Exponential F} {P : Pillow}.

Variables (s : state F) (input_file output_file : string) (sigma : F).
Variable r : raster.
Hypothesis Hfile : files s !! input_file = Some (Bands r).

Let arr : list (list (list F)) :=
  map3 (λ v, div v (of_Z 255)) (map3 of_Z (transpose_201 0 r)).
Let n0 : loc := next_loc s.
Let n1 : loc := Pos.succ n0.
Let n2 : loc := Pos.succ n1.
Let n3 : loc := Pos.succ n2.
Let n4 : loc := Pos.succ n3.

(** The array handed to the imaging library for the output array [o]. *)
Let encoded (o : list (list (list F))) : raster :=
  map3 to_uint8 (transpose_120 zero (map3 (λ v, mul v (of_Z 255)) o)).

(** The state in which joint mode calls [convolve]: the image at [n0], the
    output buffer at [n1] and the kernel at [n2]. *)
Let joint_state : state F :=
  State (<[n2 := Array2 (gaussian_kernel_2d sigma)]>
           (<[n1 := Array3 (zeros (shape3 arr))]>
              (<[n0 := Array3 arr]> (heap s))))
        n3 (files s) (calls s).

(** If the [convolve] call of joint mode returns with [oj] in the output
    buffer, the run ends with the library call that saves the encoded [oj];
    until then no file is changed. *)
Lemma main_joint_steps (oj : list (list (list F))) :
  convolve n0 n1 n2 joint_state
  = (Ok tt, with_output n1 (logged n0 n1 n2 joint_state) oj) →
  ∃ s',
    main input_file output_file sigma false s = save output_file (encoded oj) s' ∧
    files s' = files s ∧
    heap s' !! n1 = Some (Array3 (map3 (λ v, mul v (of_Z 255)) oj)).
Proof.
  intros Hrun.
  remember (main input_file output_file sigma false s) as res eqn:Hres.
  unfold main in Hres.
  run_bind Hres ltac:(by apply read_image_found).
  fold arr n0 in Hres.
  run_bind Hres ltac:(apply load3_run; apply lookup_insert_eq).
  run_bind Hres ltac:(reflexivity). simpl next_loc in Hres.
  simpl negb in Hres. cbv iota in Hres.
  match type of Hres with
  | _ = bind ?blk _ ?st => set (block := blk) in Hres; set (s2 := st) in Hres
  end.
  assert (Hblock : block s2 = (Ok tt, with_output n1 (logged n0 n1 n2 joint_state) oj)).
  { unfold block. erewrite bind_ok; last reflexivity. exact Hrun. }
  run_bind Hres ltac:(exact Hblock).
  rewrite (write_image_run _ _ _ oj) in Hres by (simpl; apply lookup_insert_eq).
  eexists. split_and!; [exact Hres|reflexivity|]. simpl. apply lookup_insert_eq.
Qed.

(** The states in which separable mode calls [convolve]: for the row pass
    the kernel at [n2] and the intermediate buffer at [n3]; for the column
    pass, after the row pass has left [ot] in the intermediate buffer, the
    transposed kernel at [n4]. *)
Let row_state : state F :=
  State (<[n3 := Array3 (zeros (shape3 arr))]>
           (<[n2 := Array2 (gaussian_kernel_1d sigma)]>
              (<[n1 := Array3 (zeros (shape3 arr))]>
                 (<[n0 := Array3 arr]> (heap s)))))
        n4 (files s) (calls s).

Let column_state (ot : list (list (list F))) : state F :=
  let s5 := with_output n3 (logged n0 n3 n2 row_state) ot in
  State (<[n4 := Array2 (transpose (gaussian_kernel_1d sigma))]> (heap s5))
        (Pos.succ n4) (files s5) (calls s5).

Lemma main_separable_steps (ot os : list (list (list F))) :
  convolve n0 n3 n2 row_state
  = (Ok tt, with_output n3 (logged n0 n3 n2 row_state) ot) →
  convolve n3 n1 n4 (column_state ot)
  = (Ok tt, with_output n1 (logged n3 n1 n4 (column_state ot)) os) →
  ∃ s',
    main input_file output_file sigma true s = save output_file (encoded os) s' ∧
    files s' = files s ∧
    heap s' !! n1 = Some (Array3 (map3 (λ v, mul v (of_Z 255)) os)).
Proof.
  intros Hrun1 Hrun2.
  remember (main input_file output_file sigma true s) as res eqn:Hres.
  unfold main in Hres.
  run_bind Hres ltac:(by apply read_image_found).
  fold arr n0 in Hres.
  run_bind Hres ltac:(apply load3_run; apply lookup_insert_eq).
  run_bind Hres ltac:(reflexivity). simpl next_loc in Hres.
  simpl negb in Hres. cbv iota in Hres.
  match type of Hres with
  | _ = bind ?blk _ ?st => set (block := blk) in Hres; set (s2 := st) in Hres
  end.
  assert (Hblock : block s2
            = (Ok tt, with_output n1 (logged n3 n1 n4 (column_state ot)) os)).
  { unfold block. erewrite bind_ok; last reflexivity.
    erewrite bind_ok; last first.
    { apply load3_run. simpl.
      rewrite !lookup_insert_ne by (unfold n0; lia). apply lookup_insert_eq. }
    erewrite bind_ok; last reflexivity.
    erewrite bind_ok; last exact Hrun1.
    erewrite bind_ok; last first.
    { apply load2_run. simpl. rewrite lookup_insert_ne by (unfold n3, n2; lia).
      rewrite lookup_insert_ne by (unfold n3, n2; lia). apply lookup_insert_eq. }
    erewrite bind_ok; last reflexivity. exact Hrun2. }
  run_bind Hres ltac:(exact Hblock).
  rewrite (write_image_run _ _ _ os) in Hres by (simpl; apply lookup_insert_eq).
  eexists. split_and!; [exact Hres|reflexivity|]. simpl. apply lookup_insert_eq.
Qed.

End Steps.

Section TwoModes.
Context {F : Type} {S : Scalar F} {E : Exponential F}
        {A : ExactArith F} {L : ExpLaws F} {P : Pillow}.

(** [convolve] with a kernel of odd extents and positive weights. *)
Lemma convolve_positive_kernel (s : state F) image output kernel img out ker
    (C Hh Ww kH kW : nat) :
  heap s !! image = Some (Array3 img) →
  heap s !! output = Some (Array3 out) →
  heap s !! kernel = Some (Array2 ker) →
  image ≠ output →
  has_shape3 img C Hh Ww → has_shape3 out C Hh Ww → has_shape2 ker kH kW →
  Z.odd (Z.of_nat kH) = true → Z.odd (Z.of_nat kW) = true →
  (∀ i j, 0 ≤ i < Z.of_nat kH → 0 ≤ j < Z.of_nat kW → slt zero (at2 ker i j)) →
  ∃ out',
    convolve image output kernel s
    = (Ok tt, with_output output (logged image output kernel s) out') ∧
    has_shape3 out' C Hh Ww ∧
    ∀ c y x, 0 ≤ c < Z.of_nat C → 0 ≤ y < Z.of_nat Hh → 0 ≤ x < Z.of_nat Ww →
      getitem3 out' c y x
      = Some (div (weighted_sum img ker (Z.of_nat Hh) (Z.of_nat Ww)
                     (Z.of_nat kH) (Z.of_nat kW) c y x)
                  (weight_sum ker (Z.of_nat Hh) (Z.of_nat Ww)
                     (Z.of_nat kH) (Z.of_nat kW) y x)).
Proof.
  intros Hi Ho Hk Hne Himg Hout Hker HkH HkW Hpos.
  destruct (half_bounds _ HkH) as [HhH HhH2]; [lia|].
  destruct (half_bounds _ HkW) as [HhW HhW2]; [lia|].
  destruct (convolve_ok s image output kernel img out ker C Hh Ww C Hh Ww kH kW)
    as (out' & Hrun & Hshape & Hat & _); try done.
  - by apply taps_ok_odd.
  - by apply taps_ok_odd.
  - intros y x _ Hy Hx. apply is_zero_false.
    assert (Hws : slt zero (weight_sum ker (Z.of_nat Hh) (Z.of_nat Ww)
                              (Z.of_nat kH) (Z.of_nat kW) y x)).
    { apply weight_sum_pos; [done|done| |apply Hpos; lia|done|done].
      intros i j Hi' Hj'. by destruct (Hpos i j Hi' Hj'). }
    destruct Hws. congruence.
  - by exists out'.
Qed.

Variable sigma : F.
Hypothesis Hsigma : slt zero sigma.

Let n : nat := Z.to_nat (2 * (ceil sigma * 3) + 1).

Lemma side_odd : Z.of_nat n = 2 * (ceil sigma * 3) + 1 ∧ Z.odd (Z.of_nat n) = true.
Proof.
  pose proof (ceil_pos sigma Hsigma) as Hc.
  assert (Hn : Z.of_nat n = 2 * (ceil sigma * 3) + 1) by (unfold n; lia).
  split; [done|]. rewrite Hn, Z.add_comm, Z.odd_add_mul_2. done.
Qed.

Lemma kernel_2d_positive (i j : Z) :
  0 ≤ i < Z.of_nat n → 0 ≤ j < Z.of_nat n →
  slt zero (at2 (gaussian_kernel_2d sigma) i j).
Proof.
  destruct side_odd as [Hn _]. rewrite Hn. intros Hi Hj.
  rewrite gaussian_kernel_2d_at by done.
  apply mul_pos; by apply weight1_pos.
Qed.

Lemma kernel_1d_positive (i j : Z) :
  0 ≤ i < Z.of_nat 1 → 0 ≤ j < Z.of_nat n →
  slt zero (at2 (gaussian_kernel_1d sigma) i j).
Proof.
  destruct side_odd as [Hn _]. rewrite Hn. intros Hi Hj.
  assert (i = 0) as -> by lia.
  rewrite gaussian_kernel_1d_at by done. by apply weight1_pos.
Qed.

Lemma kernel_1d_t_positive (i j : Z) :
  0 ≤ i < Z.of_nat n → 0 ≤ j < Z.of_nat 1 →
  slt zero (at2 (transpose (gaussian_kernel_1d sigma)) i j).
Proof.
  destruct side_odd as [Hn _]. rewrite Hn. intros Hi Hj.
  assert (j = 0) as -> by lia.
  rewrite transpose_1d_at by done. by apply weight1_pos.
Qed.

Variables (s : state F) (input_file output_file : string).
Variables (r : raster) (h w c : nat).
Hypothesis Hfile : files s !! input_file = Some (Bands r).
Hypothesis Hraster : raster_shape r h w c.
Hypothesis Hpos : (0 < h ∧ 0 < w ∧ 0 < c)%nat.

Let arr : list (list (list F)) :=
  map3 (λ v, div v (of_Z 255)) (map3 of_Z (transpose_201 0 r)).

Lemma decoded_shape :
  has_shape3 arr c h w ∧ shape3 arr = (Z.of_nat c, Z.of_nat h, Z.of_nat w).
Proof.
  destruct (transpose_201_shape r h w c Hraster) as [Hlen Hall]; [lia..|].
  assert (Harr : has_shape3 arr c h w).
  { unfold arr. apply map3_shape. by apply has_shape3_map3. }
  split; [done|].
  destruct (shape3_of _ _ _ _ Harr) as (Hc & Hh & Hw).
  destruct (shape3 arr) as [[c0 h0] w0]. simpl in *.
  rewrite Hc, Hh, Hw by lia. done.
Qed.

(** The array handed to the imaging library for the output array [o]. *)
Let encoded (o : list (list (list F))) : raster :=
  map3 to_uint8 (transpose_120 zero (map3 (λ v, mul v (of_Z 255)) o)).

(** Joint mode: the [convolve] call returns normally; the output array
    holds the window averages under the 2-D kernel; the run ends with the
    library call that saves the encoded output array. *)
Lemma main_joint_run :
  ∃ oj s',
    has_shape3 oj c h w ∧
    (∀ k i j, 0 ≤ k < Z.of_nat c → 0 ≤ i < Z.of_nat h → 0 ≤ j < Z.of_nat w →
       getitem3 oj k i j
       = Some (div (weighted_sum arr (gaussian_kernel_2d sigma) (Z.of_nat h) (Z.of_nat w)
                      (Z.of_nat n) (Z.of_nat n) k i j)
                   (weight_sum (gaussian_kernel_2d sigma) (Z.of_nat h) (Z.of_nat w)
                      (Z.of_nat n) (Z.of_nat n) i j))) ∧
    main input_file output_file sigma false s = save output_file (encoded oj) s' ∧
    files s' = files s ∧
    heap s' !! Pos.succ (next_loc s) = Some (Array3 (map3 (λ v, mul v (of_Z 255)) oj)).
Proof.
  destruct decoded_shape as [Harr Hshape]. destruct side_odd as [Hn Hodd].
  set (n0 := next_loc s).
  set (s3 := State (<[Pos.succ (Pos.succ n0) := Array2 (gaussian_kernel_2d sigma)]>
                      (<[Pos.succ n0 := Array3 (zeros (shape3 arr))]>
                         (<[n0 := Array3 arr]> (heap s))))
                   (Pos.succ (Pos.succ (Pos.succ n0))) (files s) (calls s)).
  destruct (convolve_positive_kernel s3 n0 (Pos.succ n0) (Pos.succ (Pos.succ n0))
              arr (zeros (shape3 arr)) (gaussian_kernel_2d sigma) c h w n n)
    as (oj & Hrun & Hoj & Hat).
  { simpl. rewrite !lookup_insert_ne by lia. apply lookup_insert_eq. }
  { simpl. rewrite lookup_insert_ne by lia. apply lookup_insert_eq. }
  { simpl. apply lookup_insert_eq. }
  { lia. }
  { done. }
  { rewrite Hshape. apply zeros_shape. }
  { apply gaussian_kernel_2d_shape. }
  { done. }
  { done. }
  { apply kernel_2d_positive. }
  destruct (main_joint_steps s input_file output_file sigma r Hfile oj Hrun)
    as (s' & Hmain & Hfiles & Hheap).
  by exists oj, s'.
Qed.

(** Separable mode: both [convolve] calls return normally; the intermediate
    array holds the window averages of the image under the row kernel and
    the output array those of the intermediate array under the column
    kernel; the run ends with the library call that saves the encoded
    output array. *)
Lemma main_separable_run :
  ∃ ot os s',
    has_shape3 ot c h w ∧ has_shape3 os c h w ∧
    (∀ k i j, 0 ≤ k < Z.of_nat c → 0 ≤ i < Z.of_nat h → 0 ≤ j < Z.of_nat w →
       getitem3 ot k i j
       = Some (div (weighted_sum arr (gaussian_kernel_1d sigma) (Z.of_nat h) (Z.of_nat w)
                      (Z.of_nat 1) (Z.of_nat n) k i j)
                   (weight_sum (gaussian_kernel_1d sigma) (Z.of_nat h) (Z.of_nat w)
                      (Z.of_nat 1) (Z.of_nat n) i j))) ∧
    (∀ k i j, 0 ≤ k < Z.of_nat c → 0 ≤ i < Z.of_nat h → 0 ≤ j < Z.of_nat w →
       getitem3 os k i j
       = Some (div (weighted_sum ot (transpose (gaussian_kernel_1d sigma))
                      (Z.of_nat h) (Z.of_nat w) (Z.of_nat n) (Z.of_nat 1) k i j)
                   (weight_sum (transpose (gaussian_kernel_1d sigma))
                      (Z.of_nat h) (Z.of_nat w) (Z.of_nat n) (Z.of_nat 1) i j))) ∧
    main input_file output_file sigma true s = save output_file (encoded os) s' ∧
    files s' = files s ∧
    heap s' !! Pos.succ (next_loc s) = Some (Array3 (map3 (λ v, mul v (of_Z 255)) os)).
Proof.
  destruct decoded_shape as [Harr Hshape]. destruct side_odd as [Hn Hodd].
  set (n0 := next_loc s).
  (* the row pass *)
  set (s4 := State (<[Pos.succ (Pos.succ (Pos.succ n0)) := Array3 (zeros (shape3 arr))]>
                      (<[Pos.succ (Pos.succ n0) := Array2 (gaussian_kernel_1d sigma)]>
                         (<[Pos.succ n0 := Array3 (zeros (shape3 arr))]>
                            (<[n0 := Array3 arr]> (heap s)))))
                   (Pos.succ (Pos.succ (Pos.succ (Pos.succ n0)))) (files s) (calls s)).
  destruct (convolve_positive_kernel s4
              n0 (Pos.succ (Pos.succ (Pos.succ n0))) (Pos.succ (Pos.succ n0))
              arr (zeros (shape3 arr)) (gaussian_kernel_1d sigma) c h w 1 n)
    as (ot & Hrun1 & Hot & Hat1).
  { simpl. rewrite !lookup_insert_ne by lia. apply lookup_insert_eq. }
  { simpl. apply lookup_insert_eq. }
  { simpl. rewrite lookup_insert_ne by lia. apply lookup_insert_eq. }
  { lia. }
  { done. }
  { rewrite Hshape. apply zeros_shape. }
  { apply gaussian_kernel_1d_shape. }
  { done. }
  { done. }
  { apply kernel_1d_positive. }
  set (s5 := with_output (Pos.succ (Pos.succ (Pos.succ n0)))
               (logged n0 (Pos.succ (Pos.succ (Pos.succ n0))) (Pos.succ (Pos.succ n0)) s4)
               ot) in Hrun1.
  (* the column pass *)
  set (s6 := State (<[Pos.succ (Pos.succ (Pos.succ (Pos.succ n0))) :=
                       Array2 (transpose (gaussian_kernel_1d sigma))]> (heap s5))
                   (Pos.succ (Pos.succ (Pos.succ (Pos.succ (Pos.succ n0)))))
                   (files s5) (calls s5)).
  destruct (convolve_positive_kernel s6
              (Pos.succ (Pos.succ (Pos.succ n0))) (Pos.succ n0)
              (Pos.succ (Pos.succ (Pos.succ (Pos.succ n0))))
              ot (zeros (shape3 arr))
              (transpose (gaussian_kernel_1d sigma)) c h w n 1)
    as (os & Hrun2 & Hos & Hat2).
  { simpl. rewrite lookup_insert_ne by lia. apply lookup_insert_eq. }
  { simpl. rewrite !lookup_insert_ne by lia. apply lookup_insert_eq. }
  { simpl. apply lookup_insert_eq. }
  { lia. }
  { done. }
  { rewrite Hshape. apply zeros_shape. }
  { apply transpose_1d_shape. }
  { done. }
  { done. }
  { apply kernel_1d_t_positive. }
  destruct (main_separable_steps s input_file output_file sigma r Hfile ot os
              Hrun1 Hrun2) as (s' & Hmain & Hfiles & Hheap).
  by exists ot, os, s'.
Qed.

(** In exact arithmetic the two modes compute the same output array. *)
Lemma main_outputs_equal :
  ∃ o sj ss,
    has_shape3 o c h w ∧
    main input_file output_file sigma false s = save output_file (encoded o) sj ∧
    main input_file output_file sigma true s = save output_file (encoded o) ss ∧
    files sj = files s ∧ files ss = files s ∧
    heap sj !! Pos.succ (next_loc s) = Some (Array3 (map3 (λ v, mul v (of_Z 255)) o)) ∧
    heap ss !! Pos.succ (next_loc s) = Some (Array3 (map3 (λ v, mul v (of_Z 255)) o)).
Proof.
  destruct main_joint_run as (oj & sj & Hoj & Hatj & Hmj & Hfj & Hhj).
  destruct main_separable_run
    as (ot & os & ss & Hot & Hos & Hatt & Hats & Hms & Hfs & Hhs).
  destruct side_odd as [Hn _].
  assert (Heq : oj = os).
  { apply (array3_ext oj os c h w Hoj Hos). intros k i j Hk Hi Hj.
    rewrite Hatj, Hats by done. f_equal.
    rewrite Hn. change (Z.of_nat 1) with 1. symmetry.
    apply (separable_pixel sigma Hsigma); [done..|].
    intros v Hv. unfold at3. rewrite Hatt by done. simpl.
    rewrite Hn. done. }
  subst os. by exists oj, sj, ss.
Qed.

End TwoModes.

(** * Further properties of the code *)

(** ** What the output depends on *)

Section OutputContents.
Context {F : Type} `{Scalar F}.

(** X1: with an output buffer of the image's shape every cell of the buffer
    is overwritten: two runs of [convolve] on the same image and kernel into
    two buffers with different contents leave the same array in both. *)
Theorem convolve_overwrites_output (s : state F) image output1 output2 kernel
    img out1 out2 ker (C Hh Ww kH kW : nat) :
  heap s !! image = Some (Array3 img) →
  heap s !! output1 = Some (Array3 out1) →
  heap s !! output2 = Some (Array3 out2) →
  heap s !! kernel = Some (Array2 ker) →
  image ≠ output1 → image ≠ output2 →
  has_shape3 img C Hh Ww → has_shape3 out1 C Hh Ww → has_shape3 out2 C Hh Ww →
  has_shape2 ker kH kW →
  Z.odd (Z.of_nat kH) = true → Z.odd (Z.of_nat kW) = true →
  (∀ y x, 0 ≤ y < Z.of_nat Hh → 0 ≤ x < Z.of_nat Ww →
     is_zero (weight_sum ker (Z.of_nat Hh) (Z.of_nat Ww) (Z.of_nat kH) (Z.of_nat kW) y x)
     = false) →
  ∃ out',
    convolve image output1 kernel s
    = (Ok tt, with_output output1 (logged image output1 kernel s) out') ∧
    convolve image output2 kernel s
    = (Ok tt, with_output output2 (logged image output2 kernel s) out').
Proof.
  intros Hi Ho1 Ho2 Hk Hne1 Hne2 Himg Hout1 Hout2 Hker HkH HkW Hnz.
  destruct (convolve_ok s image output1 kernel img out1 ker C Hh Ww C Hh Ww kH kW)
    as (o1 & Hrun1 & Hs1 & Hat1 & _); try done.
  { by apply taps_ok_odd. } { by apply taps_ok_odd. }
  { intros y x _. apply Hnz. }
  destruct (convolve_ok s image output2 kernel img out2 ker C Hh Ww C Hh Ww kH kW)
    as (o2 & Hrun2 & Hs2 & Hat2 & _); try done.
  { by apply taps_ok_odd. } { by apply taps_ok_odd. }
  { intros y x _. apply Hnz. }
  exists o1. split; [done|].
  rewrite Hrun2. do 2 f_equal.
  apply (array3_ext o2 o1 C Hh Ww Hs2 Hs1).
  intros k i j Hk' Hi' Hj'. by rewrite Hat1, Hat2.
Qed.

Lemma sum_window_ext (f g : Z → Z → F) (us vs : list Z) :
  (∀ u v, u ∈ us → v ∈ vs → f v u = g v u) →
  sum_window f us vs = sum_window g us vs.
Proof.
  unfold sum_window. generalize (zero : F).
  induction us as [|u us IH]; intros acc Hfg; simpl; [done|].
  assert (Hin : ∀ acc,
    fold_left (λ acc v, add acc (f v u)) vs acc
    = fold_left (λ acc v, add acc (g v u)) vs acc).
  { assert (Hu : ∀ v, v ∈ vs → f v u = g v u) by (intros v Hv; apply Hfg; [left|done]).
    clear -Hu. induction vs as [|v vs IHv]; intros acc; simpl; [done|].
    rewrite (Hu v) by left. apply IHv. intros v' Hv'. apply Hu. by right. }
  rewrite Hin. apply IH. intros u' v Hu' Hv. apply Hfg; [by right|done].
Qed.

(** X2: the value written at a position of a channel depends only on
    the image values of that channel inside the window of the position:
    two images that agree there give the same value, whatever they hold
    elsewhere and in the other channels. *)
Theorem convolve_local (s : state F) image1 image2 output kernel
    img1 img2 out ker (C Hh Ww kH kW : nat) (c y x : Z) :
  heap s !! image1 = Some (Array3 img1) →
  heap s !! image2 = Some (Array3 img2) →
  heap s !! output = Some (Array3 out) →
  heap s !! kernel = Some (Array2 ker) →
  image1 ≠ output → image2 ≠ output →
  has_shape3 img1 C Hh Ww → has_shape3 img2 C Hh Ww → has_shape3 out C Hh Ww →
  has_shape2 ker kH kW →
  Z.odd (Z.of_nat kH) = true → Z.odd (Z.of_nat kW) = true →
  (∀ y x, 0 ≤ y < Z.of_nat Hh → 0 ≤ x < Z.of_nat Ww →
     is_zero (weight_sum ker (Z.of_nat Hh) (Z.of_nat Ww) (Z.of_nat kH) (Z.of_nat kW) y x)
     = false) →
  0 ≤ c < Z.of_nat C → 0 ≤ y < Z.of_nat Hh → 0 ≤ x < Z.of_nat Ww →
  (∀ v u, 0 ≤ v < Z.of_nat Hh → 0 ≤ u < Z.of_nat Ww →
     Z.abs (v - y) ≤ Z.of_nat kH `div` 2 → Z.abs (u - x) ≤ Z.of_nat kW `div` 2 →
     getitem3 img1 c v u = getitem3 img2 c v u) →
  ∃ out1 out2,
    convolve image1 output kernel s
    = (Ok tt, with_output output (logged image1 output kernel s) out1) ∧
    convolve image2 output kernel s
    = (Ok tt, with_output output (logged image2 output kernel s) out2) ∧
    getitem3 out1 c y x = getitem3 out2 c y x.
Proof.
  intros Hi1 Hi2 Ho Hk Hne1 Hne2 Himg1 Himg2 Hout Hker HkH HkW Hnz Hc Hy Hx Hagree.
  destruct (convolve_ok s image1 output kernel img1 out ker C Hh Ww C Hh Ww kH kW)
    as (o1 & Hrun1 & _ & Hat1 & _); try done.
  { by apply taps_ok_odd. } { by apply taps_ok_odd. }
  { intros y' x' _. apply Hnz. }
  destruct (convolve_ok s image2 output kernel img2 out ker C Hh Ww C Hh Ww kH kW)
    as (o2 & Hrun2 & _ & Hat2 & _); try done.
  { by apply taps_ok_odd. } { by apply taps_ok_odd. }
  { intros y' x' _. apply Hnz. }
  exists o1, o2. split_and!; [done..|].
  rewrite Hat1, Hat2 by done. do 2 f_equal.
  unfold weighted_sum. apply sum_window_ext.
  intros u v Hu%elem_of_range Hv%elem_of_range.
  unfold x_min, x_max in Hu. unfold y_min, y_max in Hv.
  unfold at3. rewrite Hagree by lia. done.
Qed.

End OutputContents.

(** ** The filter as a function of the image and the kernel *)

Section FilterAlgebra.
Context {F : Type} `{ExactArith F}.

Add Field scalar_field_alg : scalar_field.

(** [convolve] on an image, a distinct buffer of its shape and a kernel of
    odd extents with nonzero window sums. *)
Lemma convolve_average (s : state F) image output kernel img out ker
    (C Hh Ww kH kW : nat) :
  heap s !! image = Some (Array3 img) →
  heap s !! output = Some (Array3 out) →
  heap s !! kernel = Some (Array2 ker) →
  image ≠ output →
  has_shape3 img C Hh Ww → has_shape3 out C Hh Ww → has_shape2 ker kH kW →
  Z.odd (Z.of_nat kH) = true → Z.odd (Z.of_nat kW) = true →
  (∀ y x, 0 ≤ y < Z.of_nat Hh → 0 ≤ x < Z.of_nat Ww →
     weight_sum ker (Z.of_nat Hh) (Z.of_nat Ww) (Z.of_nat kH) (Z.of_nat kW) y x ≠ zero) →
  ∃ out',
    convolve image output kernel s
    = (Ok tt, with_output output (logged image output kernel s) out') ∧
    has_shape3 out' C Hh Ww ∧
    ∀ c y x, 0 ≤ c < Z.of_nat C → 0 ≤ y < Z.of_nat Hh → 0 ≤ x < Z.of_nat Ww →
      getitem3 out' c y x
      = Some (div (weighted_sum img ker (Z.of_nat Hh) (Z.of_nat Ww)
                     (Z.of_nat kH) (Z.of_nat kW) c y x)
                  (weight_sum ker (Z.of_nat Hh) (Z.of_nat Ww)
                     (Z.of_nat kH) (Z.of_nat kW) y x)).
Proof.
  intros Hi Ho Hk Hne Himg Hout Hker HkH HkW Hnz.
  destruct (convolve_ok s image output kernel img out ker C Hh Ww C Hh Ww kH kW)
    as (out' & Hrun & Hshape & Hat & _); try done.
  - by apply taps_ok_odd.
  - by apply taps_ok_odd.
  - intros y x _ Hy Hx. apply is_zero_false. by apply Hnz.
  - by exists out'.
Qed.

Lemma div_sle_mono (a b t : F) : slt zero t → sle a b → sle (div a t) (div b t).
Proof.
  intros Ht Hab.
  assert (Hne : t ≠ zero) by (destruct Ht; congruence).
  replace (div a t) with (mul a (inv t)) by (unfold inv; field; done).
  replace (div b t) with (mul b (inv t)) by (unfold inv; field; done).
  apply mul_sle_mono_r; [by apply inv_nonneg|done].
Qed.

(** The cell of a rectangular array as a value. *)
Lemma at3_getitem3 (a : list (list (list F))) (C Hh Ww : nat) c y x :
  has_shape3 a C Hh Ww →
  0 ≤ c < Z.of_nat C → 0 ≤ y < Z.of_nat Hh → 0 ≤ x < Z.of_nat Ww →
  getitem3 a c y x = Some (at3 a c y x).
Proof.
  intros Ha Hc Hy Hx.
  destruct (getitem3_in a C Hh Ww c y x) as (? & v & _ & _ & _ & Hv); [done..|].
  unfold at3. by rewrite Hv.
Qed.

(** X3: in exact arithmetic the output does not depend on the scale of the
    kernel: a kernel and its multiple by a nonzero constant give the same
    output, so a kernel need not be normalized. *)
Theorem convolve_kernel_scale_invariant (s : state F) image output kernel kernel'
    img out ker ker' (C Hh Ww kH kW : nat) (a : F) :
  heap s !! image = Some (Array3 img) →
  heap s !! output = Some (Array3 out) →
  heap s !! kernel = Some (Array2 ker) →
  heap s !! kernel' = Some (Array2 ker') →
  image ≠ output →
  has_shape3 img C Hh Ww → has_shape3 out C Hh Ww →
  has_shape2 ker kH kW → has_shape2 ker' kH kW →
  Z.odd (Z.of_nat kH) = true → Z.odd (Z.of_nat kW) = true →
  a ≠ zero →
  (∀ i j, 0 ≤ i < Z.of_nat kH → 0 ≤ j < Z.of_nat kW →
     at2 ker' i j = mul a (at2 ker i j)) →
  (∀ y x, 0 ≤ y < Z.of_nat Hh → 0 ≤ x < Z.of_nat Ww →
     weight_sum ker (Z.of_nat Hh) (Z.of_nat Ww) (Z.of_nat kH) (Z.of_nat kW) y x ≠ zero) →
  ∃ out',
    convolve image output kernel s
    = (Ok tt, with_output output (logged image output kernel s) out') ∧
    convolve image output kernel' s
    = (Ok tt, with_output output (logged image output kernel' s) out').
Proof.
  intros Hi Ho Hk Hk' Hne Himg Hout Hker Hker' HkH HkW Ha Hscale Hnz.
  destruct (half_bounds _ HkH) as [HhH HhH2]; [lia|].
  destruct (half_bounds _ HkW) as [HhW HhW2]; [lia|].
  assert (Hws : ∀ y x,
    weight_sum ker' (Z.of_nat Hh) (Z.of_nat Ww) (Z.of_nat kH) (Z.of_nat kW) y x
    = mul a (weight_sum ker (Z.of_nat Hh) (Z.of_nat Ww) (Z.of_nat kH) (Z.of_nat kW) y x)).
  { intros y x. unfold weight_sum. rewrite !sum_window_flat.
    rewrite <- sum1_map_scale. apply sum1_map_ext.
    intros [u v] Hin%window_pairs. simpl. apply Hscale; lia. }
  assert (Hvs : ∀ c y x,
    weighted_sum img ker' (Z.of_nat Hh) (Z.of_nat Ww) (Z.of_nat kH) (Z.of_nat kW) c y x
    = mul a (weighted_sum img ker (Z.of_nat Hh) (Z.of_nat Ww)
               (Z.of_nat kH) (Z.of_nat kW) c y x)).
  { intros c y x. unfold weighted_sum. rewrite !sum_window_flat.
    rewrite <- sum1_map_scale. apply sum1_map_ext.
    intros [u v] Hin%window_pairs. simpl. rewrite Hscale by lia. ring. }
  destruct (convolve_average s image output kernel img out ker C Hh Ww kH kW)
    as (o1 & Hrun1 & Hs1 & Hat1); try done.
  destruct (convolve_average s image output kernel' img out ker' C Hh Ww kH kW)
    as (o2 & Hrun2 & Hs2 & Hat2); try done.
  { intros y x Hy Hx. rewrite Hws. intros Hz.
    apply mul_eq_zero in Hz as [Hz|Hz]; [done|]. by apply (Hnz y x). }
  exists o1. split; [done|]. rewrite Hrun2. do 2 f_equal.
  apply (array3_ext o2 o1 C Hh Ww Hs2 Hs1).
  intros k i j Hk0 Hi0 Hj0. rewrite Hat1, Hat2 by done. f_equal.
  rewrite Hws, Hvs. field. split; [by apply Hnz|done].
Qed.

(** X4: in exact arithmetic [convolve] is linear in the image: the output
    for the image [a * img1 + b * img2] is [a] times the output for [img1]
    plus [b] times the output for [img2], cell by cell. *)
Theorem convolve_linear (s : state F) image1 image2 image3 output kernel
    img1 img2 img3 out ker (C Hh Ww kH kW : nat) (a b : F) :
  heap s !! image1 = Some (Array3 img1) →
  heap s !! image2 = Some (Array3 img2) →
  heap s !! image3 = Some (Array3 img3) →
  heap s !! output = Some (Array3 out) →
  heap s !! kernel = Some (Array2 ker) →
  image1 ≠ output → image2 ≠ output → image3 ≠ output →
  has_shape3 img1 C Hh Ww → has_shape3 img2 C Hh Ww → has_shape3 img3 C Hh Ww →
  has_shape3 out C Hh Ww → has_shape2 ker kH kW →
  Z.odd (Z.of_nat kH) = true → Z.odd (Z.of_nat kW) = true →
  (∀ c y x, 0 ≤ c < Z.of_nat C → 0 ≤ y < Z.of_nat Hh → 0 ≤ x < Z.of_nat Ww →
     at3 img3 c y x = add (mul a (at3 img1 c y x)) (mul b (at3 img2 c y x))) →
  (∀ y x, 0 ≤ y < Z.of_nat Hh → 0 ≤ x < Z.of_nat Ww →
     weight_sum ker (Z.of_nat Hh) (Z.of_nat Ww) (Z.of_nat kH) (Z.of_nat kW) y x ≠ zero) →
  ∃ out1 out2 out3,
    convolve image1 output kernel s
    = (Ok tt, with_output output (logged image1 output kernel s) out1) ∧
    convolve image2 output kernel s
    = (Ok tt, with_output output (logged image2 output kernel s) out2) ∧
    convolve image3 output kernel s
    = (Ok tt, with_output output (logged image3 output kernel s) out3) ∧
    ∀ c y x, 0 ≤ c < Z.of_nat C → 0 ≤ y < Z.of_nat Hh → 0 ≤ x < Z.of_nat Ww →
      getitem3 out3 c y x
      = Some (add (mul a (at3 out1 c y x)) (mul b (at3 out2 c y x))).
Proof.
  intros Hi1 Hi2 Hi3 Ho Hk Hne1 Hne2 Hne3 Himg1 Himg2 Himg3 Hout Hker HkH HkW
         Hcomb Hnz.
  destruct (convolve_average s image1 output kernel img1 out ker C Hh Ww kH kW)
    as (o1 & Hrun1 & Hs1 & Hat1); try done.
  destruct (convolve_average s image2 output kernel img2 out ker C Hh Ww kH kW)
    as (o2 & Hrun2 & Hs2 & Hat2); try done.
  destruct (convolve_average s image3 output kernel img3 out ker C Hh Ww kH kW)
    as (o3 & Hrun3 & Hs3 & Hat3); try done.
  exists o1, o2, o3. split_and!; [done..|].
  intros c y x Hc Hy Hx. rewrite Hat3 by done. f_equal.
  unfold at3 at 1 2. rewrite Hat1, Hat2 by done. simpl.
  assert (Hsum :
    weighted_sum img3 ker (Z.of_nat Hh) (Z.of_nat Ww) (Z.of_nat kH) (Z.of_nat kW) c y x
    = add (mul a (weighted_sum img1 ker (Z.of_nat Hh) (Z.of_nat Ww)
                    (Z.of_nat kH) (Z.of_nat kW) c y x))
          (mul b (weighted_sum img2 ker (Z.of_nat Hh) (Z.of_nat Ww)
                    (Z.of_nat kH) (Z.of_nat kW) c y x))).
  { unfold weighted_sum. rewrite !sum_window_flat.
    rewrite <- !sum1_map_scale, <- sum1_map_add. apply sum1_map_ext.
    intros [u v] Hin%window_pairs. simpl. rewrite Hcomb by lia. ring. }
  rewrite Hsum. field. by apply Hnz.
Qed.

(** A kernel of one weight, not zero: the output is the image. *)
Lemma convolve_one_weight (s : state F) image output kernel img out (w : F)
    (C Hh Ww : nat) :
  heap s !! image = Some (Array3 img) →
  heap s !! output = Some (Array3 out) →
  heap s !! kernel = Some (Array2 [[w]]) →
  image ≠ output →
  has_shape3 img C Hh Ww → has_shape3 out C Hh Ww →
  w ≠ zero →
  convolve image output kernel s
  = (Ok tt, with_output output (logged image output kernel s) img).
Proof.
  intros Hi Ho Hk Hne Himg Hout Hw.
  assert (Hker : has_shape2 [[w]] 1 1) by (split; [done|by repeat constructor]).
  assert (Hws : ∀ y x, 0 ≤ y < Z.of_nat Hh → 0 ≤ x < Z.of_nat Ww →
    weight_sum [[w]] (Z.of_nat Hh) (Z.of_nat Ww) (Z.of_nat 1) (Z.of_nat 1) y x = w).
  { intros y x Hy Hx. unfold weight_sum. change (Z.of_nat 1) with 1.
    rewrite (window_extent_1 _ y Hy), (window_extent_1_x _ x Hx).
    unfold sum_window. simpl. change (1 `div` 2) with 0.
    replace (y - y + 0) with 0 by lia. replace (x - x + 0) with 0 by lia.
    unfold at2. simpl. ring. }
  destruct (convolve_average s image output kernel img out [[w]] C Hh Ww 1 1)
    as (o & Hrun & Hs & Hat); try done.
  { intros y x Hy Hx. by rewrite Hws. }
  rewrite Hrun. do 2 f_equal.
  apply (array3_ext o img C Hh Ww Hs Himg).
  intros k i j Hk0 Hi0 Hj0. rewrite Hat by done.
  rewrite (at3_getitem3 img C Hh Ww) by done. f_equal.
  rewrite Hws by done.
  unfold weighted_sum. change (Z.of_nat 1) with 1.
  rewrite (window_extent_1 _ i Hi0), (window_extent_1_x _ j Hj0).
  unfold sum_window. simpl. change (1 `div` 2) with 0.
  replace (i - i + 0) with 0 by lia. replace (j - j + 0) with 0 by lia.
  unfold at2 at 1. simpl. field. done.
Qed.

Lemma sum1_map_all_zero {B} (g : B → F) (ps : list B) :
  (∀ p, p ∈ ps → g p = zero) → sum1 (map g ps) = zero.
Proof.
  induction ps as [|p ps IH]; intros Hg; simpl; [done|].
  rewrite sum1_cons, (Hg p), IH; [ring| |left].
  intros p' Hp'. apply Hg. by right.
Qed.

(** A sum with one term that is not zero. *)
Lemma sum1_map_single {B} (g : B → F) (ps : list B) (p0 : B) :
  NoDup ps → p0 ∈ ps → (∀ p, p ∈ ps → p ≠ p0 → g p = zero) →
  sum1 (map g ps) = g p0.
Proof.
  induction ps as [|p ps IH]; intros Hnd Hin Hg; simpl.
  - by apply elem_of_nil in Hin.
  - apply NoDup_cons in Hnd as [Hp Hnd]. rewrite sum1_cons.
    apply elem_of_cons in Hin as [->|Hin].
    + rewrite sum1_map_all_zero; [ring|].
      intros p' Hp'. apply Hg; [by right|]. intros ->. done.
    + rewrite (Hg p); [|left|intros ->; done].
      rewrite IH; [ring|done..|]. intros p' Hp'. apply Hg. by right.
Qed.

Lemma NoDup_range (a b : Z) : NoDup (range a b).
Proof.
  unfold range. apply NoDup_fmap_2_strong; [|apply NoDup_seq].
  intros i j _ _ Heq. lia.
Qed.

Lemma sum_window_single (f : Z → Z → F) (a b a' b' x y : Z) :
  a ≤ x < b → a' ≤ y < b' →
  (∀ u v, a ≤ u < b → a' ≤ v < b' → (u, v) ≠ (x, y) → f v u = zero) →
  sum_window f (range a b) (range a' b') = f y x.
Proof.
  intros Hx Hy Hf. rewrite sum_window_flat, sum1_list_prod. simpl.
  rewrite (sum1_map_single _ _ x); [|apply NoDup_range|by apply elem_of_range|].
  - rewrite (sum1_map_single _ _ y); [done|apply NoDup_range|by apply elem_of_range|].
    intros v Hv%elem_of_range Hne. apply Hf; [done..|]. congruence.
  - intros u Hu%elem_of_range Hne. apply sum1_map_all_zero.
    intros v Hv%elem_of_range. apply Hf; [done..|]. congruence.
Qed.

(** X5: a kernel of odd dimensions whose only nonzero weight is the one
    at the centre is the identity: [convolve] returns normally and the
    output buffer holds a copy of the image (in exact arithmetic). *)
Theorem convolve_centre_only_kernel (s : state F) image output kernel
    img out ker (C Hh Ww kH kW : nat) :
  heap s !! image = Some (Array3 img) →
  heap s !! output = Some (Array3 out) →
  heap s !! kernel = Some (Array2 ker) →
  image ≠ output →
  has_shape3 img C Hh Ww → has_shape3 out C Hh Ww → has_shape2 ker kH kW →
  Z.odd (Z.of_nat kH) = true → Z.odd (Z.of_nat kW) = true →
  at2 ker (Z.of_nat kH `div` 2) (Z.of_nat kW `div` 2) ≠ zero →
  (∀ i j, 0 ≤ i < Z.of_nat kH → 0 ≤ j < Z.of_nat kW →
     (i, j) ≠ (Z.of_nat kH `div` 2, Z.of_nat kW `div` 2) → at2 ker i j = zero) →
  convolve image output kernel s
  = (Ok tt, with_output output (logged image output kernel s) img).
Proof.
  intros Hi Ho Hk Hne Himg Hout Hker HkH HkW Hcentre Hzero.
  destruct (half_bounds _ HkH) as [HhH HhH2]; [lia|].
  destruct (half_bounds _ HkW) as [HhW HhW2]; [lia|].
  set (hh := Z.of_nat kH `div` 2) in *. set (hw := Z.of_nat kW `div` 2) in *.
  assert (Hoff : ∀ y x u v,
    x_min (Z.of_nat kW) x ≤ u < x_max (Z.of_nat Ww) (Z.of_nat kW) x + 1 →
    y_min (Z.of_nat kH) y ≤ v < y_max (Z.of_nat Hh) (Z.of_nat kH) y + 1 →
    (u, v) ≠ (x, y) → at2 ker (v - y + hh) (u - x + hw) = zero).
  { intros y x u v Hu Hv Hneq. unfold x_min, x_max in Hu. unfold y_min, y_max in Hv.
    fold hh in Hv. fold hw in Hu.
    apply Hzero; [lia..|]. intros [= Hv' Hu']. apply Hneq. f_equal; lia. }
  assert (Hin : ∀ y x, 0 ≤ y < Z.of_nat Hh → 0 ≤ x < Z.of_nat Ww →
    x_min (Z.of_nat kW) x ≤ x < x_max (Z.of_nat Ww) (Z.of_nat kW) x + 1 ∧
    y_min (Z.of_nat kH) y ≤ y < y_max (Z.of_nat Hh) (Z.of_nat kH) y + 1).
  { intros y x Hy Hx. unfold x_min, x_max, y_min, y_max. fold hh hw. lia. }
  assert (Hws : ∀ y x, 0 ≤ y < Z.of_nat Hh → 0 ≤ x < Z.of_nat Ww →
    weight_sum ker (Z.of_nat Hh) (Z.of_nat Ww) (Z.of_nat kH) (Z.of_nat kW) y x
    = at2 ker hh hw).
  { intros y x Hy Hx. destruct (Hin y x Hy Hx) as [Hxin Hyin].
    unfold weight_sum. fold hh hw.
    rewrite (sum_window_single _ _ _ _ _ x y Hxin Hyin).
    - f_equal; lia.
    - intros u v Hu Hv Hneq. by apply (Hoff y x). }
  destruct (convolve_average s image output kernel img out ker C Hh Ww kH kW)
    as (o & Hrun & Hs & Hat); try done.
  { intros y x Hy Hx. by rewrite Hws. }
  rewrite Hrun. do 2 f_equal.
  apply (array3_ext o img C Hh Ww Hs Himg).
  intros k i j Hk0 Hi0 Hj0. rewrite Hat by done.
  rewrite (at3_getitem3 img C Hh Ww) by done. f_equal.
  rewrite Hws by done. destruct (Hin i j Hi0 Hj0) as [Hxin Hyin].
  unfold weighted_sum. fold hh hw.
  rewrite (sum_window_single _ _ _ _ _ j i Hxin Hyin).
  - replace (i - i + hh) with hh by lia. replace (j - j + hw) with hw by lia.
    field. done.
  - intros u v Hu Hv Hneq. rewrite (Hoff i j) by done. ring.
Qed.

Lemma sum1_map_mono {B} (f g : B → F) (ps : list B) :
  (∀ p, In p ps → sle (f p) (g p)) → sle (sum1 (map f ps)) (sum1 (map g ps)).
Proof.
  induction ps as [|p ps IH]; intros Hfg; simpl.
  - apply sle_refl.
  - rewrite !sum1_cons. apply add_sle_compat; [apply Hfg; by left|].
    apply IH. intros p' Hp'. apply Hfg. by right.
Qed.

(** X6: in exact arithmetic, with non-negative weights and a positive
    centre weight, [convolve] preserves the order of images: if one image
    is nowhere above another, its output is nowhere above the other's
    output. *)
Theorem convolve_monotone (s : state F) image1 image2 output kernel
    img1 img2 out ker (C Hh Ww kH kW : nat) :
  heap s !! image1 = Some (Array3 img1) →
  heap s !! image2 = Some (Array3 img2) →
  heap s !! output = Some (Array3 out) →
  heap s !! kernel = Some (Array2 ker) →
  image1 ≠ output → image2 ≠ output →
  has_shape3 img1 C Hh Ww → has_shape3 img2 C Hh Ww → has_shape3 out C Hh Ww →
  has_shape2 ker kH kW →
  Z.odd (Z.of_nat kH) = true → Z.odd (Z.of_nat kW) = true →
  (∀ i j, 0 ≤ i < Z.of_nat kH → 0 ≤ j < Z.of_nat kW → sle zero (at2 ker i j)) →
  slt zero (at2 ker (Z.of_nat kH `div` 2) (Z.of_nat kW `div` 2)) →
  (∀ c y x, 0 ≤ c < Z.of_nat C → 0 ≤ y < Z.of_nat Hh → 0 ≤ x < Z.of_nat Ww →
     sle (at3 img1 c y x) (at3 img2 c y x)) →
  ∃ out1 out2,
    convolve image1 output kernel s
    = (Ok tt, with_output output (logged image1 output kernel s) out1) ∧
    convolve image2 output kernel s
    = (Ok tt, with_output output (logged image2 output kernel s) out2) ∧
    ∀ c y x, 0 ≤ c < Z.of_nat C → 0 ≤ y < Z.of_nat Hh → 0 ≤ x < Z.of_nat Ww →
      sle (at3 out1 c y x) (at3 out2 c y x).
Proof.
  intros Hi1 Hi2 Ho Hk Hne1 Hne2 Himg1 Himg2 Hout Hker HkH HkW Hnn Hcentre Hle.
  destruct (half_bounds _ HkH) as [HhH HhH2]; [lia|].
  destruct (half_bounds _ HkW) as [HhW HhW2]; [lia|].
  assert (Hpos : ∀ y x, 0 ≤ y < Z.of_nat Hh → 0 ≤ x < Z.of_nat Ww →
    slt zero (weight_sum ker (Z.of_nat Hh) (Z.of_nat Ww)
                (Z.of_nat kH) (Z.of_nat kW) y x)).
  { intros y x Hy Hx. by apply weight_sum_pos. }
  assert (Hnz : ∀ y x, 0 ≤ y < Z.of_nat Hh → 0 ≤ x < Z.of_nat Ww →
    weight_sum ker (Z.of_nat Hh) (Z.of_nat Ww) (Z.of_nat kH) (Z.of_nat kW) y x ≠ zero).
  { intros y x Hy Hx. destruct (Hpos y x Hy Hx). congruence. }
  destruct (convolve_average s image1 output kernel img1 out ker C Hh Ww kH kW)
    as (o1 & Hrun1 & Hs1 & Hat1); try done.
  destruct (convolve_average s image2 output kernel img2 out ker C Hh Ww kH kW)
    as (o2 & Hrun2 & Hs2 & Hat2); try done.
  exists o1, o2. split_and!; [done..|].
  intros c y x Hc Hy Hx. unfold at3 at 1 2. rewrite Hat1, Hat2 by done. simpl.
  apply div_sle_mono; [by apply Hpos|].
  unfold weighted_sum. rewrite !sum_window_flat.
  apply sum1_map_mono. intros [u v] Hin%window_pairs. simpl.
  apply mul_sle_mono_r; [apply Hnn; lia|apply Hle; lia].
Qed.

End FilterAlgebra.

(** ** Errors and empty images *)

Section LoopExit.
Context {F : Type} `{Scalar F}.

(** A loop on states of the form [st o] whose iterations either succeed,
    outside [bad], or raise [e]: if an element of the list is in [bad], the
    loop raises [e]. *)
Lemma for_raises {A O} (l : list A) (body : A → M F unit) (step : O → A → O)
    (st : O → state F) (Inv : O → Prop) (bad : A → Prop) (e : exn) :
  (∀ a o, a ∈ l → Inv o →
     (body a (st o) = (Ok tt, st (step o a)) ∧ Inv (step o a) ∧ ¬ bad a) ∨
     (∃ o', body a (st o) = (Raise e, st o') ∧ Inv o')) →
  (∃ a, a ∈ l ∧ bad a) →
  ∀ o, Inv o → ∃ o', for_ l body (st o) = (Raise e, st o') ∧ Inv o'.
Proof.
  induction l as [|a l IH]; intros Hbody (a0 & Hin & Hbad) o Ho.
  - by apply elem_of_nil in Hin.
  - simpl. destruct (Hbody a o) as [(Hrun & Hinv & Hgood)|(o' & Hrun & Hinv)];
      [left|done| |].
    + rewrite (bind_ok _ _ _ _ _ Hrun). apply IH; [| |done].
      * intros a' o' Ha'. apply Hbody. by right.
      * apply elem_of_cons in Hin as [->|Hin]; [done|]. by exists a0.
    + exists o'. split; [|done]. by rewrite (bind_raise _ _ _ _ _ Hrun).
Qed.

End LoopExit.

Section ZeroSum.
Context {F : Type} `{Scalar F}.

Variables (image output kernel : loc).
Variables (img : list (list (list F))) (ker : list (list F)).
Variables (C Hh Ww kh kw : nat).
Hypothesis Himg : has_shape3 img C Hh Ww.
Hypothesis Hshape : shape3 img = (Z.of_nat C, Z.of_nat Hh, Z.of_nat Ww).
Hypothesis Hker : has_shape2 ker kh kw.
Hypothesis Hkshape : shape2 ker = (Z.of_nat kh, Z.of_nat kw).
Hypothesis Htaps_h : taps_ok (Z.of_nat kh) (Z.of_nat Hh).
Hypothesis Htaps_w : taps_ok (Z.of_nat kw) (Z.of_nat Ww).
Hypothesis Hne : image ≠ output.
Hypothesis Hko : kernel ≠ output.
Hypothesis HC : (0 < C)%nat.

(** One iteration of the channel loop: it writes its cell, or raises when
    the window's weights sum to zero. *)
Lemma channel_outcome (s : state F) x y c o :
  heap s !! image = Some (Array3 img) →
  heap s !! kernel = Some (Array2 ker) →
  0 ≤ x < Z.of_nat Ww → 0 ≤ y < Z.of_nat Hh → 0 ≤ c < Z.of_nat C →
  has_shape3 o C Hh Ww →
  let body :=
    (acc <- accumulate image kernel (Z.of_nat kh `div` 2) (Z.of_nat kw `div` 2) c y x
              (Z.max 0 (x - Z.of_nat kw `div` 2))
              (Z.min (Z.of_nat Ww - 1) (x + Z.of_nat kw `div` 2))
              (Z.max 0 (y - Z.of_nat kh `div` 2))
              (Z.min (Z.of_nat Hh - 1) (y + Z.of_nat kh `div` 2)) ;;
     let '(value, total) := acc in
     q <- truediv value total ;;
     write3 output c y x q) in
  (body (with_output output s o)
   = (Ok tt, with_output output s (conv_step img ker o x y c)) ∧
   has_shape3 (conv_step img ker o x y c) C Hh Ww ∧
   is_zero (window_total img ker y x) = false) ∨
  (body (with_output output s o) = (Raise ZeroDivisionError, with_output output s o) ∧
   is_zero (window_total img ker y x) = true).
Proof.
  intros Hi Hk Hx Hy Hc Ho body.
  destruct (is_zero (window_total img ker y x)) eqn:Hz.
  - right. split; [|done]. unfold body.
    erewrite bind_ok; last first.
    { apply (accumulate_run image kernel img ker C Hh Ww kh kw); try done.
      - simpl. by rewrite lookup_insert_ne.
      - simpl. by rewrite lookup_insert_ne. }
    simpl. unfold truediv. rewrite Hz. done.
  - left.
    destruct (setitem3_in o C Hh Ww c y x (conv_pixel img ker c y x))
      as (o' & Hset & Ho' & _); [done|lia..|].
    unfold conv_step. rewrite Hset. simpl. split_and!; [|done..].
    unfold body.
    erewrite bind_ok; last first.
    { apply (accumulate_run image kernel img ker C Hh Ww kh kw); try done.
      - simpl. by rewrite lookup_insert_ne.
      - simpl. by rewrite lookup_insert_ne. }
    simpl. unfold truediv. rewrite Hz.
    erewrite bind_ok; last done.
    unfold write3. erewrite bind_ok; last first.
    { apply load3_run. simpl. apply lookup_insert_eq. }
    fold (conv_pixel img ker c y x). rewrite Hset.
    unfold store. by rewrite <- (with_output_twice output s o o').
Qed.

(** If the weights of some window sum to zero, the run raises; the output
    buffer keeps its shape. *)
Lemma convolve_raises (s : state F) out y0 x0 :
  heap s !! image = Some (Array3 img) →
  heap s !! kernel = Some (Array2 ker) →
  heap s !! output = Some (Array3 out) →
  has_shape3 out C Hh Ww →
  0 ≤ y0 < Z.of_nat Hh → 0 ≤ x0 < Z.of_nat Ww →
  is_zero (window_total img ker y0 x0) = true →
  ∃ out', convolve image output kernel s
          = (Raise ZeroDivisionError,
             with_output output (logged image output kernel s) out') ∧
          has_shape3 out' C Hh Ww.
Proof.
  intros Hi Hk Ho Hout Hy0 Hx0 Hz. unfold convolve.
  erewrite bind_ok; last reflexivity.
  fold (logged image output kernel s). set (s1 := logged image output kernel s).
  erewrite bind_ok; last by apply load3_run.
  rewrite Hshape.
  erewrite bind_ok; last by apply load2_run.
  rewrite Hkshape.
  set (Inv := λ o : list (list (list F)), has_shape3 o C Hh Ww).
  set (row := λ (x : Z) (o : list (list (list F))) (y : Z),
         fold_left (λ o c, conv_step img ker o x y c) (range 0 (Z.of_nat C)) o).
  enough (Hgen : ∀ s0, s0 = with_output output s1 out →
    ∃ out', for_ (range 0 (Z.of_nat Ww)) (λ x,
              for_ (range 0 (Z.of_nat Hh)) (λ y,
                for_ (range 0 (Z.of_nat C)) (λ c,
                  acc <- accumulate image kernel (Z.of_nat kh `div` 2)
                           (Z.of_nat kw `div` 2) c y x
                           (Z.max 0 (x - Z.of_nat kw `div` 2))
                           (Z.min (Z.of_nat Ww - 1) (x + Z.of_nat kw `div` 2))
                           (Z.max 0 (y - Z.of_nat kh `div` 2))
                           (Z.min (Z.of_nat Hh - 1) (y + Z.of_nat kh `div` 2)) ;;
                  let '(value, total) := acc in
                  q <- truediv value total ;;
                  write3 output c y x q))) s0
            = (Raise ZeroDivisionError, with_output output s1 out') ∧ Inv out').
  { apply Hgen. symmetry. by apply with_output_id. }
  intros s0 ->.
  apply (for_raises _ _
           (λ o x, fold_left (row x) (range 0 (Z.of_nat Hh)) o)
           (with_output output s1) Inv
           (λ x, ∃ y, 0 ≤ y < Z.of_nat Hh ∧ is_zero (window_total img ker y x) = true));
    [|exists x0; split; [apply elem_of_range; lia|by exists y0]|done].
  intros x o Hx%elem_of_range Hinv.
  (* the rows of column [x]: none or one of them has a zero sum *)
  destruct (decide (Exists (λ y, is_zero (window_total img ker y x) = true)
                           (range 0 (Z.of_nat Hh)))) as [Hex|Hall].
  - right.
    apply (for_raises _ _ (row x) (with_output output s1) Inv
             (λ y, is_zero (window_total img ker y x) = true)); [| |done].
    + clear o Hinv. intros y o Hy%elem_of_range Hinv.
      destruct (is_zero (window_total img ker y x)) eqn:Hzy.
      * right.
        apply (for_raises _ _ (λ o c, conv_step img ker o x y c)
                 (with_output output s1) Inv (λ _, True)); [| |done].
        -- clear o Hinv. intros c o Hc%elem_of_range Hinv.
           destruct (channel_outcome s1 x y c o) as [(_ & _ & Hf)|[Hrun _]];
             [done..|congruence|].
           right. by exists o.
        -- exists 0. split; [apply elem_of_range; lia|done].
      * left. split_and!; [| |done].
        -- apply (for_fold _ _ _ (with_output output s1) Inv); [|done].
           clear o Hinv. intros c o Hc%elem_of_range Hinv.
           destruct (channel_outcome s1 x y c o) as [(Hrun & Hs & _)|[_ Hf]];
             [done..| |congruence].
           done.
        -- apply (fold_left_inv _ Inv); [|done].
           clear o Hinv. intros o c Hc%elem_of_range Hinv.
           by apply (conv_step_shape image output kernel img ker C Hh Ww C Hh Ww).
    + apply Exists_exists in Hex as (y & Hy & Hzy). by exists y.
  - left.
    assert (Hgood : ∀ y, 0 ≤ y < Z.of_nat Hh →
              is_zero (window_total img ker y x) = false).
    { intros y Hy. destruct (is_zero (window_total img ker y x)) eqn:Hzy; [|done].
      exfalso. apply Hall. apply Exists_exists. exists y.
      split; [by apply elem_of_range|done]. }
    split_and!.
    + apply (for_fold _ _ _ (with_output output s1) Inv); [|done].
      clear o Hinv. intros y o Hy%elem_of_range Hinv.
      apply (for_fold _ _ _ (with_output output s1) Inv); [|done].
      clear o Hinv. intros c o Hc%elem_of_range Hinv.
      destruct (channel_outcome s1 x y c o) as [(Hrun & Hs & _)|[_ Hf]];
        [done..| |rewrite Hgood in Hf by done; congruence].
      done.
    + apply (fold_left_inv _ Inv); [|done].
      clear o Hinv. intros o y Hy%elem_of_range Hinv.
      apply (fold_left_inv _ Inv); [|done].
      clear o Hinv. intros o c Hc%elem_of_range Hinv.
      by apply (conv_step_shape image output kernel img ker C Hh Ww C Hh Ww).
    + intros (y & Hy & Hzy). rewrite Hgood in Hzy by done. congruence.
Qed.

End ZeroSum.

Section ErrorsAndEdges.
Context {F : Type} `{Scalar F}.

(** X7: if the kernel weights inside the window of some position sum to
    zero, [convolve] raises [ZeroDivisionError]: the nonzero window sums the
    window-average formula assumes are needed.  The cells written before
    the failing division stay in the output buffer; nothing else changes. *)
Theorem convolve_zero_window_sum_raises (s : state F) image output kernel
    img out ker (C Hh Ww kH kW : nat) (y0 x0 : Z) :
  heap s !! image = Some (Array3 img) →
  heap s !! output = Some (Array3 out) →
  heap s !! kernel = Some (Array2 ker) →
  image ≠ output →
  has_shape3 img C Hh Ww → has_shape3 out C Hh Ww → has_shape2 ker kH kW →
  Z.odd (Z.of_nat kH) = true → Z.odd (Z.of_nat kW) = true →
  (0 < C)%nat → 0 ≤ y0 < Z.of_nat Hh → 0 ≤ x0 < Z.of_nat Ww →
  is_zero (weight_sum ker (Z.of_nat Hh) (Z.of_nat Ww) (Z.of_nat kH) (Z.of_nat kW) y0 x0)
  = true →
  ∃ out',
    convolve image output kernel s
    = (Raise ZeroDivisionError, with_output output (logged image output kernel s) out') ∧
    has_shape3 out' C Hh Ww.
Proof.
  intros Hi Ho Hk Hne Himg Hout Hker HkH HkW HC Hy0 Hx0 Hz.
  assert (HkH0 : (0 < kH)%nat) by (destruct kH; [done|lia]).
  destruct (shape3_of _ _ _ _ Himg) as (Hc & Hh' & Hw').
  destruct (shape2_of _ _ _ Hker) as (Hkh' & Hkw').
  assert (Hshape : shape3 img = (Z.of_nat C, Z.of_nat Hh, Z.of_nat Ww)).
  { destruct (shape3 img) as [[c0 h0] w0]. simpl in *.
    rewrite Hc, Hh', Hw' by lia. done. }
  assert (Hkshape : shape2 ker = (Z.of_nat kH, Z.of_nat kW)).
  { destruct (shape2 ker) as [h0 w0]. simpl in *. rewrite Hkh', Hkw' by lia. done. }
  assert (Hko : kernel ≠ output) by (intros ->; congruence).
  apply (convolve_raises image output kernel img ker C Hh Ww kH kW)
    with (out := out) (y0 := y0) (x0 := x0); try done.
  - by apply taps_ok_odd.
  - by apply taps_ok_odd.
  - unfold window_total. by rewrite Hshape, Hkshape.
Qed.

(** X8: on an image with no pixels (no channel, no row or no column)
    [convolve] returns normally and writes nothing, whatever the weights
    and the extents of the 2-D kernel and the contents and the shape of the
    3-D output buffer are. *)
Theorem convolve_empty_image (s : state F) image output kernel img out ker
    (C Hh Ww : nat) :
  heap s !! image = Some (Array3 img) →
  heap s !! output = Some (Array3 out) →
  heap s !! kernel = Some (Array2 ker) →
  has_shape3 img C Hh Ww →
  (C = 0 ∨ Hh = 0 ∨ Ww = 0)%nat →
  convolve image output kernel s = (Ok tt, logged image output kernel s).
Proof.
  intros Hi _ Hk Himg Hempty.
  destruct (has_shape3_read _ _ _ _ Himg)
    as (H0 & W0 & Hshape & _ & HH0 & HW0 & _ & _ & HWH & HHC).
  assert (W0 = 0%nat) as -> by lia.
  unfold convolve.
  erewrite bind_ok; last reflexivity.
  fold (logged image output kernel s).
  erewrite bind_ok; last by apply load3_run.
  rewrite Hshape.
  erewrite bind_ok; last by apply load2_run.
  destruct (shape2 ker) as [kh kw]. reflexivity.
Qed.

End ErrorsAndEdges.

(** ** Positions whose window lies inside the image *)

Section Interior.
Context {F : Type} `{ExactArith F}.

Add Field scalar_field_inner : scalar_field.

Lemma range_shift (a n : Z) : range a (a + n) = map (λ j, a + j) (range 0 n).
Proof.
  unfold range. rewrite List.map_map.
  replace (a + n - a) with (n - 0) by lia.
  apply map_ext. intros i. lia.
Qed.

(** A window sum over a full rectangle, indexed from its corner and summed
    row by row. *)
Lemma sum_window_rectangle (f : Z → Z → F) (a b n m : Z) :
  sum_window f (range a (a + n)) (range b (b + m))
  = sum1 (map (λ p : Z * Z, f (b + p.1) (a + p.2))
              (list_prod (range 0 m) (range 0 n))).
Proof.
  rewrite sum_window_flat, !sum1_list_prod. simpl.
  rewrite (range_shift a n), (range_shift b m), List.map_map.
  rewrite (sum1_map_ext _ (λ j, sum1 (map (λ i, f (b + i) (a + j)) (range 0 m)))).
  - apply (sum1_swap (λ j i, f (b + i) (a + j))).
  - intros j _. by rewrite List.map_map.
Qed.

(** A rectangular array is the table of its elements. *)
Lemma table_of (ker : list (list F)) (kh kw : nat) :
  has_shape2 ker kh kw →
  ker = map (λ i, map (λ j, at2 ker i j) (range 0 (Z.of_nat kw)))
            (range 0 (Z.of_nat kh)).
Proof.
  intros Hker.
  apply (list_eq_same_length _ _ kh).
  { rewrite length_map, length_range. lia. }
  { by destruct Hker. }
  intros i r r' Hi Hr Hr'.
  rewrite list_lookup_fmap, lookup_range in Hr' by lia. simpl in Hr'.
  injection Hr' as <-.
  pose proof (has_shape2_lookup _ _ _ _ _ Hker Hr) as Hlen.
  apply (list_eq_same_length _ _ kw).
  { rewrite length_map, length_range. lia. }
  { done. }
  intros j v v' Hj Hv Hv'.
  rewrite list_lookup_fmap, lookup_range in Hv' by lia. simpl in Hv'.
  injection Hv' as <-.
  rewrite !Z.add_0_l.
  unfold at2, getitem2. rewrite getitem_in by (destruct Hker; lia).
  rewrite Nat2Z.id, Hr. simpl. rewrite getitem_in by lia.
  by rewrite Nat2Z.id, Hv.
Qed.

Lemma sum2_table (ker : list (list F)) (kh kw : nat) :
  has_shape2 ker kh kw →
  sum2 ker = sum1 (map (λ p : Z * Z, at2 ker p.1 p.2)
                       (list_prod (range 0 (Z.of_nat kh)) (range 0 (Z.of_nat kw)))).
Proof.
  intros Hker. rewrite sum1_list_prod. simpl.
  unfold sum2. rewrite sum1_concat.
  rewrite (table_of ker kh kw Hker) at 1. by rewrite List.map_map.
Qed.

(** X9: at a position whose window lies inside the image the divisor is
    the sum of all the kernel weights and the value written is the plain
    weighted sum of the image under the kernel, placed with its centre on
    the position and not flipped, divided by that sum (in exact
    arithmetic); for a normalized kernel it is the weighted sum itself. *)
Theorem convolve_interior_correlation (s : state F) image output kernel
    img out ker (C Hh Ww kH kW : nat) :
  heap s !! image = Some (Array3 img) →
  heap s !! output = Some (Array3 out) →
  heap s !! kernel = Some (Array2 ker) →
  image ≠ output →
  has_shape3 img C Hh Ww → has_shape3 out C Hh Ww → has_shape2 ker kH kW →
  Z.odd (Z.of_nat kH) = true → Z.odd (Z.of_nat kW) = true →
  (∀ y x, 0 ≤ y < Z.of_nat Hh → 0 ≤ x < Z.of_nat Ww →
     weight_sum ker (Z.of_nat Hh) (Z.of_nat Ww) (Z.of_nat kH) (Z.of_nat kW) y x ≠ zero) →
  ∃ out',
    convolve image output kernel s
    = (Ok tt, with_output output (logged image output kernel s) out') ∧
    ∀ c y x, 0 ≤ c < Z.of_nat C →
      Z.of_nat kH `div` 2 ≤ y < Z.of_nat Hh - Z.of_nat kH `div` 2 →
      Z.of_nat kW `div` 2 ≤ x < Z.of_nat Ww - Z.of_nat kW `div` 2 →
      getitem3 out' c y x
      = Some (div (correlation img ker (Z.of_nat kH) (Z.of_nat kW) c y x) (sum2 ker)) ∧
      (sum2 ker = one →
       getitem3 out' c y x
       = Some (correlation img ker (Z.of_nat kH) (Z.of_nat kW) c y x)).
Proof.
  intros Hi Ho Hk Hne Himg Hout Hker HkH HkW Hnz.
  destruct (half_bounds _ HkH) as [HhH HhH2]; [lia|].
  destruct (half_bounds _ HkW) as [HhW HhW2]; [lia|].
  destruct (convolve_average s image output kernel img out ker C Hh Ww kH kW)
    as (out' & Hrun & Hs & Hat); try done.
  exists out'. split; [done|]. intros c y x Hc Hy Hx.
  set (hh := Z.of_nat kH `div` 2) in *. set (hw := Z.of_nat kW `div` 2) in *.
  assert (Hus : range (x_min (Z.of_nat kW) x) (x_max (Z.of_nat Ww) (Z.of_nat kW) x + 1)
                = range (x - hw) (x - hw + Z.of_nat kW)).
  { unfold x_min, x_max. fold hw. f_equal; lia. }
  assert (Hvs : range (y_min (Z.of_nat kH) y) (y_max (Z.of_nat Hh) (Z.of_nat kH) y + 1)
                = range (y - hh) (y - hh + Z.of_nat kH)).
  { unfold y_min, y_max. fold hh. f_equal; lia. }
  assert (Hws : weight_sum ker (Z.of_nat Hh) (Z.of_nat Ww) (Z.of_nat kH) (Z.of_nat kW) y x
                = sum2 ker).
  { unfold weight_sum. rewrite Hus, Hvs, sum_window_rectangle.
    rewrite (sum2_table ker kH kW Hker). apply sum1_map_ext.
    intros [i j] _. simpl. fold hh hw. f_equal; lia. }
  assert (Hvl : weighted_sum img ker (Z.of_nat Hh) (Z.of_nat Ww)
                  (Z.of_nat kH) (Z.of_nat kW) c y x
                = correlation img ker (Z.of_nat kH) (Z.of_nat kW) c y x).
  { unfold weighted_sum, correlation. rewrite Hus, Hvs, sum_window_rectangle.
    apply sum1_map_ext. intros [i j] _. simpl. fold hh hw.
    f_equal; f_equal; lia. }
  rewrite Hat by lia. rewrite Hws, Hvl. split; [done|].
  intros ->. f_equal. field. apply one_neq_zero.
Qed.

End Interior.

(** ** Two passes with a row and a column kernel *)

Section TwoPasses.
Context {F : Type} `{ExactArith F}.

Add Field scalar_field_two : scalar_field.

Lemma sum1_product (a b : Z → F) (us vs : list Z) :
  sum1 (map (λ p : Z * Z, mul (a p.1) (b p.2)) (list_prod us vs))
  = mul (sum1 (map a us)) (sum1 (map b vs)).
Proof.
  rewrite sum1_list_prod. simpl.
  rewrite (sum1_map_ext _ (λ u, mul (a u) (sum1 (map b vs)))).
  - by rewrite sum1_map_scale_r.
  - intros u _. by rewrite sum1_map_scale.
Qed.

Variables (img : list (list (list F))) (row col ker : list (list F)).
Variables (C Hh Ww kH kW : nat).
Hypothesis Hrow : has_shape2 row 1 kW.
Hypothesis Hcol : has_shape2 col kH 1.
Hypothesis Hker : has_shape2 ker kH kW.
Hypothesis HkH : Z.odd (Z.of_nat kH) = true.
Hypothesis HkW : Z.odd (Z.of_nat kW) = true.
Hypothesis Hprod : ∀ i j, 0 ≤ i < Z.of_nat kH → 0 ≤ j < Z.of_nat kW →
  at2 ker i j = mul (at2 col i 0) (at2 row 0 j).

Let a (x u : Z) : F := at2 row 0 (u - x + Z.of_nat kW `div` 2).
Let b (y v : Z) : F := at2 col (v - y + Z.of_nat kH `div` 2) 0.
Let us (x : Z) : list Z :=
  range (x_min (Z.of_nat kW) x) (x_max (Z.of_nat Ww) (Z.of_nat kW) x + 1).
Let vs (y : Z) : list Z :=
  range (y_min (Z.of_nat kH) y) (y_max (Z.of_nat Hh) (Z.of_nat kH) y + 1).

Lemma row_weight_sum (y x : Z) :
  0 ≤ y < Z.of_nat Hh →
  weight_sum row (Z.of_nat Hh) (Z.of_nat Ww) (Z.of_nat 1) (Z.of_nat kW) y x
  = sum1 (map (a x) (us x)).
Proof.
  intros Hy. unfold weight_sum. change (Z.of_nat 1) with 1.
  rewrite (window_extent_1 _ y Hy), sum_window_row.
  apply sum1_map_ext. intros u _. unfold a. change (1 `div` 2) with 0.
  by replace (y - y + 0) with 0 by lia.
Qed.

Lemma row_weighted_sum (im : list (list (list F))) (c y x : Z) :
  0 ≤ y < Z.of_nat Hh →
  weighted_sum im row (Z.of_nat Hh) (Z.of_nat Ww) (Z.of_nat 1) (Z.of_nat kW) c y x
  = sum1 (map (λ u, mul (at3 im c y u) (a x u)) (us x)).
Proof.
  intros Hy. unfold weighted_sum. change (Z.of_nat 1) with 1.
  rewrite (window_extent_1 _ y Hy), sum_window_row.
  apply sum1_map_ext. intros u _. unfold a. change (1 `div` 2) with 0.
  by replace (y - y + 0) with 0 by lia.
Qed.

Lemma col_weight_sum (y x : Z) :
  0 ≤ x < Z.of_nat Ww →
  weight_sum col (Z.of_nat Hh) (Z.of_nat Ww) (Z.of_nat kH) (Z.of_nat 1) y x
  = sum1 (map (b y) (vs y)).
Proof.
  intros Hx. unfold weight_sum. change (Z.of_nat 1) with 1.
  rewrite (window_extent_1_x _ x Hx), sum_window_col.
  apply sum1_map_ext. intros v _. unfold b. change (1 `div` 2) with 0.
  by replace (x - x + 0) with 0 by lia.
Qed.

Lemma col_weighted_sum (im : list (list (list F))) (c y x : Z) :
  0 ≤ x < Z.of_nat Ww →
  weighted_sum im col (Z.of_nat Hh) (Z.of_nat Ww) (Z.of_nat kH) (Z.of_nat 1) c y x
  = sum1 (map (λ v, mul (at3 im c v x) (b y v)) (vs y)).
Proof.
  intros Hx. unfold weighted_sum. change (Z.of_nat 1) with 1.
  rewrite (window_extent_1_x _ x Hx), sum_window_col.
  apply sum1_map_ext. intros v _. unfold b. change (1 `div` 2) with 0.
  by replace (x - x + 0) with 0 by lia.
Qed.

Lemma joint_weight_sum (y x : Z) :
  weight_sum ker (Z.of_nat Hh) (Z.of_nat Ww) (Z.of_nat kH) (Z.of_nat kW) y x
  = mul (sum1 (map (a x) (us x))) (sum1 (map (b y) (vs y))).
Proof.
  destruct (half_bounds _ HkH) as [HhH HhH2]; [lia|].
  destruct (half_bounds _ HkW) as [HhW HhW2]; [lia|].
  unfold weight_sum. rewrite sum_window_flat, <- sum1_product.
  apply sum1_map_ext. intros [u v] Hin%window_pairs. simpl.
  rewrite Hprod by lia. unfold a, b. ring.
Qed.

Lemma joint_weighted_sum (c y x : Z) :
  weighted_sum img ker (Z.of_nat Hh) (Z.of_nat Ww) (Z.of_nat kH) (Z.of_nat kW) c y x
  = sum1 (map (λ p : Z * Z, mul (at3 img c p.2 p.1) (mul (a x p.1) (b y p.2)))
              (list_prod (us x) (vs y))).
Proof.
  destruct (half_bounds _ HkH) as [HhH HhH2]; [lia|].
  destruct (half_bounds _ HkW) as [HhW HhW2]; [lia|].
  unfold weighted_sum. rewrite sum_window_flat.
  apply sum1_map_ext. intros [u v] Hin%window_pairs. simpl.
  rewrite Hprod by lia. unfold a, b. ring.
Qed.

(** X10: two passes, with a row kernel into an intermediate buffer and
    with a column kernel from there into the output, leave in the output
    what one pass with the outer product of the two kernels leaves (in exact
    arithmetic), at the edges too: the renormalization of each pass
    divides by its own factor of the joint divisor. *)
Theorem convolve_row_then_column (s : state F) image inter output
    rowk colk jointk buf1 buf2 :
  heap s !! image = Some (Array3 img) →
  heap s !! inter = Some (Array3 buf1) →
  heap s !! output = Some (Array3 buf2) →
  heap s !! rowk = Some (Array2 row) →
  heap s !! colk = Some (Array2 col) →
  heap s !! jointk = Some (Array2 ker) →
  image ≠ inter → image ≠ output → inter ≠ output →
  has_shape3 img C Hh Ww → has_shape3 buf1 C Hh Ww → has_shape3 buf2 C Hh Ww →
  (∀ y x, 0 ≤ y < Z.of_nat Hh → 0 ≤ x < Z.of_nat Ww →
     weight_sum row (Z.of_nat Hh) (Z.of_nat Ww) (Z.of_nat 1) (Z.of_nat kW) y x ≠ zero) →
  (∀ y x, 0 ≤ y < Z.of_nat Hh → 0 ≤ x < Z.of_nat Ww →
     weight_sum col (Z.of_nat Hh) (Z.of_nat Ww) (Z.of_nat kH) (Z.of_nat 1) y x ≠ zero) →
  let two := (convolve image inter rowk ;; convolve inter output colk) s in
  let joint := convolve image output jointk s in
  two.1 = Ok tt ∧ joint.1 = Ok tt ∧
  array3_at two.2 output = array3_at joint.2 output.
Proof.
  intros Hi Hb1 Hb2 Hr Hc Hj Hne1 Hne2 Hne3 Himg Hbuf1 Hbuf2 Hnzr Hnzc two joint.
  (* the row pass *)
  destruct (convolve_average s image inter rowk img buf1 row C Hh Ww 1 kW)
    as (ot & Hrun1 & Hot & Hat1); try done.
  set (s1 := with_output inter (logged image inter rowk s) ot) in *.
  (* the column pass *)
  destruct (convolve_average s1 inter output colk ot buf2 col C Hh Ww kH 1)
    as (os & Hrun2 & Hos & Hat2); try done.
  { simpl. apply lookup_insert_eq. }
  { simpl. by rewrite lookup_insert_ne. }
  { simpl. rewrite lookup_insert_ne; [done|]. intros ->. congruence. }
  (* the joint pass *)
  destruct (convolve_average s image output jointk img buf2 ker C Hh Ww kH kW)
    as (oj & Hrunj & Hoj & Hatj); try done.
  { intros y x Hy Hx. rewrite joint_weight_sum. intros Hz.
    apply mul_eq_zero in Hz as [Hz|Hz].
    - apply (Hnzr y x Hy Hx). by rewrite row_weight_sum.
    - apply (Hnzc y x Hy Hx). by rewrite col_weight_sum. }
  assert (Htwo : two = (Ok tt, with_output output (logged inter output colk s1) os)).
  { unfold two. by rewrite (bind_ok _ _ _ _ _ Hrun1). }
  unfold joint. rewrite Htwo, Hrunj. simpl. split_and!; [done..|].
  unfold array3_at. simpl. rewrite !lookup_insert_eq.
  apply (array3_ext os oj C Hh Ww Hos Hoj). intros c y x Hc0 Hy Hx.
  rewrite Hat2, Hatj by done. f_equal.
  rewrite col_weight_sum, col_weighted_sum, joint_weight_sum, joint_weighted_sum
    by done.
  assert (HA : sum1 (map (a x) (us x)) ≠ zero).
  { rewrite <- (row_weight_sum y x) by done. by apply Hnzr. }
  assert (HB : sum1 (map (b y) (vs y)) ≠ zero).
  { rewrite <- (col_weight_sum y x) by done. by apply Hnzc. }
  rewrite <- sum1_product.
  rewrite (product_average (λ v u, at3 img c v u) (a x) (b y)) by done.
  f_equal. apply sum1_map_ext. intros v Hv. f_equal.
  assert (Hv' : 0 ≤ v < Z.of_nat Hh).
  { apply list_elem_of_In, elem_of_range in Hv. unfold y_min, y_max in Hv. lia. }
  unfold at3 at 1. rewrite Hat1 by done. simpl.
  by rewrite row_weight_sum, row_weighted_sum.
Qed.

End TwoPasses.

(** ** The two layouts of an image *)

Section Layouts.
Context {A : Type}.

Lemma rectangular3_lookup (a : list (list (list A))) n1 n2 n3 i j k :
  rectangular3 a n1 n2 n3 → (i < n1)%nat → (j < n2)%nat → (k < n3)%nat →
  ∃ p r v, a !! i = Some p ∧ p !! j = Some r ∧ r !! k = Some v ∧
           length p = n2 ∧ length r = n3 ∧ lookup3 a i j k = Some v.
Proof.
  intros [Hlen Hall] Hi Hj Hk.
  destruct (lookup_lt_is_Some_2 a i) as [p Hp]; [lia|].
  rewrite Forall_lookup in Hall. destruct (Hall i p Hp) as [Hlp Hrows].
  destruct (lookup_lt_is_Some_2 p j) as [r Hr]; [lia|].
  rewrite Forall_lookup in Hrows. pose proof (Hrows j r Hr) as Hlr.
  destruct (lookup_lt_is_Some_2 r k) as [v Hv]; [lia|].
  exists p, r, v. split_and!; [done..|].
  unfold lookup3. rewrite Hp. simpl. rewrite Hr. simpl. done.
Qed.

(** Nested lists of the same extents with the same elements are equal. *)
Lemma rectangular3_ext (a b : list (list (list A))) n1 n2 n3 :
  rectangular3 a n1 n2 n3 → rectangular3 b n1 n2 n3 →
  (∀ i j k, (i < n1)%nat → (j < n2)%nat → (k < n3)%nat →
     lookup3 a i j k = lookup3 b i j k) →
  a = b.
Proof.
  intros Ha Hb Heq.
  apply (list_eq_same_length _ _ n1); [by destruct Hb|by destruct Ha|].
  intros i p p' Hi Hp Hp'.
  destruct Ha as [_ Ha], Hb as [_ Hb]. rewrite Forall_lookup in Ha, Hb.
  destruct (Ha i p Hp) as [Hlp Hrows]. destruct (Hb i p' Hp') as [Hlp' Hrows'].
  apply (list_eq_same_length _ _ n2); [done..|].
  intros j r r' Hj Hr Hr'.
  rewrite Forall_lookup in Hrows, Hrows'.
  pose proof (Hrows j r Hr) as Hlr. pose proof (Hrows' j r' Hr') as Hlr'.
  apply (list_eq_same_length _ _ n3); [done..|].
  intros k v v' Hk Hv Hv'.
  specialize (Heq i j k Hi Hj Hk). unfold lookup3 in Heq.
  rewrite Hp, Hp' in Heq. simpl in Heq. rewrite Hr, Hr' in Heq. simpl in Heq.
  congruence.
Qed.

Lemma rectangular3_head (a : list (list (list A))) n1 n2 n3 :
  rectangular3 a n1 n2 n3 → (0 < n1)%nat →
  length (default [] (head a)) = n2 ∧
  ((0 < n2)%nat → length (default [] (head (default [] (head a)))) = n3).
Proof.
  intros [Hlen Hall] Hn1. destruct a as [|p a]; simpl in *; [lia|].
  inversion Hall as [|?? [Hp Hrows] _]; subst. split; [done|].
  intros Hn2. destruct p as [|r p]; simpl in *; [lia|]. by inversion Hrows.
Qed.

(** [transpose_201] turns an H x W x C raster into a C x H x W array with
    the same samples. *)
Lemma transpose_201_rectangular (d : A) (img : list (list (list A))) h w c :
  rectangular3 img h w c → (0 < h)%nat → (0 < w)%nat →
  rectangular3 (transpose_201 d img) c h w ∧
  ∀ k y x, (k < c)%nat → (y < h)%nat → (x < w)%nat →
    lookup3 (transpose_201 d img) k y x = lookup3 img y x k.
Proof.
  intros Himg Hh Hw.
  destruct (rectangular3_head _ _ _ _ Himg Hh) as [_ Hc]. specialize (Hc Hw).
  unfold transpose_201. rewrite Hc. split.
  - split; [by rewrite length_map, length_seq|].
    apply Forall_fmap, Forall_forall. intros k _. simpl.
    destruct Himg as [Hlen Hall].
    split; [by rewrite length_map|].
    apply Forall_fmap. eapply Forall_impl; [exact Hall|].
    intros row [Hrow _]. simpl. by rewrite length_map.
  - intros k y x Hk Hy Hx.
    destruct (rectangular3_lookup img h w c y x k Himg) as
      (row & px & v & Hrow & Hpx & Hv & _ & _ & Hl3); [done..|].
    rewrite Hl3. unfold lookup3.
    rewrite list_lookup_fmap, lookup_seq_lt by done. simpl.
    rewrite list_lookup_fmap, Hrow. simpl.
    rewrite list_lookup_fmap, Hpx. simpl. by rewrite Hv.
Qed.

(** [transpose_120] turns a C x H x W array into an H x W x C raster with
    the same samples. *)
Lemma transpose_120_rectangular (d : A) (img : list (list (list A))) c h w :
  rectangular3 img c h w → (0 < c)%nat →
  rectangular3 (transpose_120 d img) h w c ∧
  ∀ y x k, (y < h)%nat → (x < w)%nat → (k < c)%nat →
    lookup3 (transpose_120 d img) y x k = lookup3 img k y x.
Proof.
  intros Himg Hc.
  destruct (rectangular3_head _ _ _ _ Himg Hc) as [Hh Hw].
  unfold transpose_120. rewrite Hh. split.
  - split; [by rewrite length_map, length_seq|].
    apply Forall_fmap, Forall_forall. intros y Hy%elem_of_seq. simpl.
    rewrite Hw by lia.
    split; [by rewrite length_map, length_seq|].
    apply Forall_fmap, Forall_forall. intros x _. simpl.
    rewrite length_map. by destruct Himg.
  - intros y x k Hy Hx Hk. rewrite Hw by lia.
    destruct (rectangular3_lookup img c h w k y x Himg) as
      (p & r & v & Hp & Hr & Hv & _ & _ & Hl3); [done..|].
    rewrite Hl3. unfold lookup3.
    rewrite list_lookup_fmap, lookup_seq_lt by done. simpl.
    rewrite list_lookup_fmap, lookup_seq_lt by done. simpl.
    rewrite list_lookup_fmap, Hp. simpl. rewrite Hr. simpl. by rewrite Hv.
Qed.

End Layouts.

Lemma rectangular3_map3 {A B} (f : A → B) (a : list (list (list A))) n1 n2 n3 :
  rectangular3 a n1 n2 n3 →
  rectangular3 (map3 f a) n1 n2 n3 ∧
  ∀ i j k, lookup3 (map3 f a) i j k = f <$> lookup3 a i j k.
Proof.
  intros [Hlen Hall]. split.
  - unfold map3. split; [by rewrite length_map|].
    apply Forall_fmap. eapply Forall_impl; [exact Hall|].
    intros p [Hp Hrows]. simpl. split; [by rewrite length_map|].
    apply Forall_fmap. eapply Forall_impl; [exact Hrows|].
    intros r Hr. simpl. by rewrite length_map.
  - intros i j k. unfold lookup3, map3.
    rewrite list_lookup_fmap. destruct (a !! i) as [p|]; simpl; [|done].
    rewrite list_lookup_fmap. destruct (p !! j) as [r|]; simpl; [|done].
    apply list_lookup_fmap.
Qed.

(** ** Reading and writing image files *)

Section Files.
Context {F : Type} `{Scalar F} {P : Pillow}.

Lemma getitem3_lookup3 (a : list (list (list F))) (c h w k y x : nat) :
  has_shape3 a c h w → (k < c)%nat → (y < h)%nat → (x < w)%nat →
  getitem3 a (Z.of_nat k) (Z.of_nat y) (Z.of_nat x) = lookup3 a k y x.
Proof.
  intros Ha Hk Hy Hx.
  destruct (rectangular3_lookup a c h w k y x Ha) as
    (p & r & v & Hp & Hr & Hv & Hlp & Hlr & Hl3); [done..|].
  rewrite Hl3. unfold getitem3, getitem2.
  rewrite getitem_in by (destruct Ha; lia). rewrite Nat2Z.id, Hp. simpl.
  rewrite getitem_in by lia. rewrite Nat2Z.id, Hr. simpl.
  rewrite getitem_in by lia. by rewrite Nat2Z.id.
Qed.

(** X11: [read_image] of a file holding an H x W x C image returns the
    reference of an array object of shape (C, H, W) whose element [c, y, x]
    is the sample [y, x, c] of the file divided by 255; the files and the
    other objects are not changed. *)
Theorem read_image_decodes (s : state F) path (r : raster) (h w c : nat) :
  files s !! path = Some (Bands r) →
  raster_shape r h w c → (0 < h)%nat → (0 < w)%nat →
  ∃ arr,
    read_image path s
    = (Ok (next_loc s),
       State (<[next_loc s := Array3 arr]> (heap s)) (Pos.succ (next_loc s))
             (files s) (calls s)) ∧
    has_shape3 arr c h w ∧
    ∀ k y x, (k < c)%nat → (y < h)%nat → (x < w)%nat →
      ∃ v, lookup3 r y x k = Some v ∧
           getitem3 arr (Z.of_nat k) (Z.of_nat y) (Z.of_nat x)
           = Some (div (of_Z v) (of_Z 255)).
Proof.
  intros Hfile Hr Hh Hw.
  destruct (transpose_201_rectangular 0 r h w c Hr Hh Hw) as [Ht Htat].
  destruct (rectangular3_map3 (of_Z : Z → F) _ _ _ _ Ht) as [Hm Hmat].
  destruct (rectangular3_map3 (λ v : F, div v (of_Z 255)) _ _ _ _ Hm) as [Hd Hdat].
  eexists. split_and!.
  - by apply read_image_found.
  - exact Hd.
  - intros k y x Hk Hy Hx.
    destruct (rectangular3_lookup r h w c y x k Hr) as
      (? & ? & v & _ & _ & _ & _ & _ & Hv); [done..|].
    exists v. split; [done|].
    rewrite (getitem3_lookup3 _ c h w) by done.
    by rewrite Hdat, Hmat, Htat, Hv.
Qed.

Lemma samples_in_map3 (g : F → Z) (a : list (list (list F))) lo hi :
  (∀ v, lo ≤ g v ≤ hi) → samples_in lo hi (map3 g a).
Proof.
  intros Hg. unfold samples_in, map3.
  apply Forall_fmap, Forall_forall. intros p _. simpl.
  apply Forall_fmap, Forall_forall. intros r _. simpl.
  apply Forall_fmap, Forall_forall. intros v _. simpl. apply Hg.
Qed.

Lemma samples_in_intro (r : raster) (n1 n2 n3 : nat) (lo hi : Z) :
  rectangular3 r n1 n2 n3 →
  (∀ i j k v, (i < n1)%nat → (j < n2)%nat → (k < n3)%nat →
     lookup3 r i j k = Some v → lo ≤ v ≤ hi) →
  samples_in lo hi r.
Proof.
  intros [Hlen Hall] Hv. unfold samples_in.
  rewrite Forall_lookup in Hall.
  apply Forall_lookup. intros i row Hrow.
  destruct (Hall i row Hrow) as [Hlrow Hpx]. rewrite Forall_lookup in Hpx.
  apply Forall_lookup. intros j px Hj.
  pose proof (Hpx j px Hj) as Hlpx.
  apply Forall_lookup. intros k v Hk.
  apply (Hv i j k v).
  - apply lookup_lt_Some in Hrow. lia.
  - apply lookup_lt_Some in Hj. lia.
  - apply lookup_lt_Some in Hk. lia.
  - unfold lookup3. rewrite Hrow. simpl. rewrite Hj. simpl. done.
Qed.

Lemma to_uint8_range (v : F) : 0 ≤ to_uint8 v ≤ 255.
Proof.
  unfold to_uint8. case_decide; [|lia].
  pose proof (Z.mod_pos_bound (trunc v) 256). lia.
Qed.

(** What [write_image] hands to the imaging library. *)
Lemma write_image_hands_over (s : state F) img path a (c h w : nat) :
  heap s !! img = Some (Array3 a) →
  has_shape3 a c h w → (0 < c)%nat →
  ∃ r : raster,
    write_image img path s
    = save path r (with_output img s (map3 (λ v, mul v (of_Z 255)) a)) ∧
    rectangular3 r h w c ∧
    ∀ y x k, (y < h)%nat → (x < w)%nat → (k < c)%nat →
      ∃ v, lookup3 a k y x = Some v ∧
           lookup3 r y x k = Some (to_uint8 (mul v (of_Z 255))).
Proof.
  intros Ha Hshape Hc. rewrite (write_image_run s img path a Ha).
  destruct (rectangular3_map3 (λ v : F, mul v (of_Z 255)) _ _ _ _ Hshape)
    as [Hm Hmat].
  destruct (transpose_120_rectangular zero _ _ _ _ Hm Hc) as [Ht Htat].
  destruct (rectangular3_map3 to_uint8 _ _ _ _ Ht) as [Hu Huat].
  eexists. split_and!; [done|exact Hu|].
  intros y x k Hy Hx Hk.
  destruct (rectangular3_lookup a c h w k y x Hshape) as
    (? & ? & v & _ & _ & _ & _ & _ & Hv); [done..|].
  exists v. split; [done|]. by rewrite Huat, Htat, Hmat, Hv.
Qed.

(** X12: [write_image] of an array of shape (C, H, W) scales the array in
    place and ends with the call of the imaging library, to which it hands
    an H x W x C array whose sample [y, x, c] is the 8-bit conversion of 255
    times the element [c, y, x]; every sample handed over is in 0..255.
    Whether a file is written, and which, is the library's matter. *)
Theorem write_image_encodes (s : state F) img path a (c h w : nat) :
  heap s !! img = Some (Array3 a) →
  has_shape3 a c h w → (0 < c)%nat →
  ∃ r : raster,
    write_image img path s
    = save path r (with_output img s (map3 (λ v, mul v (of_Z 255)) a)) ∧
    raster_shape r h w c ∧
    samples_in 0 255 r ∧
    ∀ y x k, (y < h)%nat → (x < w)%nat → (k < c)%nat →
      ∃ v, getitem3 a (Z.of_nat k) (Z.of_nat y) (Z.of_nat x) = Some v ∧
           lookup3 r y x k = Some (to_uint8 (mul v (of_Z 255))).
Proof.
  intros Ha Hshape Hc.
  destruct (write_image_hands_over s img path a c h w Ha Hshape Hc)
    as (r & Hrun & Hr & Hat).
  exists r. split_and!; [done|exact Hr| |].
  - apply (samples_in_intro r h w c); [exact Hr|].
    intros y x k u Hy Hx Hk Hu.
    destruct (Hat y x k Hy Hx Hk) as (v & _ & Hv).
    rewrite Hv in Hu. injection Hu as <-. apply to_uint8_range.
  - intros y x k Hy Hx Hk.
    destruct (Hat y x k Hy Hx Hk) as (v & Hv & Hu).
    exists v. split; [|done]. by rewrite (getitem3_lookup3 _ c h w).
Qed.

End Files.

Section SampleRoundTrip.
Context {F : Type} `{Scalar F}.

Lemma samples_in_lookup3 lo hi (r : raster) y x k v :
  samples_in lo hi r → lookup3 r y x k = Some v → lo ≤ v ≤ hi.
Proof.
  intros Hall Hv. unfold lookup3 in Hv.
  destruct (r !! y) as [row|] eqn:Hrow; simpl in Hv; [|done].
  destruct (row !! x) as [px|] eqn:Hpx; simpl in Hv; [|done].
  unfold samples_in in Hall. rewrite Forall_lookup in Hall.
  specialize (Hall y row Hrow). rewrite Forall_lookup in Hall.
  specialize (Hall x px Hpx). rewrite Forall_lookup in Hall.
  by apply (Hall k v).
Qed.

(** In a scalar type in which every 8-bit sample survives the scaling by
    1/255, the scaling by 255 and the 8-bit conversion, the array encoded
    from the array decoded from a file is the array of the file. *)
Lemma encode_decode_samples (r : raster) (h w c : nat) :
  (∀ v, 0 ≤ v ≤ 255 →
     to_uint8 (mul (div (of_Z v) (of_Z 255)) (of_Z 255) : F) = v) →
  raster_shape r h w c → (0 < h)%nat → (0 < w)%nat → (0 < c)%nat →
  samples_in 0 255 r →
  map3 to_uint8
    (transpose_120 zero
       (map3 (λ v : F, mul v (of_Z 255))
          (map3 (λ v : F, div v (of_Z 255)) (map3 of_Z (transpose_201 0 r)))))
  = r.
Proof.
  intros Hrt Hr Hh Hw Hc Hsamples.
  destruct (transpose_201_rectangular 0 r h w c Hr Hh Hw) as [Ht Htat].
  destruct (rectangular3_map3 (of_Z : Z → F) _ _ _ _ Ht) as [Hm Hmat].
  destruct (rectangular3_map3 (λ v : F, div v (of_Z 255)) _ _ _ _ Hm) as [Hd Hdat].
  destruct (rectangular3_map3 (λ v : F, mul v (of_Z 255)) _ _ _ _ Hd) as [Hs Hsat].
  destruct (transpose_120_rectangular zero _ _ _ _ Hs Hc) as [Ht' Htat'].
  destruct (rectangular3_map3 to_uint8 _ _ _ _ Ht') as [Hu Huat].
  apply (rectangular3_ext _ _ h w c Hu Hr).
  intros y x k Hy Hx Hk.
  destruct (rectangular3_lookup r h w c y x k Hr) as
    (? & ? & v & _ & _ & _ & _ & _ & Hv); [done..|].
  rewrite Huat, Htat', Hsat, Hdat, Hmat, Htat, Hv by done. simpl.
  f_equal. apply Hrt. by apply (samples_in_lookup3 0 255 r y x k).
Qed.

End SampleRoundTrip.

Section RoundTrip.
Context {F : Type} `{ExactArith F} {P : Pillow}.

Add Field scalar_field_rt : scalar_field.

Lemma trunc_of_Z (n : Z) : 0 ≤ n → trunc (of_Z n : F) = n.
Proof.
  intros Hn.
  destruct (trunc_spec (of_Z n : F)) as [Hlo Hhi].
  { rewrite <- of_Z_0. by apply of_Z_sle. }
  apply of_Z_sle in Hlo. apply of_Z_slt in Hhi. lia.
Qed.

Lemma of_Z_255_neq_0 : (of_Z 255 : F) ≠ zero.
Proof. rewrite <- of_Z_0. intros Heq%of_Z_inj. lia. Qed.

(** A sample survives the scaling by 1/255, the scaling by 255 and the
    8-bit conversion. *)
Lemma sample_round_trip (v : Z) :
  0 ≤ v ≤ 255 → to_uint8 (mul (div (of_Z v) (of_Z 255)) (of_Z 255) : F) = v.
Proof.
  intros Hv.
  replace (mul (div (of_Z v) (of_Z 255)) (of_Z 255)) with (of_Z v : F)
    by (field; apply of_Z_255_neq_0).
  unfold to_uint8. rewrite trunc_of_Z by lia.
  rewrite decide_True by lia. apply Z.mod_small. lia.
Qed.

(** The array encoded from the array decoded from a file is the array of
    the file. *)
Lemma encode_decode (r : raster) (h w c : nat) :
  raster_shape r h w c → (0 < h)%nat → (0 < w)%nat → (0 < c)%nat →
  samples_in 0 255 r →
  map3 to_uint8
    (transpose_120 zero
       (map3 (λ v : F, mul v (of_Z 255))
          (map3 (λ v : F, div v (of_Z 255)) (map3 of_Z (transpose_201 0 r)))))
  = r.
Proof.
  intros Hr Hh Hw Hc Hsamples.
  apply (encode_decode_samples r h w c); try done.
  apply sample_round_trip.
Qed.

(** X13: decoding and encoding are inverse on arrays: [write_image]
    applied to the array that [read_image] returns for a file of 8-bit
    samples hands to the imaging library the array that was read from the
    file (in exact arithmetic); no file is changed before that call. *)
Theorem read_write_round_trip (s : state F) input_file output_file
    (r : raster) (h w c : nat) :
  files s !! input_file = Some (Bands r) →
  raster_shape r h w c → (0 < h)%nat → (0 < w)%nat → (0 < c)%nat →
  samples_in 0 255 r →
  ∃ s',
    (img <- read_image input_file ;; write_image img output_file) s
    = save output_file r s' ∧
    files s' = files s.
Proof.
  intros Hfile Hr Hh Hw Hc Hsamples.
  erewrite bind_ok; last by apply read_image_found.
  erewrite write_image_run; last by (simpl; apply lookup_insert_eq).
  rewrite (encode_decode r h w c) by done.
  eexists. split; reflexivity.
Qed.

End RoundTrip.

Section RoundTripBinary32.
Context {P : Pillow}.
#[local] Existing Instance binary32.

(** In binary32 every 8-bit sample survives the division by 255, the
    multiplication by 255 and the 8-bit conversion: the 256 cases are
    computed. *)
Lemma sample_round_trip_binary32 (v : Z) :
  0 ≤ v ≤ 255 →
  to_uint8 (mul (div (of_Z v) (of_Z 255)) (of_Z 255) : spec_float) = v.
Proof.
  intros Hv.
  assert (Hall : forallb (λ v, to_uint8 (mul (div (of_Z v) (of_Z 255)) (of_Z 255)
                                           : spec_float) =? v)
                         (range 0 256) = true) by (vm_compute; reflexivity).
  rewrite forallb_forall in Hall.
  apply Z.eqb_eq, Hall, list_elem_of_In, elem_of_range. lia.
Qed.

(** X25: on float32 arrays, as the pipeline uses them, decoding and
    encoding are inverse on arrays: [write_image] applied to the array that
    [read_image] returns for a file of 8-bit samples hands to the imaging
    library the array that was read from the file; the roundings of the
    division and of the multiplication by 255 never reach the integer part.
    No file is changed before that call. *)
Theorem read_write_round_trip_float32 (s : state spec_float) input_file output_file
    (r : raster) (h w c : nat) :
  files s !! input_file = Some (Bands r) →
  raster_shape r h w c → (0 < h)%nat → (0 < w)%nat → (0 < c)%nat →
  samples_in 0 255 r →
  ∃ s',
    (img <- read_image input_file ;; write_image img output_file) s
    = save output_file r s' ∧
    files s' = files s.
Proof.
  intros Hfile Hr Hh Hw Hc Hsamples.
  erewrite bind_ok; last by apply read_image_found.
  erewrite write_image_run; last by (cbn [heap]; apply lookup_insert_eq).
  rewrite (encode_decode_samples r h w c sample_round_trip_binary32) by done.
  eexists. split; reflexivity.
Qed.

End RoundTripBinary32.

(** ** The 8-bit conversion *)

Section Conversion.
Context {F : Type} `{ExactArith F} {T : TruncOdd F} {P : Pillow}.

Add Field scalar_field_conv : scalar_field.

Lemma opp_sle (a b : F) : sle a b → sle (opp b) (opp a).
Proof.
  intros Hab. apply sle_sub.
  replace (sub (opp a) (opp b)) with (sub b a) by ring.
  by apply (proj1 (sle_sub a b)).
Qed.

Lemma opp_slt (a b : F) : slt a b → slt (opp b) (opp a).
Proof.
  intros [Hle Hne]. split; [by apply opp_sle|].
  intros Heq. apply Hne.
  replace a with (opp (opp a)) by ring. rewrite <- Heq. ring.
Qed.

(** The conversion of a value [t] of magnitude below 2^31: the integer [n]
    next to [t] in the direction of zero, reduced modulo 256. *)
Lemma to_uint8_integer_part (t : F) :
  slt (of_Z (- 2147483648)) t → slt t (of_Z 2147483648) →
  ∃ n, to_uint8 t = n `mod` 256 ∧
       (sle zero t → sle (of_Z n) t ∧ slt t (of_Z (n + 1))) ∧
       (sle t zero → slt (of_Z (n - 1)) t ∧ sle t (of_Z n)).
Proof.
  intros Hlo Hhi. exists (trunc t).
  destruct (sle_total zero t) as [Hpos|Hneg].
  - destruct (trunc_spec t Hpos) as [H1 H2].
    assert (Hn0 : 0 ≤ trunc t).
    { pose proof (sle_slt_trans _ _ _ Hpos H2) as Hlt.
      rewrite <- of_Z_0 in Hlt. apply of_Z_slt in Hlt. lia. }
    assert (Hn1 : trunc t < 2147483648).
    { pose proof (sle_slt_trans _ _ _ H1 Hhi) as Hlt. by apply of_Z_slt in Hlt. }
    split_and!.
    + unfold to_uint8. by rewrite decide_True by lia.
    + done.
    + intros Hle. assert (Ht0 : t = zero) by (by apply sle_antisym).
      assert (Hn2 : trunc t ≤ 0).
      { apply (of_Z_sle (F := F)). rewrite of_Z_0. by rewrite <- Ht0. }
      assert (trunc t = 0) as -> by lia.
      rewrite Ht0, <- of_Z_0. split; [apply of_Z_slt; lia|apply of_Z_sle; lia].
  - set (u := opp t).
    assert (Hu : sle zero u).
    { unfold u. replace (zero : F) with (opp zero : F) by ring. by apply opp_sle. }
    destruct (trunc_spec u Hu) as [H1 H2].
    assert (Ht : trunc t = - trunc u).
    { unfold u. rewrite trunc_opp. lia. }
    assert (Hm0 : 0 ≤ trunc u).
    { pose proof (sle_slt_trans _ _ _ Hu H2) as Hlt.
      rewrite <- of_Z_0 in Hlt. apply of_Z_slt in Hlt. lia. }
    assert (Hm1 : trunc u < 2147483648).
    { assert (Hlt : slt u (of_Z 2147483648)).
      { unfold u. change 2147483648 with (- - 2147483648).
        rewrite (of_Z_opp (- 2147483648)). by apply opp_slt. }
      pose proof (sle_slt_trans _ _ _ H1 Hlt) as Hlt'. by apply of_Z_slt in Hlt'. }
    assert (Hback : t = opp u) by (unfold u; ring).
    split_and!.
    + unfold to_uint8. by rewrite decide_True by lia.
    + intros Hle. assert (Hz : t = zero) by (by apply sle_antisym).
      assert (Hu0 : u = zero) by (unfold u; rewrite Hz; ring).
      assert (Hm2 : trunc u ≤ 0).
      { apply (of_Z_sle (F := F)). rewrite of_Z_0. by rewrite <- Hu0. }
      rewrite Ht. assert (trunc u = 0) as -> by lia.
      rewrite Hz. simpl. rewrite <- of_Z_0.
      split; [apply of_Z_sle; lia|apply of_Z_slt; lia].
    + intros _. rewrite Ht, Hback. split.
      * replace (- trunc u - 1) with (- (trunc u + 1)) by lia.
        rewrite of_Z_opp. by apply opp_slt.
      * rewrite of_Z_opp. by apply opp_sle.
Qed.

(** C9, amended: the conversion does not clamp.  [write_image] hands to the
    imaging library, for the sample [v] at [c, y, x] of its argument, an
    8-bit sample at [y, x, c] that in exact arithmetic, when the scaled
    value [255 * v] has a magnitude below 2^31, is [n mod 256] for the
    integer [n] next to the scaled value in the direction of zero: a scaled
    value strictly between -1 and 256 gives [n] itself, every other one
    wraps around modulo 256. *)
Theorem write_image_wraps_around (s : state F) img path a (c h w : nat) :
  heap s !! img = Some (Array3 a) →
  has_shape3 a c h w → (0 < c)%nat →
  ∃ r : raster,
    write_image img path s
    = save path r (with_output img s (map3 (λ v, mul v (of_Z 255)) a)) ∧
    raster_shape r h w c ∧
    ∀ y x k, (y < h)%nat → (x < w)%nat → (k < c)%nat →
      ∃ v, getitem3 a (Z.of_nat k) (Z.of_nat y) (Z.of_nat x) = Some v ∧
        let t := mul v (of_Z 255) in
        (slt (of_Z (- 2147483648)) t → slt t (of_Z 2147483648) →
         ∃ n, lookup3 r y x k = Some (n `mod` 256) ∧
              (sle zero t → sle (of_Z n) t ∧ slt t (of_Z (n + 1))) ∧
              (sle t zero → slt (of_Z (n - 1)) t ∧ sle t (of_Z n)) ∧
              (n `mod` 256 = n ↔ slt (of_Z (- 1)) t ∧ slt t (of_Z 256))).
Proof.
  intros Ha Hshape Hc.
  destruct (write_image_hands_over s img path a c h w Ha Hshape Hc)
    as (r & Hrun & Hr & Hat).
  exists r. split_and!; [done|exact Hr|].
  intros y x k Hy Hx Hk.
  destruct (Hat y x k Hy Hx Hk) as (v & Hv & Hu).
  exists v. split; [by rewrite (getitem3_lookup3 _ c h w)|].
  intros t Hlo Hhi.
  destruct (to_uint8_integer_part t Hlo Hhi) as (n & Hn & Hpos & Hneg).
  exists n. split_and!; [by rewrite Hu, <- Hn|done|done|].
  assert (H01 : slt (of_Z (- 1)) (zero : F)).
  { rewrite <- of_Z_0. apply of_Z_slt. lia. }
  assert (H0256 : slt (zero : F) (of_Z 256)).
  { rewrite <- of_Z_0. apply of_Z_slt. lia. }
  split.
  - intros Hmod.
    pose proof (Z.mod_pos_bound n 256 ltac:(lia)) as Hb. rewrite Hmod in Hb.
    destruct (sle_total zero t) as [Hp|Hq].
    + destruct (Hpos Hp) as [_ Hlt]. split.
      * by apply slt_sle_trans with zero.
      * eapply slt_sle_trans; [exact Hlt|]. apply of_Z_sle. lia.
    + destruct (Hneg Hq) as [Hlt Hle]. split.
      * eapply sle_slt_trans; [|exact Hlt]. apply of_Z_sle. lia.
      * by apply sle_slt_trans with zero.
  - intros [Hl Hh]. apply Z.mod_small.
    destruct (sle_total zero t) as [Hp|Hq].
    + destruct (Hpos Hp) as [H1 H2]. split.
      * pose proof (sle_slt_trans _ _ _ Hp H2) as Hlt0.
        rewrite <- of_Z_0 in Hlt0. apply of_Z_slt in Hlt0. lia.
      * pose proof (sle_slt_trans _ _ _ H1 Hh) as Hlt0. by apply of_Z_slt in Hlt0.
    + destruct (Hneg Hq) as [H1 H2].
      pose proof (slt_sle_trans _ _ _ Hl H2) as Hlt0. apply of_Z_slt in Hlt0.
      pose proof (slt_sle_trans _ _ _ H1 Hq) as Hlt1.
      rewrite <- of_Z_0 in Hlt1. apply of_Z_slt in Hlt1. lia.
Qed.

End Conversion.

(** ** More on the generated kernels *)

Section Kernels.
Context {F : Type} {S : Scalar F} {E : Exponential F}
        {A : ExactArith F} {L : ExpLaws F}.

Add Field scalar_field_ker : scalar_field.

(** The Gaussian weight decreases with the squared distance. *)
Lemma gauss_antitone (sigma r2 r2' : F) :
  sigma ≠ zero → sle r2' r2 → sle (gauss sigma r2) (gauss sigma r2').
Proof.
  intros Hs Hr. unfold gauss. apply exp_mono.
  set (d := mul (of_Z 2) (mul sigma sigma)).
  assert (Hd : slt zero d).
  { apply mul_pos.
    - rewrite <- of_Z_0. apply of_Z_slt. lia.
    - split; [apply square_nonneg|].
      intros Heq. symmetry in Heq. apply mul_eq_zero in Heq as [?|?]; done. }
  assert (Hdne : d ≠ zero) by (destruct Hd; congruence).
  replace (div (opp r2) d) with (mul (opp r2) (inv d)) by (unfold inv; field; done).
  replace (div (opp r2') d) with (mul (opp r2') (inv d)) by (unfold inv; field; done).
  apply mul_sle_mono_r; [by apply inv_nonneg|].
  apply sle_sub. replace (sub (opp r2') (opp r2)) with (sub r2 r2') by ring.
  by apply (proj1 (sle_sub r2' r2)).
Qed.

Lemma of_Z_square_sle (a b c d : Z) :
  a * a + b * b ≤ c * c + d * d →
  sle (add (mul (of_Z a) (of_Z a)) (mul (of_Z b) (of_Z b)) : F)
      (add (mul (of_Z c) (of_Z c)) (mul (of_Z d) (of_Z d))).
Proof. intros Hle. rewrite <- !of_Z_mul, <- !of_Z_add. by apply of_Z_sle. Qed.

(** X14: for every sigma > 0, [gaussian_kernel_1d] returns one row of odd
    length 2*(ceil(sigma)*3)+1; in exact arithmetic its weights are
    positive and sum to one, the row reads the same in both directions and
    no weight exceeds the one in the middle. *)
Theorem gaussian_kernel_1d_properties (sigma : F) :
  slt zero sigma →
  let n := 2 * (ceil sigma * 3) + 1 in
  let K := gaussian_kernel_1d sigma in
  Z.odd n = true ∧
  has_shape2 K 1 (Z.to_nat n) ∧
  sum2 K = one ∧
  (∀ j, 0 ≤ j < n → slt zero (at2 K 0 j)) ∧
  (∀ j, 0 ≤ j < n → at2 K 0 j = at2 K 0 (n - 1 - j)) ∧
  (∀ j, 0 ≤ j < n → sle (at2 K 0 j) (at2 K 0 (n `div` 2))).
Proof.
  intros Hs n K.
  pose proof (ceil_pos sigma Hs) as Hc.
  assert (Hsne : sigma ≠ zero) by (destruct Hs; congruence).
  pose proof (taps1_sum_pos sigma Hs) as Hpos.
  assert (Hne : sum1 (taps1 sigma) ≠ zero) by (destruct Hpos; congruence).
  assert (Hhalf : n `div` 2 = ceil sigma * 3).
  { unfold n. rewrite Z.add_comm, Z.mul_comm, Z.div_add by lia. done. }
  split_and!.
  - unfold n. rewrite Z.add_comm, Z.odd_add_mul_2. done.
  - apply gaussian_kernel_1d_shape.
  - unfold K. rewrite gaussian_kernel_1d_raw. unfold sum2. simpl.
    rewrite app_nil_r, sum1_map_div by done. field. done.
  - intros j Hj. unfold K. rewrite gaussian_kernel_1d_at by done.
    by apply weight1_pos.
  - intros j Hj. unfold K. rewrite !gaussian_kernel_1d_at by (fold n; lia).
    unfold weight1, bell1. do 2 f_equal.
    replace (n - 1 - j - ceil sigma * 3) with (- (j - ceil sigma * 3))
      by (unfold n; lia).
    rewrite of_Z_opp. ring.
  - intros j Hj. unfold K. rewrite !gaussian_kernel_1d_at by (fold n; lia).
    rewrite Hhalf. unfold weight1, bell1. apply div_sle_mono; [done|].
    apply gauss_antitone; [done|].
    replace (ceil sigma * 3 - ceil sigma * 3) with 0 by lia.
    rewrite of_Z_0. replace (mul zero zero) with (zero : F) by ring.
    apply square_nonneg.
Qed.

(** X15: for every sigma > 0 the 2-D kernel is the outer product of the
    1-D kernel with itself (in exact arithmetic): the weight in row [i] and
    column [j] is the product of the [i]-th and the [j]-th 1-D weight. *)
Theorem gaussian_kernel_2d_outer_product (sigma : F) (i j : Z) :
  slt zero sigma →
  0 ≤ i < 2 * (ceil sigma * 3) + 1 →
  0 ≤ j < 2 * (ceil sigma * 3) + 1 →
  at2 (gaussian_kernel_2d sigma) i j
  = mul (at2 (gaussian_kernel_1d sigma) 0 i) (at2 (gaussian_kernel_1d sigma) 0 j).
Proof.
  intros Hs Hi Hj.
  rewrite gaussian_kernel_2d_at, !gaussian_kernel_1d_at by done. ring.
Qed.

(** X16: for every sigma > 0 the weights of the 2-D kernel are positive
    and decrease with the distance from the centre: a weight is at least
    every weight that lies as far or farther from the centre, so weights at
    the same distance are equal. *)
Theorem gaussian_kernel_2d_radial (sigma : F) :
  slt zero sigma →
  let R := ceil sigma * 3 in
  let K := gaussian_kernel_2d sigma in
  (∀ i j, 0 ≤ i < 2 * R + 1 → 0 ≤ j < 2 * R + 1 → slt zero (at2 K i j)) ∧
  (∀ i j i' j', 0 ≤ i < 2 * R + 1 → 0 ≤ j < 2 * R + 1 →
     0 ≤ i' < 2 * R + 1 → 0 ≤ j' < 2 * R + 1 →
     (i - R) * (i - R) + (j - R) * (j - R)
     ≤ (i' - R) * (i' - R) + (j' - R) * (j' - R) →
     sle (at2 K i' j') (at2 K i j)).
Proof.
  intros Hs R K.
  pose proof (ceil_pos sigma Hs) as Hc.
  assert (Hsne : sigma ≠ zero) by (destruct Hs; congruence).
  assert (HR : 0 ≤ R) by (unfold R; lia).
  pose proof (raw_sum_pos sigma R HR) as Hpos.
  assert (Hat : ∀ i j, 0 ≤ i < 2 * R + 1 → 0 ≤ j < 2 * R + 1 →
            at2 K i j
            = div (bell sigma (j - R) (i - R))
                  (sum2 (grid (2 * R + 1) (λ i j, bell sigma (j - R) (i - R))))).
  { intros i j Hi Hj. unfold K. rewrite gaussian_kernel_2d_raw. fold R.
    rewrite map_grid. by rewrite at2_grid. }
  split.
  - intros i j Hi Hj. unfold K.
    rewrite gaussian_kernel_2d_at by done.
    apply mul_pos; by apply weight1_pos.
  - intros i j i' j' Hi Hj Hi' Hj' Hdist.
    rewrite !Hat by done. apply div_sle_mono; [done|].
    unfold bell. apply gauss_antitone; [done|].
    apply of_Z_square_sle. lia.
Qed.

(** For a sigma strictly between -1 and 0 the radius is 0. *)
Lemma ceil_small_negative (sigma : F) :
  slt (of_Z (-1)) sigma → slt sigma zero → ceil sigma = 0.
Proof.
  intros Hlo Hhi. destruct (ceil_spec sigma) as [Hc1 Hc2].
  pose proof (slt_sle_trans _ _ _ Hlo Hc2) as H1. apply of_Z_slt in H1.
  pose proof (slt_sle_trans _ _ _ Hc1 (proj1 Hhi)) as H2.
  rewrite <- of_Z_0 in H2. apply of_Z_slt in H2. lia.
Qed.

(** With radius 0 and a sigma other than 0 the grid is the single point 0,
    whose weight [exp(0)] is divided by itself. *)
Lemma gaussian_kernel_2d_radius_0 (sigma : F) :
  ceil sigma = 0 → sigma ≠ zero → gaussian_kernel_2d sigma = [[one]].
Proof.
  intros Hc _. rewrite gaussian_kernel_2d_raw. rewrite Hc. cbv zeta.
  change (grid (2 * (0 * 3) + 1) (λ i j, bell sigma (j - 0 * 3) (i - 0 * 3)))
    with [[bell sigma 0 0]].
  change (sum2 [[bell sigma 0 0]]) with (add zero (bell sigma 0 0)).
  destruct (bell_pos sigma 0 0) as [_ Hb]. simpl.
  do 2 f_equal. field. intros Hz. apply Hb. rewrite <- Hz. ring.
Qed.

Lemma gaussian_kernel_1d_radius_0 (sigma : F) :
  ceil sigma = 0 → sigma ≠ zero → gaussian_kernel_1d sigma = [[one]].
Proof.
  intros Hc _. rewrite gaussian_kernel_1d_raw. unfold taps1. rewrite Hc.
  change (map (λ j, bell1 sigma (j - 0 * 3)) (range 0 (2 * (0 * 3) + 1)))
    with [bell1 sigma 0].
  change (sum1 [bell1 sigma 0]) with (add zero (bell1 sigma 0)).
  assert (Hp : slt zero (bell1 sigma 0)) by apply exp_pos.
  destruct Hp as [_ Hb]. simpl.
  do 2 f_equal. field. intros Hz. apply Hb. rewrite <- Hz. ring.
Qed.

(** X17: in exact arithmetic a sigma strictly between -1 and 0 is
    accepted: the radius [ceil(sigma) * 3] is 0 and both generators return
    the kernel of the single weight 1. *)
Theorem gaussian_kernel_small_negative_sigma (sigma : F) :
  slt (of_Z (-1)) sigma → slt sigma zero →
  gaussian_kernel_2d sigma = [[one]] ∧ gaussian_kernel_1d sigma = [[one]].
Proof.
  intros Hlo Hhi.
  pose proof (ceil_small_negative sigma Hlo Hhi) as Hc.
  assert (Hne : sigma ≠ zero) by (destruct Hhi; congruence).
  split.
  - by apply gaussian_kernel_2d_radius_0.
  - by apply gaussian_kernel_1d_radius_0.
Qed.

End Kernels.

(** ** Runs of the pipeline *)

Section MissingFile.
Context {F : Type} `{Scalar F} `{Exponential F} {P : Pillow}.

(** X18: when the input file cannot be opened, [main] raises before
    anything else happens: no array is allocated, [convolve] is not called
    and no file is written. *)
Theorem main_missing_input (s : state F) input_file output_file sigma
    seperate_filters :
  files s !! input_file = None →
  main input_file output_file sigma seperate_filters s = (Raise IOError, s).
Proof.
  intros Hfile. unfold main.
  by rewrite (bind_raise _ _ _ _ _ (read_image_missing s input_file Hfile)).
Qed.

(** X24: when the input file is an image of one band, which decodes to a
    2-D array, [main] raises in [read_image], at the transposition, before
    anything else happens. *)
Theorem main_single_band_input (s : state F) input_file output_file sigma
    seperate_filters (a : list (list Z)) :
  files s !! input_file = Some (Flat a) →
  main input_file output_file sigma seperate_filters s = (Raise ValueError, s).
Proof.
  intros Hfile. unfold main.
  by rewrite (bind_raise _ _ _ _ _ (read_image_flat s input_file a Hfile)).
Qed.

End MissingFile.

Section BlurredSamples.
Context {F : Type} {S : Scalar F} {E : Exponential F}
        {A : ExactArith F} {L : ExpLaws F} {P : Pillow}.

Add Field scalar_field_blur : scalar_field.

(** A window average under non-negative weights with a positive centre
    weight lies between the bounds of the image values. *)
Lemma window_average_between (img : list (list (list F))) (ker : list (list F))
    (Hh Ww kH kW : nat) (lo hi : F) (c y x : Z) :
  Z.odd (Z.of_nat kH) = true → Z.odd (Z.of_nat kW) = true →
  (∀ i j, 0 ≤ i < Z.of_nat kH → 0 ≤ j < Z.of_nat kW → slt zero (at2 ker i j)) →
  0 ≤ y < Z.of_nat Hh → 0 ≤ x < Z.of_nat Ww →
  (∀ v u, 0 ≤ v < Z.of_nat Hh → 0 ≤ u < Z.of_nat Ww →
     sle lo (at3 img c v u) ∧ sle (at3 img c v u) hi) →
  sle lo (div (weighted_sum img ker (Z.of_nat Hh) (Z.of_nat Ww)
                 (Z.of_nat kH) (Z.of_nat kW) c y x)
              (weight_sum ker (Z.of_nat Hh) (Z.of_nat Ww)
                 (Z.of_nat kH) (Z.of_nat kW) y x)) ∧
  sle (div (weighted_sum img ker (Z.of_nat Hh) (Z.of_nat Ww)
              (Z.of_nat kH) (Z.of_nat kW) c y x)
           (weight_sum ker (Z.of_nat Hh) (Z.of_nat Ww)
              (Z.of_nat kH) (Z.of_nat kW) y x)) hi.
Proof.
  intros HkH HkW Hpos Hy Hx Hb.
  destruct (half_bounds _ HkH) as [HhH HhH2]; [lia|].
  destruct (half_bounds _ HkW) as [HhW HhW2]; [lia|].
  assert (Hnn : ∀ i j, 0 ≤ i < Z.of_nat kH → 0 ≤ j < Z.of_nat kW →
            sle zero (at2 ker i j)).
  { intros i j Hi Hj. by destruct (Hpos i j Hi Hj). }
  apply div_between.
  - apply weight_sum_pos; try done. apply Hpos; lia.
  - unfold weight_sum, weighted_sum. rewrite !sum_window_flat.
    apply (sum1_map_between lo hi (λ p, at3 img c p.2 p.1)
             (λ p, at2 ker (p.2 - y + Z.of_nat kH `div` 2)
                           (p.1 - x + Z.of_nat kW `div` 2))).
    intros [u v] Hin. apply window_pairs in Hin. simpl.
    split; [apply Hnn; lia | apply Hb; lia].
  - unfold weight_sum, weighted_sum. rewrite !sum_window_flat.
    apply (sum1_map_between lo hi (λ p, at3 img c p.2 p.1)
             (λ p, at2 ker (p.2 - y + Z.of_nat kH `div` 2)
                           (p.1 - x + Z.of_nat kW `div` 2))).
    intros [u v] Hin. apply window_pairs in Hin. simpl.
    split; [apply Hnn; lia | apply Hb; lia].
Qed.

(** The 8-bit conversion of 255 times a value between [lo/255] and
    [hi/255], for sample values [lo] and [hi]. *)
Lemma to_uint8_between (v : F) (lo hi : Z) :
  0 ≤ lo → hi ≤ 255 →
  sle (div (of_Z lo) (of_Z 255)) v → sle v (div (of_Z hi) (of_Z 255)) →
  lo ≤ to_uint8 (mul v (of_Z 255)) ≤ hi.
Proof.
  intros Hlo Hhi Hv1 Hv2.
  pose proof (of_Z_255_neq_0 (F := F)) as H255.
  assert (Hp : sle zero (of_Z 255 : F)).
  { rewrite <- of_Z_0. apply of_Z_sle. lia. }
  assert (H1 : sle (of_Z lo) (mul v (of_Z 255))).
  { replace (of_Z lo : F) with (mul (div (of_Z lo) (of_Z 255)) (of_Z 255))
      by (field; done).
    by apply mul_sle_mono_r. }
  assert (H2 : sle (mul v (of_Z 255)) (of_Z hi)).
  { replace (of_Z hi : F) with (mul (div (of_Z hi) (of_Z 255)) (of_Z 255))
      by (field; done).
    by apply mul_sle_mono_r. }
  assert (H0 : sle zero (mul v (of_Z 255))).
  { apply sle_trans with (of_Z lo); [|done]. rewrite <- of_Z_0. by apply of_Z_sle. }
  destruct (trunc_spec _ H0) as [Ht1 Ht2].
  pose proof (sle_slt_trans _ _ _ H1 Ht2) as Ha. apply of_Z_slt in Ha.
  pose proof (sle_trans _ _ _ Ht1 H2) as Hb. apply of_Z_sle in Hb.
  unfold to_uint8. rewrite decide_True by lia. rewrite Z.mod_small; lia.
Qed.

Variable sigma : F.
Hypothesis Hsigma : slt zero sigma.

Variables (s : state F) (input_file output_file : string).
Variables (r : raster) (h w c : nat).
Hypothesis Hfile : files s !! input_file = Some (Bands r).
Hypothesis Hraster : raster_shape r h w c.
Hypothesis Hpos : (0 < h ∧ 0 < w ∧ 0 < c)%nat.

(** What both modes reach: an output array of the image's shape, whose
    values lie between the bounds of the decoded samples, and the library
    call that saves its encoding. *)
Lemma main_run (seperate_filters : bool) :
  ∃ o s',
    has_shape3 o c h w ∧
    main input_file output_file sigma seperate_filters s
    = save output_file
        (map3 to_uint8 (transpose_120 zero (map3 (λ v, mul v (of_Z 255)) o))) s' ∧
    files s' = files s ∧
    ∀ lo hi, samples_in lo hi r →
      ∀ k y x, 0 ≤ k < Z.of_nat c → 0 ≤ y < Z.of_nat h → 0 ≤ x < Z.of_nat w →
        sle (div (of_Z lo) (of_Z 255)) (at3 o k y x) ∧
        sle (at3 o k y x) (div (of_Z hi) (of_Z 255)).
Proof.
  destruct Hpos as (Hh & Hw & Hc).
  destruct (side_odd sigma Hsigma) as [Hn Hodd].
  set (arr := map3 (λ v : F, div v (of_Z 255)) (map3 of_Z (transpose_201 0 r))).
  (* the decoded samples *)
  assert (Harr : ∀ lo hi, samples_in lo hi r →
            ∀ k y x, 0 ≤ k < Z.of_nat c → 0 ≤ y < Z.of_nat h →
            0 ≤ x < Z.of_nat w →
            sle (div (of_Z lo) (of_Z 255)) (at3 arr k y x) ∧
            sle (at3 arr k y x) (div (of_Z hi) (of_Z 255))).
  { intros lo hi Hsamples k y x Hk Hy Hx.
    destruct (transpose_201_rectangular 0 r h w c Hraster Hh Hw) as [Ht Htat].
    destruct (rectangular3_map3 (of_Z : Z → F) _ _ _ _ Ht) as [Hm Hmat].
    destruct (rectangular3_map3 (λ v : F, div v (of_Z 255)) _ _ _ _ Hm)
      as [Hd Hdat].
    destruct (rectangular3_lookup r h w c (Z.to_nat y) (Z.to_nat x) (Z.to_nat k)
                Hraster) as (? & ? & v & _ & _ & _ & _ & _ & Hv); [lia..|].
    pose proof (samples_in_lookup3 lo hi r _ _ _ v Hsamples Hv) as Hvb.
    assert (Hget : getitem3 arr k y x = Some (div (of_Z v) (of_Z 255))).
    { rewrite <- (Z2Nat.id k), <- (Z2Nat.id y), <- (Z2Nat.id x) by lia.
      rewrite (getitem3_lookup3 arr c h w) by (done || lia).
      unfold arr. rewrite Hdat, Hmat, Htat, Hv by lia. done. }
    unfold at3. rewrite Hget. simpl.
    assert (Hp : slt zero (of_Z 255 : F)).
    { rewrite <- of_Z_0. apply of_Z_slt. lia. }
    split; apply div_sle_mono; try done; apply of_Z_sle; lia. }
  destruct seperate_filters.
  - destruct (main_separable_run sigma Hsigma s input_file output_file r h w c
                Hfile Hraster Hpos)
      as (ot & os & s' & Hot & Hos & Hatt & Hats & Hmain & Hfiles & _).
    fold arr in Hatt.
    exists os, s'. split_and!; [done..|].
    intros lo hi Hsamples.
    assert (Hotb : ∀ k y x, 0 ≤ k < Z.of_nat c → 0 ≤ y < Z.of_nat h →
              0 ≤ x < Z.of_nat w →
              sle (div (of_Z lo) (of_Z 255)) (at3 ot k y x) ∧
              sle (at3 ot k y x) (div (of_Z hi) (of_Z 255))).
    { intros k y x Hk Hy Hx. unfold at3 at 1 2. rewrite Hatt by done. simpl.
      apply window_average_between; try done.
      - by apply kernel_1d_positive.
      - intros v u Hv Hu. by apply Harr. }
    intros k y x Hk Hy Hx. unfold at3 at 1 2. rewrite Hats by done. simpl.
    apply window_average_between; try done.
    + by apply kernel_1d_t_positive.
    + intros v u Hv Hu. by apply Hotb.
  - destruct (main_joint_run sigma Hsigma s input_file output_file r h w c
                Hfile Hraster Hpos)
      as (oj & s' & Hoj & Hatj & Hmain & Hfiles & _).
    fold arr in Hatj.
    exists oj, s'. split_and!; [done..|].
    intros lo hi Hsamples k y x Hk Hy Hx.
    unfold at3 at 1 2. rewrite Hatj by done. simpl.
    apply window_average_between; try done.
    + by apply kernel_2d_positive.
    + intros v u Hv Hu. by apply Harr.
Qed.

(** X19: in exact arithmetic, for every sigma > 0 and every image file of
    several bands and positive dimensions, [main] gets in both modes as far
    as its last step, the call of the imaging library for the output file:
    no [convolve] call raises.  The array handed over has the dimensions and
    the number of channels of the input and samples in 0..255, and no file
    is changed before the call, so what the run returns and writes is what
    the library call does. *)
Theorem main_output_size (seperate_filters : bool) :
  ∃ (r' : raster) s',
    main input_file output_file sigma seperate_filters s = save output_file r' s' ∧
    files s' = files s ∧
    raster_shape r' h w c ∧
    samples_in 0 255 r'.
Proof.
  destruct (main_run seperate_filters) as (o & s' & Ho & Hmain & Hfiles & _).
  destruct (rectangular3_map3 (λ v : F, mul v (of_Z 255)) _ _ _ _ Ho) as [Hm _].
  destruct (transpose_120_rectangular zero _ _ _ _ Hm) as [Ht _]; [lia|].
  destruct (rectangular3_map3 to_uint8 _ _ _ _ Ht) as [Hu _].
  eexists _, s'. split_and!; [exact Hmain|done|exact Hu|].
  apply samples_in_map3. apply to_uint8_range.
Qed.

(** X20: in exact arithmetic the blur does not leave the range of the
    input: if every sample of the input file lies between [lo] and [hi],
    every sample of the array that [main] hands to the imaging library
    does, in both modes; the 8-bit conversion never wraps around in a run
    of the pipeline on an 8-bit image. *)
Theorem main_output_sample_range (seperate_filters : bool) (lo hi : Z) :
  samples_in lo hi r → 0 ≤ lo → hi ≤ 255 →
  ∃ (r' : raster) s',
    main input_file output_file sigma seperate_filters s = save output_file r' s' ∧
    samples_in lo hi r'.
Proof.
  intros Hsamples Hlo Hhi.
  destruct (main_run seperate_filters) as (o & s' & Ho & Hmain & Hfiles & Hb).
  specialize (Hb lo hi Hsamples).
  destruct (rectangular3_map3 (λ v : F, mul v (of_Z 255)) _ _ _ _ Ho) as [Hm Hmat].
  destruct (transpose_120_rectangular zero _ _ _ _ Hm) as [Ht Htat]; [lia|].
  destruct (rectangular3_map3 to_uint8 _ _ _ _ Ht) as [Hu Huat].
  eexists _, s'. split; [exact Hmain|].
  apply (samples_in_intro _ h w c); [exact Hu|].
  intros y x k v Hy Hx Hk Hv.
  rewrite Huat, Htat, Hmat in Hv by done.
  destruct (rectangular3_lookup o c h w k y x Ho) as
    (? & ? & v0 & _ & _ & _ & _ & _ & Hv0); [done..|].
  rewrite Hv0 in Hv. simpl in Hv. injection Hv as <-.
  assert (Hat : at3 o (Z.of_nat k) (Z.of_nat y) (Z.of_nat x) = v0).
  { unfold at3. by rewrite (getitem3_lookup3 o c h w), Hv0. }
  destruct (Hb (Z.of_nat k) (Z.of_nat y) (Z.of_nat x)) as [Hb1 Hb2]; [lia..|].
  rewrite Hat in Hb1, Hb2. by apply to_uint8_between.
Qed.

(** X21: joint mode end to end, in exact arithmetic: for every sigma > 0
    the sample [y, x, c] of the array that [main] hands to the imaging
    library is the 8-bit conversion of 255 times the window average, under
    the generated 2-D kernel, of the input samples of channel [c] divided
    by 255. *)
Theorem main_joint_samples :
  let arr := map3 (λ v : F, div v (of_Z 255)) (map3 of_Z (transpose_201 0 r)) in
  let K := gaussian_kernel_2d sigma in
  let n := 2 * (ceil sigma * 3) + 1 in
  ∃ (r' : raster) s',
    main input_file output_file sigma false s = save output_file r' s' ∧
    ∀ y x k, (y < h)%nat → (x < w)%nat → (k < c)%nat →
      lookup3 r' y x k
      = Some (to_uint8
                (mul (div (weighted_sum arr K (Z.of_nat h) (Z.of_nat w) n n
                             (Z.of_nat k) (Z.of_nat y) (Z.of_nat x))
                          (weight_sum K (Z.of_nat h) (Z.of_nat w) n n
                             (Z.of_nat y) (Z.of_nat x)))
                     (of_Z 255))).
Proof.
  intros arr K n.
  destruct (side_odd sigma Hsigma) as [Hn _].
  destruct (main_joint_run sigma Hsigma s input_file output_file r h w c
              Hfile Hraster Hpos)
    as (oj & s' & Hoj & Hatj & Hmain & Hfiles & _).
  fold arr K in Hatj. rewrite Hn in Hatj. fold n in Hatj.
  destruct (rectangular3_map3 (λ v : F, mul v (of_Z 255)) _ _ _ _ Hoj) as [Hm Hmat].
  destruct (transpose_120_rectangular zero _ _ _ _ Hm) as [Ht Htat]; [lia|].
  destruct (rectangular3_map3 to_uint8 _ _ _ _ Ht) as [Hu Huat].
  eexists _, s'. split; [exact Hmain|].
  intros y x k Hy Hx Hk.
  rewrite Huat, Htat, Hmat by done.
  rewrite <- (getitem3_lookup3 oj c h w) by done.
  rewrite Hatj by lia. done.
Qed.

(** X23: in exact arithmetic, for every sigma > 0, the two modes hand the
    same array to the imaging library and leave the same output buffer:
    separable filtering is the joint filtering at every position, at the
    edges too. *)
Theorem main_modes_agree :
  ∃ (r' : raster) sj ss,
    main input_file output_file sigma false s = save output_file r' sj ∧
    main input_file output_file sigma true s = save output_file r' ss ∧
    files sj = files s ∧ files ss = files s ∧
    heap sj !! Pos.succ (next_loc s) = heap ss !! Pos.succ (next_loc s) ∧
    raster_shape r' h w c.
Proof.
  destruct (main_outputs_equal sigma Hsigma s input_file output_file r h w c
              Hfile Hraster Hpos)
    as (o & sj & ss & Ho & Hmj & Hms & Hfj & Hfs & Hhj & Hhs).
  destruct (rectangular3_map3 (λ v : F, mul v (of_Z 255)) _ _ _ _ Ho) as [Hm _].
  destruct (transpose_120_rectangular zero _ _ _ _ Hm) as [Ht _]; [lia|].
  destruct (rectangular3_map3 to_uint8 _ _ _ _ Ht) as [Hu _].
  eexists _, sj, ss. split_and!; [exact Hmj|exact Hms|done|done| |exact Hu].
  by rewrite Hhj, Hhs.
Qed.

End BlurredSamples.

Section NegativeSigma.
Context {F : Type} {S : Scalar F} {E : Exponential F}
        {A : ExactArith F} {L : ExpLaws F} {P : Pillow}.

(** X22: a sigma strictly between -1 and 0 is not rejected and does not
    blur: in exact arithmetic, in both modes, [main] on an 8-bit image of
    several bands gets as far as the call of the imaging library and hands
    it the array that was read from the input file; no file is changed
    before that call. *)
Theorem main_small_negative_sigma_copies (s : state F) input_file output_file
    (sigma : F) (seperate_filters : bool) (r : raster) (h w c : nat) :
  slt (of_Z (-1)) sigma → slt sigma zero →
  files s !! input_file = Some (Bands r) →
  raster_shape r h w c → (0 < h ∧ 0 < w ∧ 0 < c)%nat →
  samples_in 0 255 r →
  ∃ s',
    main input_file output_file sigma seperate_filters s = save output_file r s' ∧
    files s' = files s.
Proof.
  intros Hlo Hhi Hfile Hraster Hpos Hsamples.
  pose proof (ceil_small_negative sigma Hlo Hhi) as Hceil.
  assert (Hsne : sigma ≠ zero) by (destruct Hhi; congruence).
  pose proof (gaussian_kernel_2d_radius_0 sigma Hceil Hsne) as Hk2.
  pose proof (gaussian_kernel_1d_radius_0 sigma Hceil Hsne) as Hk1.
  destruct (decoded_shape sigma r h w c Hraster Hpos) as [Harr Hshape].
  set (arr := map3 (λ v : F, div v (of_Z 255)) (map3 of_Z (transpose_201 0 r))) in *.
  pose proof (zeros_shape (F := F) c h w) as Hzeros. rewrite <- Hshape in Hzeros.
  enough (Hgoal : ∃ s',
    main input_file output_file sigma seperate_filters s
    = save output_file
        (map3 to_uint8 (transpose_120 zero (map3 (λ v, mul v (of_Z 255)) arr))) s' ∧
    files s' = files s).
  { unfold arr in Hgoal.
    rewrite (encode_decode r h w c) in Hgoal by (done || lia). exact Hgoal. }
  destruct seperate_filters.
  - destruct (main_separable_steps s input_file output_file sigma r Hfile arr arr)
      as (s' & Hmain & Hfiles & _).
    + rewrite Hk1. fold arr.
      apply (convolve_one_weight _ _ _ _ arr (zeros (shape3 arr)) one c h w);
        try done.
      * simpl. rewrite !lookup_insert_ne by lia. apply lookup_insert_eq.
      * simpl. apply lookup_insert_eq.
      * simpl. rewrite lookup_insert_ne by lia. apply lookup_insert_eq.
      * lia.
      * apply one_neq_zero.
    + rewrite Hk1. fold arr.
      apply (convolve_one_weight _ _ _ _ arr (zeros (shape3 arr)) one c h w);
        try done.
      * simpl. rewrite lookup_insert_ne by lia. apply lookup_insert_eq.
      * simpl. rewrite !lookup_insert_ne by lia. apply lookup_insert_eq.
      * simpl. apply lookup_insert_eq.
      * lia.
      * apply one_neq_zero.
    + by exists s'.
  - destruct (main_joint_steps s input_file output_file sigma r Hfile arr)
      as (s' & Hmain & Hfiles & _).
    + rewrite Hk2. fold arr.
      apply (convolve_one_weight _ _ _ _ arr (zeros (shape3 arr)) one c h w);
        try done.
      * simpl. rewrite !lookup_insert_ne by lia. apply lookup_insert_eq.
      * simpl. rewrite lookup_insert_ne by lia. apply lookup_insert_eq.
      * simpl. apply lookup_insert_eq.
      * lia.
      * apply one_neq_zero.
    + by exists s'.
Qed.

End NegativeSigma.

(** ** The further theorems at concrete inputs *)

Lemma convolve_overwrites_output_witness :
  let s := objects [Array3 impulse; Array3 blank33; Array3 full33; Array2 box3] in
  ∃ out',
    convolve 1%positive 2%positive 4%positive s
    = (Ok tt, with_output 2%positive (logged 1%positive 2%positive 4%positive s) out') ∧
    convolve 1%positive 3%positive 4%positive s
    = (Ok tt, with_output 3%positive (logged 1%positive 3%positive 4%positive s) out').
Proof.
  apply (convolve_overwrites_output
           (objects [Array3 impulse; Array3 blank33; Array3 full33; Array2 box3])
           1%positive 2%positive 3%positive 4%positive
           impulse blank33 full33 box3 1 3 3 3 3).
  - reflexivity.
  - reflexivity.
  - reflexivity.
  - reflexivity.
  - discriminate.
  - discriminate.
  - repeat constructor.
  - repeat constructor.
  - repeat constructor.
  - repeat constructor.
  - reflexivity.
  - reflexivity.
  - intros y x Hy Hx. below3 y; below3 x; vm_compute; reflexivity.
Defined.

Lemma convolve_kernel_scale_invariant_witness :
  let s := objects [Array3 impulse; Array3 blank33; Array2 box3; Array2 ones33] in
  ∃ out',
    convolve 1%positive 2%positive 3%positive s
    = (Ok tt, with_output 2%positive (logged 1%positive 2%positive 3%positive s) out') ∧
    convolve 1%positive 2%positive 4%positive s
    = (Ok tt, with_output 2%positive (logged 1%positive 2%positive 4%positive s) out').
Proof.
  apply (convolve_kernel_scale_invariant
           (objects [Array3 impulse; Array3 blank33; Array2 box3; Array2 ones33])
           1%positive 2%positive 3%positive 4%positive
           impulse blank33 box3 ones33 1 3 3 3 3 (q 9 1)).
  - reflexivity.
  - reflexivity.
  - reflexivity.
  - reflexivity.
  - discriminate.
  - repeat constructor.
  - repeat constructor.
  - repeat constructor.
  - repeat constructor.
  - reflexivity.
  - reflexivity.
  - qc_neq.
  - intros i j Hi Hj. below3 i; below3 j; apply Qc_is_canon; vm_compute; reflexivity.
  - intros y x Hy Hx. below3 y; below3 x; qc_neq.
Defined.

Lemma convolve_linear_witness :
  let s := objects [Array3 impulse; Array3 grey33; Array3 mixed33;
                    Array3 blank33; Array2 box3] in
  ∃ out1 out2 out3,
    convolve 1%positive 4%positive 5%positive s
    = (Ok tt, with_output 4%positive (logged 1%positive 4%positive 5%positive s) out1) ∧
    convolve 2%positive 4%positive 5%positive s
    = (Ok tt, with_output 4%positive (logged 2%positive 4%positive 5%positive s) out2) ∧
    convolve 3%positive 4%positive 5%positive s
    = (Ok tt, with_output 4%positive (logged 3%positive 4%positive 5%positive s) out3) ∧
    ∀ c y x, 0 ≤ c < 1 → 0 ≤ y < 3 → 0 ≤ x < 3 →
      getitem3 out3 c y x
      = Some (add (mul (q 2 1) (at3 out1 c y x)) (mul (q 3 1) (at3 out2 c y x))).
Proof.
  apply (convolve_linear
           (objects [Array3 impulse; Array3 grey33; Array3 mixed33;
                     Array3 blank33; Array2 box3])
           1%positive 2%positive 3%positive 4%positive 5%positive
           impulse grey33 mixed33 blank33 box3 1 3 3 3 3 (q 2 1) (q 3 1)).
  - reflexivity.
  - reflexivity.
  - reflexivity.
  - reflexivity.
  - reflexivity.
  - discriminate.
  - discriminate.
  - discriminate.
  - repeat constructor.
  - repeat constructor.
  - repeat constructor.
  - repeat constructor.
  - repeat constructor.
  - reflexivity.
  - reflexivity.
  - intros c y x Hc Hy Hx. assert (c = 0) as -> by lia.
    below3 y; below3 x; apply Qc_is_canon; vm_compute; reflexivity.
  - intros y x Hy Hx. below3 y; below3 x; qc_neq.
Defined.

Lemma convolve_centre_only_kernel_witness :
  let s := objects [Array3 impulse; Array3 full33; Array2 centre33] in
  convolve 1%positive 2%positive 3%positive s
  = (Ok tt, with_output 2%positive (logged 1%positive 2%positive 3%positive s) impulse).
Proof.
  apply (convolve_centre_only_kernel
           (objects [Array3 impulse; Array3 full33; Array2 centre33])
           1%positive 2%positive 3%positive impulse full33 centre33 1 3 3 3 3).
  - reflexivity.
  - reflexivity.
  - reflexivity.
  - discriminate.
  - repeat constructor.
  - repeat constructor.
  - repeat constructor.
  - reflexivity.
  - reflexivity.
  - qc_neq.
  - intros i j Hi Hj Hneq.
    below3 i; below3 j; try reflexivity. exfalso. by apply Hneq.
Defined.

Lemma convolve_zero_window_sum_raises_witness :
  let s := three_arrays ones12 blank12 alternating3 in
  ∃ out',
    convolve 1%positive 2%positive 3%positive s
    = (Raise ZeroDivisionError,
       with_output 2%positive (logged 1%positive 2%positive 3%positive s) out') ∧
    has_shape3 out' 1 1 2.
Proof.
  apply (convolve_zero_window_sum_raises
           (three_arrays ones12 blank12 alternating3)
           1%positive 2%positive 3%positive ones12 blank12 alternating3
           1 1 2 1 3 0 0).
  - reflexivity.
  - reflexivity.
  - reflexivity.
  - discriminate.
  - repeat constructor.
  - repeat constructor.
  - repeat constructor.
  - reflexivity.
  - reflexivity.
  - lia.
  - lia.
  - lia.
  - vm_compute. reflexivity.
Defined.

Lemma convolve_empty_image_witness :
  let s := objects [Array3 no_columns; Array3 blank33; Array2 box3] in
  convolve 1%positive 2%positive 3%positive s
  = (Ok tt, logged 1%positive 2%positive 3%positive s).
Proof.
  apply (convolve_empty_image (objects [Array3 no_columns; Array3 blank33; Array2 box3])
           1%positive 2%positive 3%positive no_columns blank33 box3 1 2 0).
  - reflexivity.
  - reflexivity.
  - reflexivity.
  - repeat constructor.
  - right. by right.
Defined.

Lemma read_image_decodes_witness :
  let s : state Qc := one_file "input.jpg" rgb22 in
  ∃ arr,
    read_image "input.jpg" s
    = (Ok (next_loc s),
       State (<[next_loc s := Array3 arr]> (heap s)) (Pos.succ (next_loc s))
             (files s) (calls s)) ∧
    has_shape3 arr 3 2 2 ∧
    ∀ k y x, (k < 3)%nat → (y < 2)%nat → (x < 2)%nat →
      ∃ v, lookup3 rgb22 y x k = Some v ∧
           getitem3 arr (Z.of_nat k) (Z.of_nat y) (Z.of_nat x)
           = Some (div (of_Z v) (of_Z 255)).
Proof.
  apply (read_image_decodes (one_file "input.jpg" rgb22) "input.jpg" rgb22 2 2 3).
  - reflexivity.
  - repeat constructor.
  - lia.
  - lia.
Defined.

Lemma write_image_encodes_witness :
  let s := one_array planes3 in
  ∃ r : raster,
    write_image (P := lossless) 1%positive "output.png" s
    = save (P := lossless) "output.png" r
        (with_output 1%positive s (map3 (λ v, mul v (of_Z 255)) planes3)) ∧
    raster_shape r 1 2 3 ∧
    samples_in 0 255 r ∧
    ∀ y x k, (y < 1)%nat → (x < 2)%nat → (k < 3)%nat →
      ∃ v, getitem3 planes3 (Z.of_nat k) (Z.of_nat y) (Z.of_nat x) = Some v ∧
           lookup3 r y x k = Some (to_uint8 (mul v (of_Z 255))).
Proof.
  apply (write_image_encodes (P := lossless) (one_array planes3) 1%positive
           "output.png" planes3 3 1 2).
  - reflexivity.
  - repeat constructor.
  - lia.
Defined.

Lemma read_write_round_trip_witness :
  let s : state Qc := one_file "input.png" rgb22 in
  ∃ s',
    (img <- read_image "input.png" ;; write_image (P := lossless) img "output.png") s
    = save (P := lossless) "output.png" rgb22 s' ∧
    files s' = files s.
Proof.
  apply (read_write_round_trip (P := lossless) (one_file "input.png" rgb22)
           "input.png" "output.png" rgb22 2 2 3).
  - reflexivity.
  - repeat constructor.
  - lia.
  - lia.
  - lia.
  - repeat constructor; lia.
Defined.

Lemma read_write_round_trip_float32_witness :
  let s : state spec_float := one_file "input.png" rgb22 in
  ∃ s',
    (img <- read_image (H := binary32) "input.png" ;;
     write_image (H := binary32) (P := lossless) img "output.png") s
    = save (P := lossless) "output.png" rgb22 s' ∧
    files s' = files s.
Proof.
  apply (read_write_round_trip_float32 (P := lossless) (one_file "input.png" rgb22)
           "input.png" "output.png" rgb22 2 2 3).
  - reflexivity.
  - repeat constructor.
  - lia.
  - lia.
  - lia.
  - repeat constructor; lia.
Defined.

Lemma write_image_wraps_around_witness :
  let s := one_array vivid in
  ∃ r : raster,
    write_image (P := lossless) 1%positive "output.png" s
    = save (P := lossless) "output.png" r
        (with_output 1%positive s (map3 (λ v, mul v (of_Z 255)) vivid)) ∧
    raster_shape r 1 1 3 ∧
    ∀ y x k, (y < 1)%nat → (x < 1)%nat → (k < 3)%nat →
      ∃ v, getitem3 vivid (Z.of_nat k) (Z.of_nat y) (Z.of_nat x) = Some v ∧
        let t := mul v (of_Z 255) in
        (slt (of_Z (- 2147483648)) t → slt t (of_Z 2147483648) →
         ∃ n, lookup3 r y x k = Some (n `mod` 256) ∧
              (sle zero t → sle (of_Z n) t ∧ slt t (of_Z (n + 1))) ∧
              (sle t zero → slt (of_Z (n - 1)) t ∧ sle t (of_Z n)) ∧
              (n `mod` 256 = n ↔ slt (of_Z (- 1)) t ∧ slt t (of_Z 256))).
Proof.
  apply (write_image_wraps_around (P := lossless) (one_array vivid) 1%positive
           "output.png" vivid 3 1 1).
  - reflexivity.
  - repeat constructor.
  - lia.
Defined.

(** C9 as stated fails: of the samples 1.25, -0.5 and 0.5 of the pixel
    [vivid] the first two are outside [0, 1]; scaled by 255 they are
    318.75, -127.5 and 127.5, and whatever the imaging library does,
    [write_image] hands it the pixel (62, 129, 127): 318 - 256 and
    -127 + 256 are wrapped around, where clamping gives (255, 0, 127). *)
Lemma write_image_clamps_counterexample :
  slt one (q 5 4) ∧ slt (q (-1) 2) zero ∧
  map3 (λ v : Qc, this (mul v (of_Z 255))) vivid
  = [[[1275 # 4]]; [[-255 # 2]]; [[255 # 2]]]%Q ∧
  [[[62; 129; 127]]] ≠ [[[255; 0; 127]]] ∧
  ∀ P : Pillow,
    write_image 1%positive "output.png" (one_array vivid)
    = save "output.png" [[[62; 129; 127]]]
        (one_array (map3 (λ v, mul v (of_Z 255)) vivid)).
Proof.
  split_and!.
  - split; [qc_le | qc_neq].
  - split; [qc_le | qc_neq].
  - vm_compute. reflexivity.
  - discriminate.
  - intros P. rewrite (write_image_run _ _ _ vivid) by reflexivity.
    reflexivity.
Qed.

Lemma write_image_scales_in_place_witness :
  let s' := (write_image (P := lossless) 1%positive "output.png" (one_array planes3)).2 in
  heap s' !! 1%positive = Some (Array3 (map3 (λ v, mul v (of_Z 255)) planes3)) ∧
  (∀ l, l ≠ 1%positive → heap s' !! l = heap (one_array planes3) !! l) ∧
  (∀ c y x v, getitem3 planes3 c y x = Some v →
     getitem3 (array3_at s' 1%positive) c y x = Some (mul v (of_Z 255)) ∧
     (slt (div one (of_Z 255)) v → slt one (mul v (of_Z 255))) ∧
     (v ≠ zero → getitem3 (array3_at s' 1%positive) c y x ≠ getitem3 planes3 c y x) ∧
     (v = zero → getitem3 (array3_at s' 1%positive) c y x = getitem3 planes3 c y x)).
Proof.
  apply (write_image_scales_in_place (P := lossless) (one_array planes3) 1%positive
           "output.png" planes3).
  reflexivity.
Defined.

(** C10 as stated fails on a black image: every sample of [black3] is 0,
    so the multiplication by 255 leaves the buffer as it was, with its
    values in [0, 1], whatever the imaging library does. *)
Lemma write_image_scales_in_place_counterexample :
  Forall (Forall (Forall (λ v : Qc, sle zero v ∧ sle v one))) black3 ∧
  ∀ P : Pillow,
    heap (write_image 1%positive "output.png" (one_array black3)).2 !! 1%positive
    = heap (one_array black3) !! 1%positive.
Proof.
  split.
  - repeat constructor; qc_le.
  - intros P. rewrite (write_image_run _ _ _ black3) by reflexivity.
    destruct (save_heap (P := P)
                (with_output 1%positive (one_array black3)
                   (map3 (λ v : Qc, mul v (of_Z 255)) black3)) "output.png"
                (map3 to_uint8
                   (transpose_120 zero (map3 (λ v : Qc, mul v (of_Z 255)) black3))))
      as (Hheap & _ & _).
    rewrite Hheap. simpl. rewrite !lookup_insert_eq. reflexivity.
Qed.

Lemma gaussian_kernel_1d_properties_witness :
  let n := 2 * (ceil 1%R * 3) + 1 in
  let K := gaussian_kernel_1d 1%R in
  Z.odd n = true ∧
  has_shape2 K 1 (Z.to_nat n) ∧
  sum2 K = one ∧
  (∀ j, 0 ≤ j < n → slt zero (at2 K 0 j)) ∧
  (∀ j, 0 ≤ j < n → at2 K 0 j = at2 K 0 (n - 1 - j)) ∧
  (∀ j, 0 ≤ j < n → sle (at2 K 0 j) (at2 K 0 (n `div` 2))).
Proof.
  apply (gaussian_kernel_1d_properties 1%R).
  split; simpl; [lra | intros Heq; lra].
Defined.

Lemma gaussian_kernel_2d_outer_product_witness :
  at2 (gaussian_kernel_2d 1%R) 2 5
  = mul (at2 (gaussian_kernel_1d 1%R) 0 2) (at2 (gaussian_kernel_1d 1%R) 0 5).
Proof.
  assert (Hc : ceil 1%R = 1).
  { change 1%R with (of_Z 1 : R). apply ceil_of_Z. }
  apply (gaussian_kernel_2d_outer_product 1%R 2 5).
  - split; simpl; [lra | intros Heq; lra].
  - rewrite Hc. lia.
  - rewrite Hc. lia.
Defined.

Lemma gaussian_kernel_2d_radial_witness :
  let R := ceil 1%R * 3 in
  let K := gaussian_kernel_2d 1%R in
  (∀ i j, 0 ≤ i < 2 * R + 1 → 0 ≤ j < 2 * R + 1 → slt zero (at2 K i j)) ∧
  (∀ i j i' j', 0 ≤ i < 2 * R + 1 → 0 ≤ j < 2 * R + 1 →
     0 ≤ i' < 2 * R + 1 → 0 ≤ j' < 2 * R + 1 →
     (i - R) * (i - R) + (j - R) * (j - R)
     ≤ (i' - R) * (i' - R) + (j' - R) * (j' - R) →
     sle (at2 K i' j') (at2 K i j)).
Proof.
  apply (gaussian_kernel_2d_radial 1%R).
  split; simpl; [lra | intros Heq; lra].
Defined.

Lemma gaussian_kernel_small_negative_sigma_witness :
  gaussian_kernel_2d (-1 / 2)%R = [[one]] ∧ gaussian_kernel_1d (-1 / 2)%R = [[one]].
Proof.
  apply (gaussian_kernel_small_negative_sigma (-1 / 2)%R).
  - split; simpl; [lra | intros Heq; lra].
  - split; simpl; [lra | intros Heq; lra].
Defined.

Lemma convolve_interior_correlation_witness :
  let s := three_arrays impulse blank33 box3 in
  ∃ out',
    convolve 1%positive 2%positive 3%positive s
    = (Ok tt, with_output 2%positive (logged 1%positive 2%positive 3%positive s) out') ∧
    ∀ c y x, 0 ≤ c < 1 → 1 ≤ y < 3 - 1 → 1 ≤ x < 3 - 1 →
      getitem3 out' c y x
      = Some (div (correlation impulse box3 3 3 c y x) (sum2 box3)) ∧
      (sum2 box3 = one →
       getitem3 out' c y x = Some (correlation impulse box3 3 3 c y x)).
Proof.
  apply (convolve_interior_correlation (three_arrays impulse blank33 box3)
           1%positive 2%positive 3%positive impulse blank33 box3 1 3 3 3 3).
  - reflexivity.
  - reflexivity.
  - reflexivity.
  - discriminate.
  - repeat constructor.
  - repeat constructor.
  - repeat constructor.
  - reflexivity.
  - reflexivity.
  - intros y x Hy Hx. below3 y; below3 x; qc_neq.
Defined.

Lemma convolve_row_then_column_witness :
  let s := objects [Array3 impulse; Array3 blank33; Array3 full33;
                    Array2 row3; Array2 column3; Array2 outer33] in
  let two := (convolve 1%positive 2%positive 4%positive ;;
              convolve 2%positive 3%positive 5%positive) s in
  let joint := convolve 1%positive 3%positive 6%positive s in
  two.1 = Ok tt ∧ joint.1 = Ok tt ∧
  array3_at two.2 3%positive = array3_at joint.2 3%positive.
Proof.
  apply (convolve_row_then_column impulse row3 column3 outer33 1 3 3 3 3)
    with (buf1 := blank33) (buf2 := full33).
  - repeat constructor.
  - repeat constructor.
  - repeat constructor.
  - reflexivity.
  - reflexivity.
  - intros i j Hi Hj. below3 i; below3 j; apply Qc_is_canon; vm_compute; reflexivity.
  - reflexivity.
  - reflexivity.
  - reflexivity.
  - reflexivity.
  - reflexivity.
  - reflexivity.
  - discriminate.
  - discriminate.
  - discriminate.
  - repeat constructor.
  - repeat constructor.
  - repeat constructor.
  - intros y x Hy Hx. below3 y; below3 x; qc_neq.
  - intros y x Hy Hx. below3 y; below3 x; qc_neq.
Defined.

Lemma main_missing_input_witness :
  main (P := lossless) "missing.png" "output.png" 1%R false (one_file "input.png" rgb22)
  = (Raise IOError, one_file "input.png" rgb22).
Proof.
  apply (main_missing_input (P := lossless) (one_file "input.png" rgb22)
           "missing.png" "output.png" 1%R false).
  reflexivity.
Defined.

Lemma main_single_band_input_witness :
  let s : state R :=
    State ∅ 1%positive (<["grey.png" := Flat [[0; 255]; [255; 0]]]> ∅) [] in
  main (P := lossless) "grey.png" "output.png" 1%R true s = (Raise ValueError, s).
Proof.
  apply (main_single_band_input (P := lossless)
           (State ∅ 1%positive (<["grey.png" := Flat [[0; 255]; [255; 0]]]> ∅) [])
           "grey.png" "output.png" 1%R true [[0; 255]; [255; 0]]).
  reflexivity.
Defined.

Lemma main_output_size_witness :
  let s : state R := one_file "input.png" rgb22 in
  ∃ (r' : raster) s',
    main (P := lossless) "input.png" "output.png" 1%R true s
    = save (P := lossless) "output.png" r' s' ∧
    files s' = files s ∧
    raster_shape r' 2 2 3 ∧
    samples_in 0 255 r'.
Proof.
  apply (main_output_size (P := lossless) 1%R)
    with (r := rgb22) (h := 2%nat) (w := 2%nat) (c := 3%nat).
  - split; simpl; [lra | intros Heq; lra].
  - reflexivity.
  - repeat constructor.
  - lia.
Defined.

Lemma main_modes_agree_witness :
  let s : state R := one_file "input.png" rgb22 in
  ∃ (r' : raster) sj ss,
    main (P := lossless) "input.png" "output.png" 1%R false s
    = save (P := lossless) "output.png" r' sj ∧
    main (P := lossless) "input.png" "output.png" 1%R true s
    = save (P := lossless) "output.png" r' ss ∧
    files sj = files s ∧ files ss = files s ∧
    heap sj !! Pos.succ (next_loc s) = heap ss !! Pos.succ (next_loc s) ∧
    raster_shape r' 2 2 3.
Proof.
  apply (main_modes_agree (P := lossless) 1%R)
    with (r := rgb22) (h := 2%nat) (w := 2%nat) (c := 3%nat).
  - split; simpl; [lra | intros Heq; lra].
  - reflexivity.
  - repeat constructor.
  - lia.
Defined.

Lemma main_output_sample_range_witness :
  let s : state R := one_file "input.png" rgb22 in
  ∃ (r' : raster) s',
    main (P := lossless) "input.png" "output.png" 1%R false s
    = save (P := lossless) "output.png" r' s' ∧
    samples_in 0 255 r'.
Proof.
  apply (main_output_sample_range (P := lossless) 1%R)
    with (r := rgb22) (h := 2%nat) (w := 2%nat) (c := 3%nat).
  - split; simpl; [lra | intros Heq; lra].
  - reflexivity.
  - repeat constructor.
  - lia.
  - repeat constructor; lia.
  - lia.
  - lia.
Defined.

Lemma main_small_negative_sigma_copies_witness :
  let s : state R := one_file "input.png" rgb22 in
  ∃ s',
    main (P := lossless) "input.png" "output.png" (-1 / 2)%R true s
    = save (P := lossless) "output.png" rgb22 s' ∧
    files s' = files s.
Proof.
  apply (main_small_negative_sigma_copies (P := lossless) (one_file "input.png" rgb22)
           "input.png" "output.png" (-1 / 2)%R true rgb22 2 2 3).
  - split; simpl; [lra | intros Heq; lra].
  - split; simpl; [lra | intros Heq; lra].
  - reflexivity.
  - repeat constructor.
  - lia.
  - repeat constructor; lia.
Defined.

Lemma main_joint_samples_witness :
  let s : state R := one_file "input.png" rgb22 in
  let arr := map3 (λ v : R, div v (of_Z 255)) (map3 of_Z (transpose_201 0 rgb22)) in
  let K := gaussian_kernel_2d 1%R in
  let n := 2 * (ceil 1%R * 3) + 1 in
  ∃ (r' : raster) s',
    main (P := lossless) "input.png" "output.png" 1%R false s
    = save (P := lossless) "output.png" r' s' ∧
    ∀ y x k, (y < 2)%nat → (x < 2)%nat → (k < 3)%nat →
      lookup3 r' y x k
      = Some (to_uint8
                (mul (div (weighted_sum arr K (Z.of_nat 2) (Z.of_nat 2) n n
                             (Z.of_nat k) (Z.of_nat y) (Z.of_nat x))
                          (weight_sum K (Z.of_nat 2) (Z.of_nat 2) n n
                             (Z.of_nat y) (Z.of_nat x)))
                     (of_Z 255))).
Proof.
  apply (main_joint_samples (P := lossless) 1%R)
    with (r := rgb22) (h := 2%nat) (w := 2%nat) (c := 3%nat).
  - split; simpl; [lra | intros Heq; lra].
  - reflexivity.
  - repeat constructor.
  - lia.
Defined.

Lemma convolve_monotone_witness :
  let s := objects [Array3 blank33; Array3 impulse; Array3 full33; Array2 box3] in
  ∃ out1 out2,
    convolve 1%positive 3%positive 4%positive s
    = (Ok tt, with_output 3%positive (logged 1%positive 3%positive 4%positive s) out1) ∧
    convolve 2%positive 3%positive 4%positive s
    = (Ok tt, with_output 3%positive (logged 2%positive 3%positive 4%positive s) out2) ∧
    ∀ c y x, 0 ≤ c < 1 → 0 ≤ y < 3 → 0 ≤ x < 3 →
      sle (at3 out1 c y x) (at3 out2 c y x).
Proof.
  apply (convolve_monotone
           (objects [Array3 blank33; Array3 impulse; Array3 full33; Array2 box3])
           1%positive 2%positive 3%positive 4%positive
           blank33 impulse full33 box3 1 3 3 3 3).
  - reflexivity.
  - reflexivity.
  - reflexivity.
  - reflexivity.
  - discriminate.
  - discriminate.
  - repeat constructor.
  - repeat constructor.
  - repeat constructor.
  - repeat constructor.
  - reflexivity.
  - reflexivity.
  - intros i j Hi Hj. below3 i; below3 j; qc_le.
  - split; [qc_le | qc_neq].
  - intros c y x Hc Hy Hx. assert (c = 0) as -> by lia.
    below3 y; below3 x; qc_le.
Defined.

Lemma convolve_local_witness :
  let s := objects [Array3 impulse; Array3 blank33; Array3 full33; Array2 row3] in
  ∃ out1 out2,
    convolve 1%positive 3%positive 4%positive s
    = (Ok tt, with_output 3%positive (logged 1%positive 3%positive 4%positive s) out1) ∧
    convolve 2%positive 3%positive 4%positive s
    = (Ok tt, with_output 3%positive (logged 2%positive 3%positive 4%positive s) out2) ∧
    getitem3 out1 0 0 0 = getitem3 out2 0 0 0.
Proof.
  apply (convolve_local
           (objects [Array3 impulse; Array3 blank33; Array3 full33; Array2 row3])
           1%positive 2%positive 3%positive 4%positive
           impulse blank33 full33 row3 1 3 3 1 3 0 0 0).
  - reflexivity.
  - reflexivity.
  - reflexivity.
  - reflexivity.
  - discriminate.
  - discriminate.
  - repeat constructor.
  - repeat constructor.
  - repeat constructor.
  - repeat constructor.
  - reflexivity.
  - reflexivity.
  - intros y x Hy Hx. below3 y; below3 x; vm_compute; reflexivity.
  - lia.
  - lia.
  - lia.
  - intros v u Hv Hu Hv' Hu'.
    change (Z.of_nat 1 `div` 2) with 0 in Hv'. change (Z.of_nat 3 `div` 2) with 1 in Hu'.
    assert (v = 0) as -> by lia. below2 u; reflexivity.
Defined.
